(** * Verification of [python/utils.py]

    A shallow embedding of the numeric core of [utils.py]: the C3D
    feature-dump reader and stacker, the pooling helpers, the segment
    interval arithmetic and the edit distance, with the properties of
    the specification stated and settled against it, and further
    properties read off the code.

    Conventions of the embedding.
    - A numpy [float64] scalar is a [spec_float] at precision 53 and
      maximal exponent 1024; the arithmetic is the IEEE 754 arithmetic of
      [SpecFloat] (round to nearest, ties to even), so [nan], the
      infinities and the signed zeros are the ones numpy produces.
    - An [ndarray] is its shape and its row-major buffer.
    - A Python exception is a constructor of [exn]; a call that can raise
      returns a [result].
    - Python objects that are mutated in place live in a [store] and are
      named by their address. *)

From Stdlib Require Import ZArith Lia Bool List String Ascii.
From Stdlib Require Import Floats.SpecFloat.
From Stdlib Require Import Init.Byte Strings.Byte.
From stdpp Require Import base option list gmap strings.
Import ListNotations.

Set Default Proof Using "Type".

(** ** Exceptions and results *)

Inductive exn : Type :=
| IOError
| EOFError
| ValueError
| IndexError.

Inductive result (A : Type) : Type :=
| Ok (a : A)
| Raise (e : exn).

Arguments Ok {A} a.
Arguments Raise {A} e.

Definition rbind {A B : Type} (c : result A) (k : A -> result B) : result B :=
  match c with
  | Ok a => k a
  | Raise e => Raise e
  end.

Declare Scope result_scope.
Delimit Scope result_scope with result.
Notation "'let*' x ':=' c 'in' k" := (rbind c (fun x => k))
  (at level 10, x pattern, c at level 100, k at level 200) : result_scope.
Open Scope result_scope.

(** [for v in xs: acc = body(acc, v)], stopping at the first exception. *)
Fixpoint for_each {A S : Type} (body : S -> A -> result S) (xs : list A) (acc : S)
  : result S :=
  match xs with
  | [] => Ok acc
  | x :: xs' => let* acc' := body acc x in for_each body xs' acc'
  end.

(** ** Scalars: IEEE 754 binary64 *)

Module F64.

Abbreviation prec := 53%Z (only parsing).
Abbreviation emax := 1024%Z (only parsing).

Definition float : Type := spec_float.

Definition add : float -> float -> float := SFadd prec emax.
Definition sub : float -> float -> float := SFsub prec emax.
Definition mul : float -> float -> float := SFmul prec emax.
Definition div : float -> float -> float := SFdiv prec emax.
Definition sqrt : float -> float := SFsqrt prec emax.

(** A Python [int] turned into a [float64]. *)
Definition of_Z (z : Z) : float := binary_normalize prec emax z 0 false.

Definition zero : float := S754_zero false.
Definition one : float := of_Z 1.
Definition half : float := SFldexp prec emax one (-1).
Definition nan : float := S754_nan.

Definition is_nan (x : float) : bool :=
  match x with S754_nan => true | _ => false end.

(** [x == y], [x < y] and [x >= y] on scalars; all false on [nan]. *)
Definition eqb : float -> float -> bool := SFeqb.
Definition ltb : float -> float -> bool := SFltb.
Definition geb (x y : float) : bool := SFleb y x.
Definition leb : float -> float -> bool := SFleb.

(** [np.maximum] and [np.minimum]: the first argument when it compares
    at least (at most) the second or is [nan], the second otherwise, so
    that a [nan] on either side is propagated. *)
Definition maximum (x y : float) : float :=
  if geb x y || is_nan x then x else y.
Definition minimum (x y : float) : float :=
  if leb x y || is_nan x then x else y.

(** [x.clip(lo)]: values below [lo] become [lo]; [nan] stays. *)
Definition clip_min (lo x : float) : float :=
  if ltb x lo then lo else x.

(** The signed integer [m * 2^e] of a finite float cut into its floor
    quotient and remainder by [2^(-e)], for [e < 0]. *)
Definition signed_mantissa (s : bool) (m : positive) : Z :=
  cond_Zopp s (Zpos m).

(** [np.ceil]. A negative input above [-1] gives [-0.0]. *)
Definition ceil (x : float) : float :=
  match x with
  | S754_finite s m e =>
      if (0 <=? e)%Z then x
      else
        let a := signed_mantissa s m in
        let b := (2 ^ (- e))%Z in
        binary_normalize prec emax (- ((- a) / b))%Z 0 s
  | _ => x
  end.

(** [np.round] with no decimals, which is [rint]: ties go to the even
    neighbour. *)
Definition rint (x : float) : float :=
  match x with
  | S754_finite s m e =>
      if (0 <=? e)%Z then x
      else
        let a := signed_mantissa s m in
        let b := (2 ^ (- e))%Z in
        let q := (a / b)%Z in
        let r := (a mod b)%Z in
        let z :=
          match (2 * r ?= b)%Z with
          | Lt => q
          | Gt => (q + 1)%Z
          | Eq => if Z.even q then q else (q + 1)%Z
          end in
        binary_normalize prec emax z 0 s
  | _ => x
  end.

(** [astype(int)]: the C conversion to a signed 64-bit integer, which
    truncates towards zero; [nan], the infinities and the values out of
    range give the most negative integer. *)
Definition int64_min : Z := (- 2 ^ 63)%Z.
Definition to_int (x : float) : Z :=
  match x with
  | S754_zero _ => 0%Z
  | S754_finite s m e =>
      let t :=
        if (0 <=? e)%Z then (signed_mantissa s m * 2 ^ e)%Z
        else Z.quot (signed_mantissa s m) (2 ^ (- e)) in
      if ((int64_min <=? t) && (t <? 2 ^ 63))%Z then t else int64_min
  | _ => int64_min
  end.

End F64.

Abbreviation float := F64.float.

(** ** Arrays *)

(** An [ndarray]: its shape and its buffer in row-major order. *)
Record ndarray : Type := mk_ndarray {
  shape : list nat;
  buffer : list float
}.

Definition ndim (a : ndarray) : nat := length (shape a).

Definition size_of (sh : list nat) : nat := foldr Nat.mul 1 sh.

Definition well_formed (a : ndarray) : Prop :=
  length (buffer a) = size_of (shape a).

(** The first [n] consecutive blocks of [sz] elements of a buffer. *)
Fixpoint blocks {A : Type} (n sz : nat) (l : list A) : list (list A) :=
  match n with
  | 0 => []
  | S n' => take sz l :: blocks n' sz (drop sz l)
  end.

(** [X[:, k]]: needs two axes and [k] below the length of the second. *)
Definition column (X : ndarray) (k : nat) : result ndarray :=
  match shape X with
  | n0 :: n1 :: rest =>
      if k <? n1 then
        let inner := size_of rest in
        Ok (mk_ndarray (n0 :: rest)
              (concat (map (fun blk => take inner (drop (k * inner) blk))
                           (blocks n0 (n1 * inner) (buffer X)))))
      else Raise IndexError
  | _ => Raise IndexError
  end.

(** [X[i, j]] on a 2-dimensional array. *)
Definition item (X : ndarray) (i j : nat) : result float :=
  match shape X with
  | [n0; n1] =>
      if (i <? n0) && (j <? n1) then
        match buffer X !! (i * n1 + j) with
        | Some v => Ok v
        | None => Raise IndexError
        end
      else Raise IndexError
  | _ => Raise IndexError
  end.

(** Elementwise operations on arrays of one shape, and with a scalar. *)
Definition ew1 (f : float -> float) (a : ndarray) : ndarray :=
  mk_ndarray (shape a) (map f (buffer a)).

Definition ew2 (f : float -> float -> float) (a b : ndarray) : ndarray :=
  mk_ndarray (shape a) (zip_with f (buffer a) (buffer b)).

(** [np.stack([a, b], axis=-1)] for [a] and [b] of one shape. *)
Definition stack_last (a b : ndarray) : ndarray :=
  mk_ndarray (shape a ++ [2])
             (concat (zip_with (fun x y => [x; y]) (buffer a) (buffer b))).

(** The [n x 2] array with the given rows. *)
Definition of_rows (rows : list (float * float)) : ndarray :=
  mk_ndarray [length rows; 2] (concat (map (fun r => [r.1; r.2]) rows)).

(** The [m x n] array with the given rows, each of length [n]. *)
Definition of_matrix (n : nat) (rows : list (list float)) : ndarray :=
  mk_ndarray [length rows; n] (concat rows).

(** The uninitialised contents [np.empty] hands out: cell [k] of a fresh
    buffer holds [mem k]. *)
Definition raw : Type := nat -> float.

Definition np_empty (mem : raw) (sh : list nat) : ndarray :=
  mk_ndarray sh (map mem (seq 0 (size_of sh))).

(** [a[i, :] = row] on a 2-dimensional array, for a row of the width of
    [a]. *)
Definition set_row (a : ndarray) (i : nat) (row : list float) : ndarray :=
  match shape a with
  | [n0; n1] =>
      mk_ndarray (shape a)
        (take (i * n1) (buffer a) ++ row ++ drop (i * n1 + n1) (buffer a))
  | _ => a
  end.

(** ** Segment utilities *)

Definition str_c2b : string := "c2b".
Definition str_b2c : string := "b2c".
Definition str_d2b : string := "d2b".

(** [segment_format(X, mthd)]. The [ValueError] for a wrong number of
    dimensions is built by the source but never raised, so it has no
    effect; the value [None] is what a Python function returns when it
    falls off its end. *)
Definition segment_format (X : ndarray) (mthd : string)
  : result (option ndarray) :=
  let _unraised := if negb (ndim X =? 2) then Some ValueError else None in
  if String.eqb mthd str_c2b then
    let* X0 := column X 0 in
    let* X1 := column X 1 in
    let Xinit := ew1 F64.ceil (ew2 F64.sub X0 (ew1 (F64.mul F64.half) X1)) in
    let* X1' := column X 1 in
    let Xend := ew1 (fun v => F64.sub v F64.one) (ew2 F64.add Xinit X1') in
    Ok (Some (stack_last Xinit Xend))
  else if String.eqb mthd str_b2c then
    let* X0 := column X 0 in
    let* X1 := column X 1 in
    let Xc := ew1 F64.rint (ew1 (F64.mul F64.half) (ew2 F64.add X0 X1)) in
    let* X1' := column X 1 in
    let* X0' := column X 0 in
    let d := ew1 (fun v => F64.add v F64.one) (ew2 F64.sub X1' X0') in
    Ok (Some (stack_last Xc d))
  else if String.eqb mthd str_d2b then
    let* Xinit := column X 0 in
    let* X0 := column X 0 in
    let* X1 := column X 1 in
    let Xend := ew1 (fun v => F64.sub v F64.one) (ew2 F64.add X0 X1) in
    Ok (Some (stack_last Xinit Xend))
  else Ok None.

(** One row of the loop of [segment_iou]: the target segment
    [[t0, t1]] against every test segment, given by the columns [c0] and
    [c1] of the test batch. *)
Definition iou_row (t0 t1 : float) (c0 c1 : list float) : list float :=
  let tt1 := map (F64.maximum t0) c0 in
  let tt2 := map (F64.minimum t1) c1 in
  let intersection :=
    map (F64.clip_min F64.zero)
        (map (fun v => F64.add v F64.one) (zip_with F64.sub tt2 tt1)) in
  let test_size :=
    map (fun v => F64.add v F64.one) (zip_with F64.sub c1 c0) in
  let target_size := F64.add (F64.sub t1 t0) F64.one in
  let union :=
    zip_with F64.sub (map (fun v => F64.add v target_size) test_size)
             intersection in
  zip_with F64.div intersection union.

(** [segment_iou(target_segments, test_segments)]. *)
Definition segment_iou (mem : raw) (target_segments test_segments : ndarray)
  : result ndarray :=
  if negb (ndim target_segments =? 2) || negb (ndim test_segments =? 2)
  then Raise ValueError
  else
    let m := hd 0 (shape target_segments) in
    let n := hd 0 (shape test_segments) in
    let iou := np_empty mem [m; n] in
    for_each
      (fun iou i =>
         let* t0 := item target_segments i 0 in
         let* c0 := column test_segments 0 in
         let* t1 := item target_segments i 1 in
         let* c1 := column test_segments 1 in
         Ok (set_row iou i (iou_row t0 t1 (buffer c0) (buffer c1))))
      (seq 0 m) iou.

(** ** Arrays in the store *)

(** The Python heap: arrays by address. Reading an address goes through
    the total lookup, and a caller only holds addresses of live arrays. *)
Abbreviation addr := nat (only parsing).
Abbreviation store := (gmap nat ndarray) (only parsing).

#[global] Instance ndarray_inhabited : Inhabited ndarray :=
  populate (mk_ndarray [] []).

(** Computations over the store that may raise; the store a raising
    computation leaves behind is kept, as a mutation made before the
    exception stays made. *)
Definition M (A : Type) : Type := store -> result A * store.

Definition mret {A : Type} (a : A) : M A := fun st => (Ok a, st).
Definition mraise {A : Type} (e : exn) : M A := fun st => (Raise e, st).
Definition mbind {A B : Type} (c : M A) (k : A -> M B) : M B :=
  fun st =>
    match c st with
    | (Ok a, st') => k a st'
    | (Raise e, st') => (Raise e, st')
    end.
Definition lift {A : Type} (r : result A) : M A := fun st => (r, st).
Definition load (p : addr) : M ndarray := fun st => (Ok (st !!! p), st).
Definition save (p : addr) (a : ndarray) : M unit :=
  fun st => (Ok tt, <[p := a]> st).
Definition alloc (a : ndarray) : M addr :=
  fun st => let p := fresh (dom st) in (Ok p, <[p := a]> st).

Declare Scope store_scope.
Delimit Scope store_scope with store.
Notation "'do*' x ':=' c 'in' k" := (mbind c (fun x => k))
  (at level 10, x pattern, c at level 100, k at level 200) : store_scope.

(** [Y[:, k] = f(row index, Y[:, k])] written through to the buffer of a
    2-dimensional [Y]. *)
Definition map_column (f : nat -> float -> float) (k : nat) (a : ndarray)
  : result ndarray :=
  match shape a with
  | n0 :: n1 :: rest =>
      if k <? n1 then
        let inner := size_of rest in
        Ok (mk_ndarray (shape a)
              (imap (fun p v =>
                       if (p / inner) mod n1 =? k
                       then f (p / (n1 * inner)) v else v)
                    (buffer a)))
      else Raise IndexError
  | _ => Raise IndexError
  end.

(** [Y[:, k] op= ...] on the array at address [Y]. *)
Definition update_column (Y : addr) (f : nat -> float -> float) (k : nat)
  : M unit :=
  (do* y := load Y in
   do* y' := lift (map_column f k y) in
   save Y y')%store.

(** [segment_unit_scaling(X, T, init, copy)]; [init], when given, is a
    1-dimensional array. *)
Definition segment_unit_scaling (X : addr) (T : Z) (init : option (list float))
    (copy : bool) : M addr :=
  (do* x := load X in
   if negb (ndim x =? 2) then mraise ValueError
   else
     do* Y := (if copy then alloc x else mret X) in
     do* _ :=
       match init with
       | Some v =>
           do* y := load Y in
           if negb (length v =? hd 0 (shape y)) then mraise ValueError
           else update_column Y (fun i a => F64.sub a (default a (v !! i))) 0
       | None => mret tt
       end in
     do* _ := update_column Y (fun _ a => F64.div a (F64.of_Z (T - 1))) 0 in
     do* _ := update_column Y (fun _ a => F64.div a (F64.of_Z T)) 1 in
     mret Y)%store.

(** ** Pooling *)

Definition lower_ascii (c : ascii) : ascii :=
  let n := nat_of_ascii c in
  if (65 <=? n) && (n <=? 90) then ascii_of_nat (n + 32) else c.

(** [str.lower()]. *)
Fixpoint lower (s : string) : string :=
  match s with
  | EmptyString => EmptyString
  | String c s' => String (lower_ascii c) (lower s')
  end.

Definition str_mean : string := "mean".
Definition str_max : string := "max".

(** [np.cumsum] of a 1-dimensional array. *)
Fixpoint cumsum_from (acc : float) (l : list float) : list float :=
  match l with
  | [] => []
  | x :: l' => let s := F64.add acc x in s :: cumsum_from s l'
  end.

Definition cumsum (l : list float) : list float :=
  match l with
  | [] => []
  | x :: l' => x :: cumsum_from x l'
  end.

(** The [n + 1] region boundaries over [m] rows:
    [np.round(np.cumsum(edges) * m).astype(int)] for
    [edges = np.ones(n + 1, dtype=int) * 1.0 / n] with [edges[0] = 0]. *)
Definition region_edges (n m : nat) : list Z :=
  let w := F64.div (F64.mul F64.one F64.one) (F64.of_Z (Z.of_nat n)) in
  let edges := <[0 := F64.zero]> (replicate (S n) w) in
  map (fun e => F64.to_int (F64.rint (F64.mul e (F64.of_Z (Z.of_nat m)))))
      (cumsum edges).

(** A bound of a Python slice over [len] items: a negative bound counts
    from the end, and every bound is clamped to the sequence. *)
Definition slice_bound (len : nat) (i : Z) : nat :=
  if (i <? 0)%Z then Z.to_nat (Z.max 0 (i + Z.of_nat len))
  else Nat.min len (Z.to_nat i).

(** [l[a:b]]. *)
Definition slice {A : Type} (l : list A) (a b : Z) : list A :=
  let a' := slice_bound (length l) a in
  let b' := slice_bound (length l) b in
  take (b' - a') (drop a' l).

(** [.sum()] of a 1-dimensional array, accumulated from [0.0]. *)
Definition sum (v : list float) : float := fold_left F64.add v F64.zero.

(** [rows.mean(axis=0)] for rows of width [d]: the column sums divided by
    the number of rows, which for no row at all is [0.0 / 0]. *)
Definition mean_axis0 (d : nat) (rows : list (list float)) : list float :=
  map (fun s => F64.div s (F64.of_Z (Z.of_nat (length rows))))
      (fold_left (zip_with F64.add) rows (replicate d F64.zero)).

(** [rows.max(axis=0)]: numpy refuses to reduce over no row. *)
Definition max_axis0 (rows : list (list float)) : result (list float) :=
  match rows with
  | [] => Raise ValueError
  | r :: rs => Ok (fold_left (zip_with F64.maximum) rs r)
  end.

(** The pooled vector of a region, by pooling kind. *)
Definition pool_region (pool_type : string) (d : nat) (rows : list (list float))
  : result (list float) :=
  if String.eqb pool_type str_mean then Ok (mean_axis0 d rows)
  else if String.eqb pool_type str_max then max_axis0 rows
  else Raise ValueError.

(** The L2 normalisation of a pooled region; a zero norm counts as 1. *)
Definition l2_normalize (v : list float) : list float :=
  let feat_norm := F64.sqrt (sum (map (fun a => F64.mul a a) v)) in
  let feat_norm := if F64.eqb feat_norm F64.zero then F64.one else feat_norm in
  map (fun a => F64.div a feat_norm) v.

(** [edges[j]]. *)
Definition edge (edges : list Z) (j : nat) : result Z :=
  match edges !! j with
  | Some e => Ok e
  | None => Raise IndexError
  end.

(** The body shared by the two pooling functions: pool the rows
    [edges[j] : edges[j + 1]] of [x], normalise on request and write the
    vector to [arr[idx]]. *)
Definition pool_into (rows : list (list float)) (d : nat) (pool_type : string)
    (norm : bool) (edges : list Z) (j : nat) (arr : list (list float))
    (idx : nat) : result (list (list float)) :=
  let* a := edge edges j in
  let* b := edge edges (S j) in
  let* v := pool_region pool_type d (slice rows a b) in
  if idx <? length arr then
    let v := if norm then l2_normalize v else v in
    Ok (<[idx := v]> arr)
  else Raise IndexError.

(** [np.hstack] of 1-dimensional arrays; it needs at least one. *)
Definition hstack (arr : list (list float)) : result (list float) :=
  match arr with
  | [] => Raise ValueError
  | _ => Ok (concat arr)
  end.

(** [m, d = x.shape]. *)
Definition shape2 (x : ndarray) : result (nat * nat) :=
  match shape x with
  | [m; d] => Ok (m, d)
  | _ => Raise ValueError
  end.

(** [feature_1dpyramid(x, levels, pool_type, norm, unit)]. *)
Definition feature_1dpyramid (mem : raw) (x : ndarray) (levels : nat)
    (pool_type : string) (norm unit : bool) : result (list float) :=
  let* (m, d) := shape2 x in
  let rows := blocks m d (buffer x) in
  let arr := replicate (2 ^ (levels + 1) - 1) (buffer (np_empty mem [d])) in
  let pool_type := lower pool_type in
  let* (arr, _) :=
    for_each
      (fun '(arr, idx) i =>
         let n := 2 ^ i in
         let edges := region_edges n m in
         for_each
           (fun '(arr, idx) j =>
              let* arr := pool_into rows d pool_type norm edges j arr idx in
              Ok (arr, S idx))
           (seq 0 n) (arr, idx))
      (seq 0 (levels + 1)) (arr, 0) in
  let* pyr_feat := hstack arr in
  if unit then
    Ok (map (fun a =>
               F64.div a (F64.of_Z (Z.of_nat (2 ^ (levels + 1) - 1))))
            pyr_feat)
  else Ok pyr_feat.

(** [feature_1dconcat(x, n, pool_type, norm, unit)]. *)
Definition feature_1dconcat (mem : raw) (x : ndarray) (n : nat)
    (pool_type : string) (norm unit : bool) : result (list float) :=
  let* (m, d) := shape2 x in
  let rows := blocks m d (buffer x) in
  let arr := replicate n (buffer (np_empty mem [d])) in
  let pool_type := lower pool_type in
  let edges := region_edges n m in
  let* arr :=
    for_each
      (fun arr j => pool_into rows d pool_type norm edges j arr j)
      (seq 0 n) arr in
  let* concat_feat := hstack arr in
  if unit then
    Ok (map (fun a => F64.div a (F64.of_Z (Z.of_nat n))) concat_feat)
  else Ok concat_feat.

(** ** Feature dumps *)

(** A file system: the contents of the files that exist, by path. *)
Abbreviation files := (gmap string (list byte)) (only parsing).

(** The unsigned value of a little-endian group of bytes, the native
    order of the machines the dumps are written on. *)
Definition word_le (bs : list byte) : Z :=
  foldr (fun b acc => (Z.of_N (Byte.to_N b) + 256 * acc)%Z) 0%Z bs.

(** A C [int] (type code ['i']) from its 32 bits. *)
Definition int32_of_word (w : Z) : Z :=
  if (w <? 2 ^ 31)%Z then w else (w - 2 ^ 32)%Z.

(** A C [float] (type code ['f']) from its 32 bits. *)
Definition float32_of_word (w : Z) : float :=
  let s := Z.testbit w 31 in
  let e := Z.land (Z.shiftr w 23) 255 in
  let f := Z.land w (2 ^ 23 - 1) in
  if (e =? 0)%Z then
    match f with
    | Zpos p => S754_finite s p (-149)
    | _ => S754_zero s
    end
  else if (e =? 255)%Z then
    if (f =? 0)%Z then S754_infinity s else S754_nan
  else S754_finite s (Z.to_pos (f + 2 ^ 23)) (e - 150).

(** [array.fromfile(f, n)] for 4-byte items on the unread part of a
    file: the items and the rest of the file. Nothing is read for
    [n <= 0]; too few bytes raise [EOFError]. *)
Definition fromfile {A : Type} (decode : Z -> A) (stream : list byte) (n : Z)
  : result (list A * list byte) :=
  if (0 <? n)%Z then
    if (4 * n <=? Z.of_nat (length stream))%Z then
      let k := Z.to_nat n in
      Ok (map (fun b => decode (word_le b)) (blocks k 4 stream),
          drop (4 * k) stream)
    else Raise EOFError
  else Ok ([], stream).

(** The value of a signed 64-bit integer after overflow. *)
Definition wrap64 (z : Z) : Z := ((z + 2 ^ 63) mod 2 ^ 64 - 2 ^ 63)%Z.

(** [np.cumprod] of an [int32] array: the products are taken in the
    platform integer, 64 bits wide. *)
Fixpoint cumprod_from (acc : Z) (l : list Z) : list Z :=
  match l with
  | [] => []
  | x :: l' => let p := wrap64 (acc * x) in p :: cumprod_from p l'
  end.

Definition cumprod (l : list Z) : list Z :=
  match l with
  | [] => []
  | x :: l' => x :: cumprod_from x l'
  end.

(** [a[-1]]. *)
Definition last_item (l : list Z) : result Z :=
  match last l with
  | Some z => Ok z
  | None => Raise IndexError
  end.

(** [c3d_read_feature(filename)]: the shape header and the values of a
    dump. *)
Definition c3d_read_feature (fs : files) (filename : string)
  : result (list Z * list float) :=
  match fs !! filename with
  | None => Raise IOError
  | Some f =>
      let* (s, f) := fromfile int32_of_word f 5 in
      let* m := last_item (cumprod s) in
      let* (d, _) := fromfile float32_of_word f m in
      Ok (s, d)
  end.

(** A [float32] stored into a [float64] array; the value is kept. *)
Definition to_float64 (v : float) : float :=
  match v with
  | S754_finite s m e => binary_round F64.prec F64.emax s m e
  | _ => v
  end.

(** [arr[i, ...] = data] for a 1-dimensional [data]: it must have the
    width of [arr], or hold the one value every cell of the row gets. *)
Definition assign_row (arr : ndarray) (i : nat) (data : list float)
  : result ndarray :=
  match shape arr with
  | [n0; n1] =>
      if i <? n0 then
        if length data =? n1 then Ok (set_row arr i (map to_float64 data))
        else
          match data with
          | [v] => Ok (set_row arr i (replicate n1 (to_float64 v)))
          | _ => Raise ValueError
          end
      else Raise IndexError
  | _ => Raise IndexError
  end.

(** [c3d_stack_feature] from the sorted list of dumps on, when neither
    pooling nor saving is asked for: the matrix the function returns. *)
Definition c3d_stack_feature (mem : raw) (fs : files)
    (sorted_files : list string) : result ndarray :=
  match sorted_files with
  | [] => Raise IndexError
  | f0 :: rest =>
      let* (s, data) := c3d_read_feature fs f0 in
      let* d := last_item (cumprod s) in
      if (d <? 0)%Z then Raise ValueError
      else
        let arr := np_empty mem [length sorted_files; Z.to_nat d] in
        let* arr := assign_row arr 0 data in
        for_each
          (fun arr iv =>
             let* (_, data) := c3d_read_feature fs iv.2 in
             assign_row arr iv.1 data)
          (imap pair rest) arr
  end.

(** ** Notions used to state the properties *)

(** The segments of an [n x 2] batch, row by row. *)
Definition segments (X : ndarray) : list (float * float) :=
  map (fun blk => (default F64.zero (blk !! 0), default F64.zero (blk !! 1)))
      (blocks (hd 0 (shape X)) 2 (buffer X)).

(** A segment batch: an array of shape [[n, 2]] with a buffer of that
    size. *)
Definition segment_batch (X : ndarray) : Prop :=
  shape X = [hd 0 (shape X); 2] /\ well_formed X.

(** The overlap, the size and the union of segments, and the ratio of
    overlap to union, for one target segment [t] and one test segment
    [s], both given by their bounds. *)
Definition overlap (t s : float * float) : float :=
  F64.clip_min F64.zero
    (F64.add (F64.sub (F64.minimum t.2 s.2) (F64.maximum t.1 s.1)) F64.one).

Definition segment_size (s : float * float) : float :=
  F64.add (F64.sub s.2 s.1) F64.one.

Definition union (t s : float * float) : float :=
  F64.sub (F64.add (segment_size s) (segment_size t)) (overlap t s).

Definition iou_entry (t s : float * float) : float :=
  F64.div (overlap t s) (union t s).

(** [a.T] for a 2-dimensional array. *)
Definition transpose (a : ndarray) : ndarray :=
  match shape a with
  | [r; c] =>
      mk_ndarray [c; r]
        (concat (map (fun j =>
                        map (fun row => default F64.zero (row !! j))
                            (blocks r c (buffer a)))
                     (seq 0 c)))
  | _ => a
  end.

Definition is_zero (x : float) : bool :=
  match x with S754_zero _ => true | _ => false end.

(** Equal, or both a zero, of whatever sign. *)
Definition same_value (x y : float) : Prop :=
  x = y \/ (is_zero x = true /\ is_zero y = true).

(** ** Sample data *)

(** A buffer source with [0.0] in every cell. *)
Definition zeros_mem : raw := fun _ => F64.zero.

(** The degenerate segment [[5, 4]], of size 0. *)
Definition empty_segment : float * float := (F64.of_Z 5, F64.of_Z 4).

(** A 3-dimensional array of shape [[1, 2, 1]]. *)
Definition rank3_sample : ndarray :=
  mk_ndarray [1; 2; 1] [F64.of_Z 5; F64.of_Z 3].

(** A store with one [1 x 2] batch, [[4, 8]], at address 0. *)
Definition sample_store : gmap nat ndarray :=
  <[0 := of_rows [(F64.of_Z 4, F64.of_Z 8)]]> ∅.

(** A row of the batch after [segment_unit_scaling] with duration [T]
    and no reference offset. *)
Definition scaled_row (T : Z) (r : float * float) : float * float :=
  (F64.div r.1 (F64.of_Z (T - 1)), F64.div r.2 (F64.of_Z T)).

(** The items a run of bytes holds, four bytes each: [n] C [int]s and
    [n] C [float]s. *)
Definition decode_ints (n : nat) (bs : list byte) : list Z :=
  map (fun b => int32_of_word (word_le b)) (blocks n 4 bs).

Definition decode_floats (n : nat) (bs : list byte) : list float :=
  map (fun b => float32_of_word (word_le b)) (blocks n 4 bs).

(** The product of the entries of a shape header. *)
Definition product (l : list Z) : Z := foldr Z.mul 1%Z l.

(** A dump with header [[1, 1, 1, 1, 4]] and values
    [[1.0, 2.0, 3.0, 4.0]], and one with the values
    [[4.0, 2.0, 3.0, 1.0]]. *)
Definition header_1114 : list byte :=
  [x01; x00; x00; x00; x01; x00; x00; x00; x01; x00; x00; x00;
   x01; x00; x00; x00; x04; x00; x00; x00]%byte.

Definition values_1234 : list byte :=
  [x00; x00; x80; x3f; x00; x00; x00; x40;
   x00; x00; x40; x40; x00; x00; x80; x40]%byte.

Definition values_4231 : list byte :=
  [x00; x00; x80; x40; x00; x00; x00; x40;
   x00; x00; x40; x40; x00; x00; x80; x3f]%byte.

Definition sample_files : gmap string (list byte) :=
  <["clip/1.fc7-1"%string := header_1114 ++ values_1234]>
    (<["clip/2.fc7-1"%string := header_1114 ++ values_4231]> ∅).

(** ** Floats that hold integers *)

(** The float of value [k * 2^e], rounded if it has to be. *)
Definition dyadic (k e : Z) : float :=
  binary_normalize F64.prec F64.emax k e false.

(** The normal form of the float of sign [s] and magnitude [z * 2^e],
    for [0 < z < 2^53]: the mantissa is [z] shifted to 53 bits. *)
Definition canonic (s : bool) (z e : Z) : float :=
  let d := (Z.log2 z + 1)%Z in
  S754_finite s (Z.to_pos (z * 2 ^ (F64.prec - d))) (e + d - F64.prec).

(** [k / 2] rounded to an integer, ties to even. *)
Definition half_even (k : Z) : Z :=
  let q := (k / 2)%Z in
  if (k mod 2 =? 0)%Z then q else if Z.even q then q else (q + 1)%Z.

(** [k / 2] rounded up to an integer. *)
Definition half_up (k : Z) : Z := (- ((- k) / 2))%Z.

(** A single global pool over the whole input, in the words of the
    specification: all the rows pooled as one region, normalised on
    request, and scaled on request by the number of regions, which is
    one. *)
Definition global_pool (x : ndarray) (pool_type : string) (norm unit : bool)
  : result (list float) :=
  let* (m, d) := shape2 x in
  let* v := pool_region (lower pool_type) d (blocks m d (buffer x)) in
  let v := if norm then l2_normalize v else v in
  Ok (if unit then map (fun a => F64.div a (F64.of_Z 1)) v else v).

(** ** Conversions, row by row *)

(** [c2b] and [b2c] on one row, as [segment_format] computes them. *)
Definition c2b_row (r : float * float) : float * float :=
  let xinit := F64.ceil (F64.sub r.1 (F64.mul F64.half r.2)) in
  (xinit, F64.sub (F64.add xinit r.2) F64.one).

Definition b2c_row (r : float * float) : float * float :=
  (F64.rint (F64.mul F64.half (F64.add r.1 r.2)),
   F64.add (F64.sub r.2 r.1) F64.one).

(** The batch of the integer rows [(center, duration)]. *)
Definition int_batch (rows : list (Z * Z)) : ndarray :=
  of_rows (map (fun r => (F64.of_Z r.1, F64.of_Z r.2)) rows).

(** The center that comes back from the round trip: the center itself,
    but for an even duration and an odd center, where the tie of
    [np.round] goes to the even neighbour below. *)
Definition recovered_center (c d : Z) : Z :=
  if Z.odd d || Z.even c then c else (c - 1)%Z.

(** Entries that are exact as floats with room for the sums of the
    conversion. *)
Definition in_range (r : Z * Z) : Prop :=
  (Z.abs r.1 <= 2 ^ 50 /\ 1 <= r.2 <= 2 ^ 50)%Z.

(** A float that is the integer [s], whatever the sign of its zero. *)
Definition holds (x : float) (s : Z) : Prop :=
  x = F64.of_Z s \/ (s = 0%Z /\ x = S754_zero true).

(** A [1 x 1] feature matrix, [[3.0]]. *)
Definition one_row : ndarray := of_matrix 1 [[F64.of_Z 3]].

(** The vector written for the rows [a : b]: their pool, normalised on
    request. *)
Definition region_vector (rows : list (list float)) (d : nat) (norm : bool)
    (a b : Z) : list float :=
  let v := mean_axis0 d (slice rows a b) in
  if norm then l2_normalize v else v.

(** ** String utilities *)

(** [l[k]] on a list of integers. *)
Definition list_item (l : list nat) (k : nat) : result nat :=
  match l !! k with
  | Some v => Ok v
  | None => Raise IndexError
  end.

(** The body of the inner loop of [levenshtein_distance], for the
    character [c1] of [s1] and the pair [(j, c2)] of the enumeration of
    [s2]: one more cell of [current_row]. *)
Definition levenshtein_cell (c1 : ascii) (previous_row current_row : list nat)
    (jc : nat * ascii) : result (list nat) :=
  let* a := list_item previous_row (jc.1 + 1) in
  let insertions := a + 1 in
  let* b := list_item current_row jc.1 in
  let deletions := b + 1 in
  let* c := list_item previous_row jc.1 in
  let substitutions := c + (if Ascii.eqb c1 jc.2 then 0 else 1) in
  Ok (current_row ++ [Nat.min (Nat.min insertions deletions) substitutions]).

(** [levenshtein_distance] from the test on [len(s2)] on, that is for
    [len(s1) >= len(s2)]. *)
Definition levenshtein_rows (s1 s2 : list ascii) : result nat :=
  if length s2 =? 0 then Ok (length s1)
  else
    let previous_row := seq 0 (length s2 + 1) in
    let* previous_row :=
      for_each
        (fun previous_row ic =>
           let current_row := [ic.1 + 1] in
           for_each (levenshtein_cell ic.2 previous_row) (imap pair s2)
                    current_row)
        (imap pair s1) previous_row in
    list_item previous_row (length previous_row - 1).

(** [levenshtein_distance(s1, s2)]. The recursive call swaps the
    arguments when [s1] is the shorter string, and the call it makes
    does not swap again. *)
Definition levenshtein_distance (s1 s2 : list ascii) : result nat :=
  if length s1 <? length s2 then levenshtein_rows s2 s1
  else levenshtein_rows s1 s2.

(** The edit distance by its recurrence on the first characters: drop a
    character of [s], insert one of [t], or substitute when they
    differ. *)
Fixpoint lev (s t : list ascii) : nat :=
  match s with
  | [] => length t
  | a :: s' =>
      (fix against (t : list ascii) : nat :=
         match t with
         | [] => length s
         | b :: t' =>
             Nat.min (Nat.min (lev s' t + 1) (against t' + 1))
                     (lev s' t' + (if Ascii.eqb a b then 0 else 1))
         end) t
  end.

(** [c1 != c2] as an integer. *)
Definition differ (a b : ascii) : nat := if Ascii.eqb a b then 0 else 1.

(** The row of distances from a prefix [p] of [s1] to every prefix of
    [s2]. *)
Definition lev_row (p s2 : list ascii) : list nat :=
  map (fun j => lev p (take j s2)) (seq 0 (length s2 + 1)).

(** ** Segment intersection *)

(** [np.zeros(sh)]. *)
Definition np_zeros (sh : list nat) : ndarray :=
  mk_ndarray sh (replicate (size_of sh) F64.zero).

(** [a[i, :, k] = v] on a 3-dimensional array, for a [v] of the length
    of the second axis of [a]. *)
Definition set_lane (a : ndarray) (i k : nat) (v : list float) : ndarray :=
  match shape a with
  | [n0; n1; n2] =>
      let sz := n1 * n2 in
      mk_ndarray (shape a)
        (take (i * sz) (buffer a)
         ++ concat (zip_with (fun cell x => <[k := x]> cell)
                      (blocks n1 n2 (drop (i * sz) (buffer a))) v)
         ++ drop (i * sz + sz) (buffer a))
  | _ => a
  end.

(** [segment_intersection(target_segments, test_segments,
    return_ratio_target)]: the array of intersections and, when asked
    for, the array of ratios; [ratio_target] is bound exactly when the
    flag is set. *)
Definition segment_intersection (target_segments test_segments : ndarray)
    (return_ratio_target : bool) : result (ndarray * option ndarray) :=
  if negb (ndim target_segments =? 2) || negb (ndim test_segments =? 2)
  then Raise ValueError
  else
    let m := hd 0 (shape target_segments) in
    let n := hd 0 (shape test_segments) in
    let ratio_target :=
      if return_ratio_target then Some (np_zeros [m; n]) else None in
    let intersect := np_zeros [m; n; 2] in
    for_each
      (fun st i =>
         let intersect := st.1 in
         let ratio_target := st.2 in
         let* t1 := item target_segments i 1 in
         let* t0 := item target_segments i 0 in
         let target_size := F64.add (F64.sub t1 t0) F64.one in
         let* t0 := item target_segments i 0 in
         let* c0 := column test_segments 0 in
         let tt1 := map (F64.maximum t0) (buffer c0) in
         let* t1 := item target_segments i 1 in
         let* c1 := column test_segments 1 in
         let tt2 := map (F64.minimum t1) (buffer c1) in
         let intersect := set_lane (set_lane intersect i 0 tt1) i 1 tt2 in
         match ratio_target with
         | Some ratio =>
             let isegs_size :=
               map (F64.clip_min F64.zero)
                   (map (fun v => F64.add v F64.one) (zip_with F64.sub tt2 tt1)) in
             Ok (intersect,
                 Some (set_row ratio i
                         (map (fun v => F64.div v target_size) isegs_size)))
         | None => Ok (intersect, None)
         end)
      (seq 0 m) (intersect, ratio_target).

(** The [m x n x 2] array with the given pairs, row by row. *)
Definition of_pairs (n : nat) (rows : list (list (float * float))) : ndarray :=
  mk_ndarray [length rows; n; 2]
    (concat (map (fun row => concat (map (fun p => [p.1; p.2]) row)) rows)).

(** The bounds of the intersection of a target segment [t] and a test
    segment [s], and the ratio of their overlap to the size of [t]. *)
Definition common_bounds (t s : float * float) : float * float :=
  (F64.maximum t.1 s.1, F64.minimum t.2 s.2).

Definition ratio_entry (t s : float * float) : float :=
  F64.div (overlap t s) (segment_size t).

(** The ratio of overlap to union of a target segment [t] and a test
    segment [s], from the bounds [p] of their intersection. *)
Definition iou_of_bounds (t s p : float * float) : float :=
  let ov := F64.clip_min F64.zero (F64.add (F64.sub p.2 p.1) F64.one) in
  F64.div ov (F64.sub (F64.add (segment_size s) (segment_size t)) ov).

(** Two segments, [[1, 4]] and [[3, 11]]. *)
Definition seg_1_4 : float * float := (F64.of_Z 1, F64.of_Z 4).
Definition seg_3_11 : float * float := (F64.of_Z 3, F64.of_Z 11).

(** ** Unit scaling, row by row *)

(** The center of row [i] once the reference [init], when given, is
    taken off. *)
Definition shifted_center (init : option (list float)) (i : nat) (c : float)
  : float :=
  match init with
  | Some v => F64.sub c (default c (v !! i))
  | None => c
  end.

(** Row [i] of the batch after [segment_unit_scaling] with duration [T]
    and reference [init]. *)
Definition unit_row (T : Z) (init : option (list float)) (i : nat)
    (r : float * float) : float * float :=
  (F64.div (shifted_center init i r.1) (F64.of_Z (T - 1)),
   F64.div r.2 (F64.of_Z T)).

(** A reference, when given, has one entry per row. *)
Definition fits (init : option (list float)) (n : nat) : Prop :=
  match init with
  | Some v => length v = n
  | None => True
  end.

Definition is_finite (x : float) : bool :=
  match x with
  | S754_zero _ | S754_finite _ _ _ => true
  | _ => false
  end.

(** ** Bounds, row by row *)

(** [d2b] on one row, as [segment_format] computes it. *)
Definition d2b_row (r : float * float) : float * float :=
  (r.1, F64.sub (F64.add r.1 r.2) F64.one).

(** Integer bounds [(first, last)] that are exact as floats with room
    for the sums of the conversion. *)
Definition bounds_in_range (r : Z * Z) : Prop :=
  (Z.abs r.1 <= 2 ^ 48 /\ Z.abs r.2 <= 2 ^ 48 /\ r.1 <= r.2)%Z.

(** The first frame that comes back from the round trip of the bounds
    [(a, b)] through [(center, duration)]: [a] itself, but when
    [a + b] is 1 modulo 4, where the tie of [np.round] puts the center
    half a frame lower. *)
Definition returned_start (a b : Z) : Z :=
  if ((a + b) mod 4 =? 1)%Z then (a - 1)%Z else a.

(** ** Pooled vectors, region by region *)

(** The vector the pooling loops write for region [j]: the pool of the
    rows [edges[j] : edges[j + 1]], normalised on request. *)
Definition pool_vector (rows : list (list float)) (d : nat) (pool_type : string)
    (norm : bool) (edges : list Z) (j : nat) : result (list float) :=
  let* a := edge edges j in
  let* b := edge edges (S j) in
  let* v := pool_region pool_type d (slice rows a b) in
  Ok (if norm then l2_normalize v else v).

(** The results of [f] along a list, up to the first exception. *)
Fixpoint collect {A B : Type} (f : A -> result B) (l : list A) : result (list B) :=
  match l with
  | [] => Ok []
  | a :: l' =>
      let* b := f a in
      let* bs := collect f l' in
      Ok (b :: bs)
  end.

(** The vectors of the [n] regions over [m] rows, in order, and those of
    level [i] of a pyramid, which has [2 ^ i] regions. *)
Definition chunk_vectors (rows : list (list float)) (d : nat) (pool_type : string)
    (norm : bool) (m n : nat) : result (list (list float)) :=
  collect (pool_vector rows d pool_type norm (region_edges n m)) (seq 0 n).

Definition level_vectors (rows : list (list float)) (d : nat) (pool_type : string)
    (norm : bool) (m i : nat) : result (list (list float)) :=
  chunk_vectors rows d pool_type norm m (2 ^ i).

(** The vectors of all the levels [0 .. levels] of a pyramid. *)
Definition pyramid_vectors (rows : list (list float)) (d : nat)
    (pool_type : string) (norm : bool) (m levels : nat)
  : result (list (list float)) :=
  let* vss := collect (level_vectors rows d pool_type norm m) (seq 0 (levels + 1)) in
  Ok (concat vss).

(** The final scaling of the pooling functions. *)
Definition unit_scale (unit : bool) (k : nat) (v : list float) : list float :=
  if unit then map (fun a => F64.div a (F64.of_Z (Z.of_nat k))) v else v.

(** ** Region edges as integers *)

(** [k / 2^i] rounded to an integer, ties to even. *)
Definition round_shift (k i : Z) : Z :=
  let q := (k / 2 ^ i)%Z in
  let r := (k mod 2 ^ i)%Z in
  match (2 * r ?= 2 ^ i)%Z with
  | Lt => q
  | Gt => (q + 1)%Z
  | Eq => if Z.even q then q else (q + 1)%Z
  end.

(** The rows of the successive regions cut at the edges [es]. *)
Definition regions {A : Type} (rows : list A) (es : list Z) : list (list A) :=
  zip_with (slice rows) es (tail es).

(** * Properties *)

(** ** Lists and arrays *)

Lemma blocks_concat {A : Type} (n : nat) (rows : list (list A)) :
  Forall (fun r => length r = n) rows ->
  blocks (length rows) n (concat rows) = rows.
Proof.
  induction 1 as [|r rows Hr _ IH]; [reflexivity|].
  cbn [length blocks concat].
  rewrite take_app_length', drop_app_length' by (symmetry; exact Hr).
  now rewrite IH.
Qed.

Lemma pair_rows_width (rows : list (float * float)) :
  Forall (fun r => length r = 2) (map (fun r => [r.1; r.2]) rows).
Proof. induction rows; constructor; auto. Qed.

Lemma column_of_rows (rows : list (float * float)) (k : nat) :
  k < 2 ->
  column (of_rows rows) k =
  Ok (mk_ndarray [length rows] (map (fun r => if k =? 0 then r.1 else r.2) rows)).
Proof.
  intros Hk.
  unfold column, of_rows; cbn [shape buffer size_of foldr].
  replace (k <? 2) with true by (symmetry; apply Nat.ltb_lt; exact Hk).
  rewrite <- (length_map (fun r => [r.1; r.2]) rows) at 2.
  change (2 * 1) with 2.
  rewrite blocks_concat by apply pair_rows_width.
  do 2 f_equal.
  induction rows as [|r rows IH]; [reflexivity|].
  cbn [map concat]. rewrite IH.
  destruct k as [|[|k]]; [reflexivity|reflexivity|lia].
Qed.

Lemma lookup_pair_rows (rows : list (float * float)) (i : nat) (r : float * float) :
  rows !! i = Some r ->
  concat (map (fun r => [r.1; r.2]) rows) !! (i * 2) = Some r.1 /\
  concat (map (fun r => [r.1; r.2]) rows) !! (i * 2 + 1) = Some r.2.
Proof.
  revert i. induction rows as [|r0 rows IH]; intros i Hi; [discriminate|].
  destruct i as [|i]; cbn in Hi.
  - inversion Hi; subst. split; reflexivity.
  - destruct (IH i Hi) as [H1 H2]. split.
    + exact H1.
    + exact H2.
Qed.

Lemma item_of_rows (rows : list (float * float)) (i : nat) (r : float * float) :
  rows !! i = Some r ->
  item (of_rows rows) i 0 = Ok r.1 /\ item (of_rows rows) i 1 = Ok r.2.
Proof.
  intros Hi. pose proof (lookup_lt_Some _ _ _ Hi) as Hlt.
  destruct (lookup_pair_rows rows i r Hi) as [H1 H2].
  unfold item, of_rows; cbn [shape buffer].
  replace (i <? length rows) with true by (symmetry; apply Nat.ltb_lt; exact Hlt).
  cbn [andb Nat.ltb Nat.leb]. rewrite Nat.add_0_r, H1, H2. split; reflexivity.
Qed.

Lemma blocks_length {A : Type} (n sz : nat) (l : list A) :
  length (blocks n sz l) = n.
Proof. revert l; induction n; intros l; cbn; [reflexivity|now rewrite IHn]. Qed.

Lemma blocks_width {A : Type} (n sz : nat) (l : list A) :
  length l = n * sz -> Forall (fun r => length r = sz) (blocks n sz l).
Proof.
  revert l; induction n as [|n IH]; intros l Hl; cbn; constructor.
  - rewrite length_take. lia.
  - apply IH. rewrite length_drop. lia.
Qed.

Lemma concat_blocks {A : Type} (n sz : nat) (l : list A) :
  length l = n * sz -> concat (blocks n sz l) = l.
Proof.
  revert l; induction n as [|n IH]; intros l Hl; cbn.
  - destruct l; [reflexivity|discriminate].
  - rewrite IH by (rewrite length_drop; lia). apply take_drop.
Qed.

Lemma segments_of_rows (rows : list (float * float)) :
  segments (of_rows rows) = rows.
Proof.
  unfold segments, of_rows; cbn [shape buffer hd].
  rewrite <- (length_map (fun r => [r.1; r.2]) rows).
  rewrite blocks_concat by apply pair_rows_width.
  rewrite map_map. induction rows as [|[a b] rows IH]; [reflexivity|].
  cbn [map]. f_equal. exact IH.
Qed.

Lemma of_rows_segments (X : ndarray) :
  segment_batch X -> X = of_rows (segments X).
Proof.
  destruct X as [sh buf]. unfold segment_batch, well_formed, segments, of_rows.
  cbn [shape buffer]. intros [Hsh Hbuf].
  set (n := hd 0 sh) in *. rewrite Hsh in Hbuf. cbn in Hbuf.
  rewrite length_map, blocks_length, <- Hsh. f_equal.
  rewrite map_map.
  assert (Hw : Forall (fun r => length r = 2) (blocks n 2 buf))
    by (apply blocks_width; lia).
  rewrite <- (concat_blocks n 2 buf) at 1 by lia.
  f_equal. induction Hw as [|r rs Hr _ IH]; [reflexivity|].
  cbn [map]. rewrite <- IH. f_equal.
  destruct r as [|a [|b [|c r]]]; try discriminate. reflexivity.
Qed.

(** ** Format conversion *)

(** C10. For a 2-dimensional input and a mode other than ['c2b'],
    ['b2c'] and ['d2b'], [segment_format] raises nothing and converts
    nothing: it returns [None]. *)
Theorem segment_format_unknown_mode (X : ndarray) (mthd : string) :
  ndim X = 2 ->
  mthd <> str_c2b -> mthd <> str_b2c -> mthd <> str_d2b ->
  segment_format X mthd = Ok None.
Proof.
  intros _ Hc Hb Hd. unfold segment_format.
  apply String.eqb_neq in Hc, Hb, Hd. now rewrite Hc, Hb, Hd.
Qed.

Lemma segment_format_unknown_mode_witness :
  segment_format (of_rows [empty_segment]) "frames" = Ok None.
Proof.
  apply segment_format_unknown_mode; [reflexivity|discriminate..].
Defined.

(** C3. The source builds the [ValueError] for a wrong number of
    dimensions without raising it: on the 3-dimensional [rank3_sample]
    the conversion ['c2b'] returns an array, of shape [[1, 1, 2]]. *)
Theorem segment_format_rank3_returns :
  ndim rank3_sample = 3 /\
  segment_format rank3_sample str_c2b =
  Ok (Some (mk_ndarray [1; 1; 2] [F64.of_Z 4; F64.of_Z 6])).
Proof. split; vm_compute; reflexivity. Qed.

(** ** Intersection over union *)

Lemma iou_row_entries (t : float * float) (S : list (float * float)) :
  iou_row t.1 t.2 (map fst S) (map snd S) = map (iou_entry t) S.
Proof.
  unfold iou_row. induction S as [|s S IH]; [reflexivity|].
  cbn [map zip_with]. f_equal. exact IH.
Qed.

Lemma set_row_next (n : nat) (done : list (list float)) (row rest : list float)
    (m : nat) :
  Forall (fun r => length r = n) done -> length row = n ->
  set_row (mk_ndarray [m; n] (concat done ++ rest)) (length done) row
  = mk_ndarray [m; n] (concat (done ++ [row]) ++ drop n rest).
Proof.
  intros Hdone Hrow. unfold set_row; cbn [shape buffer]. f_equal.
  assert (Hlen : length (concat done) = length done * n).
  { induction Hdone as [|r rs Hr _ IH]; [reflexivity|].
    cbn [concat length]. rewrite length_app, IH, Hr. lia. }
  rewrite take_app_length' by (symmetry; exact Hlen).
  rewrite drop_app_ge by lia.
  replace (length done * n + n - length (concat done)) with n by lia.
  rewrite concat_app. cbn [concat]. rewrite app_nil_r, <- app_assoc. reflexivity.
Qed.

Lemma segment_iou_loop (T S : list (float * float)) :
  forall (todo done : list (float * float)) (rest : list float),
    T = done ++ todo ->
    for_each
      (fun iou i =>
         let* t0 := item (of_rows T) i 0 in
         let* c0 := column (of_rows S) 0 in
         let* t1 := item (of_rows T) i 1 in
         let* c1 := column (of_rows S) 1 in
         Ok (set_row iou i (iou_row t0 t1 (buffer c0) (buffer c1))))
      (seq (length done) (length todo))
      (mk_ndarray [length T; length S]
         (concat (map (fun t => map (iou_entry t) S) done) ++ rest))
    = Ok (mk_ndarray [length T; length S]
            (concat (map (fun t => map (iou_entry t) S) T)
               ++ drop (length todo * length S) rest)).
Proof.
  set (body := fun (iou : ndarray) (i : nat) => _).
  induction todo as [|t todo IH]; intros done rest HT.
  - rewrite app_nil_r in HT. subst done. reflexivity.
  - cbn [length seq for_each].
    assert (Ht : T !! length done = Some t)
      by (rewrite HT; apply list_lookup_middle; reflexivity).
    destruct (item_of_rows T _ _ Ht) as [H0 H1].
    unfold body at 1.
    rewrite H0, H1, !column_of_rows by lia. cbn [rbind buffer Nat.eqb].
    rewrite iou_row_entries.
    pose proof (set_row_next (length S) (map (fun t => map (iou_entry t) S) done)
                  (map (iou_entry t) S) rest (length T)) as Hset.
    rewrite !length_map in Hset. rewrite Hset; clear Hset.
    + specialize (IH (done ++ [t]) (drop (length S) rest)).
      rewrite map_app, length_app in IH. cbn [map length] in IH.
      replace (length done + 1) with (Datatypes.S (length done)) in IH by lia.
      rewrite IH by (rewrite <- app_assoc; exact HT).
      rewrite drop_drop. reflexivity.
    + apply List.Forall_map, List.Forall_forall. intros r _. apply length_map.
    + reflexivity.
Qed.

Lemma segment_iou_of_rows (mem : raw) (T S : list (float * float)) :
  segment_iou mem (of_rows T) (of_rows S)
  = Ok (of_matrix (length S) (map (fun t => map (iou_entry t) S) T)).
Proof.
  pose proof (segment_iou_loop T S T []
                (buffer (np_empty mem [length T; length S])) eq_refl) as H.
  cbn [length map concat app seq] in H.
  unfold segment_iou.
  change (ndim (of_rows T)) with 2. change (ndim (of_rows S)) with 2.
  change (hd 0 (shape (of_rows T))) with (length T).
  change (hd 0 (shape (of_rows S))) with (length S).
  cbn [Nat.eqb negb orb].
  etransitivity; [exact H|].
  unfold of_matrix. rewrite length_map. do 2 f_equal.
  rewrite drop_ge; [apply app_nil_r|].
  unfold np_empty; cbn [buffer size_of foldr]. rewrite length_map, length_seq. lia.
Qed.

(** *** Scalar facts *)

Lemma add_comm (x y : float) : F64.add x y = F64.add y x.
Proof.
  destruct x as [[]|[]| |sx mx ex], y as [[]|[]| |sy my ey]; try reflexivity.
  unfold F64.add, SFadd. now rewrite Z.min_comm, Z.add_comm.
Qed.

Lemma SFcompare_swap (x y : float) :
  SFcompare y x = option_map CompOpp (SFcompare x y).
Proof.
  destruct x as [[]|[]| |[] mx ex], y as [[]|[]| |[] my ey]; try reflexivity;
    cbn [SFcompare option_map]; rewrite (Z.compare_antisym ex ey);
    destruct (ex ?= ey)%Z; cbn [CompOpp]; try reflexivity;
    change (PosDef.Pos.compare_cont Eq my mx) with (Pos.compare_cont (CompOpp Eq) my mx);
    rewrite <- (Pos.compare_cont_antisym mx my Eq);
    try rewrite CompOpp_involutive; reflexivity.
Qed.

Lemma SFcompare_Eq (x y : float) :
  SFcompare x y = Some Eq -> same_value x y.
Proof.
  destruct x as [[]|[]| |[] mx ex], y as [[]|[]| |[] my ey];
    cbn [SFcompare]; intros H; try discriminate;
    try (left; reflexivity); try (right; split; reflexivity).
  - destruct (ex ?= ey)%Z eqn:E; try discriminate.
    apply Z.compare_eq in E. injection H as H.
    apply (f_equal CompOpp) in H. rewrite CompOpp_involutive in H. cbn in H.
    apply Pos.compare_eq in H. left; congruence.
  - destruct (ex ?= ey)%Z eqn:E; try discriminate.
    apply Z.compare_eq in E. injection H as H.
    apply Pos.compare_eq in H. left; congruence.
Qed.

(** Case analysis on the classes and signs of two floats, for goals
    that each case settles by computation. *)
Ltac by_float_cases x y :=
  destruct x as [[]|[]| |[] ? ?], y as [[]|[]| |[] ? ?];
  try reflexivity; try discriminate.

Lemma maximum_swap (x y : float) : same_value (F64.maximum x y) (F64.maximum y x).
Proof.
  unfold F64.maximum, F64.geb, SFleb.
  rewrite (SFcompare_swap y x).
  destruct (SFcompare y x) as [c|] eqn:E; cbn [option_map].
  - assert (Hx : F64.is_nan x = false)
      by (by_float_cases x y).
    assert (Hy : F64.is_nan y = false)
      by (by_float_cases x y).
    rewrite Hx, Hy.
    destruct c; cbn [CompOpp orb]; try (left; reflexivity).
    apply SFcompare_Eq in E. destruct E as [->|[? ?]]; [left|right]; auto.
  - cbn [orb]. destruct x as [[]|[]| |[] ? ?], y as [[]|[]| |[] ? ?];
      try discriminate; left; reflexivity.
Qed.

Lemma minimum_swap (x y : float) : same_value (F64.minimum x y) (F64.minimum y x).
Proof.
  unfold F64.minimum, F64.leb, SFleb.
  rewrite (SFcompare_swap y x).
  destruct (SFcompare y x) as [c|] eqn:E; cbn [option_map].
  - assert (Hx : F64.is_nan x = false)
      by (by_float_cases x y).
    assert (Hy : F64.is_nan y = false)
      by (by_float_cases x y).
    rewrite Hx, Hy.
    destruct c; cbn [CompOpp orb]; try (left; reflexivity).
    apply SFcompare_Eq in E. destruct E as [->|[? ?]]; [left|right]; auto.
  - cbn [orb]. destruct x as [[]|[]| |[] ? ?], y as [[]|[]| |[] ? ?];
      try discriminate; left; reflexivity.
Qed.

Lemma sub_add_one_same (hi hi' lo lo' : float) :
  same_value hi hi' -> same_value lo lo' ->
  F64.add (F64.sub hi lo) F64.one = F64.add (F64.sub hi' lo') F64.one.
Proof.
  intros [->|[Hh Hh']] [->|[Hl Hl']]; [reflexivity| | |].
  - destruct lo as [[]| | |]; try discriminate; destruct lo' as [[]| | |]; try discriminate;
      destruct hi' as [[]|[]| |[] m e]; reflexivity.
  - destruct hi as [[]| | |]; try discriminate; destruct hi' as [[]| | |]; try discriminate;
      destruct lo' as [[]|[]| |[] m e]; reflexivity.
  - destruct lo as [[]| | |]; try discriminate; destruct lo' as [[]| | |]; try discriminate;
      destruct hi as [[]| | |]; try discriminate; destruct hi' as [[]| | |]; try discriminate;
      reflexivity.
Qed.

Lemma overlap_swap (t s : float * float) : overlap t s = overlap s t.
Proof.
  unfold overlap. f_equal.
  apply sub_add_one_same; [apply minimum_swap|apply maximum_swap].
Qed.

Lemma iou_entry_swap (t s : float * float) : iou_entry t s = iou_entry s t.
Proof.
  unfold iou_entry, union.
  now rewrite (overlap_swap t s), (add_comm (segment_size s) (segment_size t)).
Qed.

Lemma map_seq_lookup {A B : Type} (F : A -> B) (G : nat -> B) (l : list A) :
  (forall j a, l !! j = Some a -> G j = F a) ->
  map G (seq 0 (length l)) = map F l.
Proof.
  revert G. induction l as [|a l IH]; intros G HG; [reflexivity|].
  cbn [length seq map]. rewrite (HG 0 a eq_refl). f_equal.
  rewrite <- seq_shift, map_map. apply IH.
  intros j b Hj. apply (HG (Datatypes.S j) b Hj).
Qed.

Lemma transpose_of_matrix {A B : Type} (g : B -> A -> float)
    (la : list A) (lb : list B) :
  transpose (of_matrix (length la) (map (fun b => map (g b) la) lb))
  = of_matrix (length lb) (map (fun a => map (fun b => g b a) lb) la).
Proof.
  unfold transpose, of_matrix; cbn [shape buffer].
  rewrite blocks_concat
    by (apply List.Forall_map, List.Forall_forall; intros; apply length_map).
  rewrite !length_map. f_equal. f_equal.
  apply map_seq_lookup. intros j a Hj.
  rewrite map_map. apply map_ext. intros b.
  change (map (g b) la) with (g b <$> la).
  now rewrite list_lookup_fmap, Hj.
Qed.

(** C8. For segment batches [A] and [B], [iou(A, B)] is the transpose
    of [iou(B, A)]: both calls return, and the two matrices agree entry
    by entry, [nan] entries included. *)
Theorem segment_iou_transpose (mem mem' : raw) (A B : ndarray) :
  segment_batch A -> segment_batch B ->
  exists M M' : ndarray,
    segment_iou mem A B = Ok M /\
    segment_iou mem' B A = Ok M' /\
    M = transpose M'.
Proof.
  intros HA HB.
  rewrite (of_rows_segments A HA), (of_rows_segments B HB).
  set (la := segments A). set (lb := segments B).
  rewrite !segment_iou_of_rows. do 2 eexists. split; [reflexivity|].
  split; [reflexivity|].
  rewrite (transpose_of_matrix iou_entry la lb).
  f_equal. apply map_ext. intros a. apply map_ext. intros b.
  apply iou_entry_swap.
Qed.

Lemma segment_batch_of_rows (rows : list (float * float)) :
  segment_batch (of_rows rows).
Proof.
  split; [reflexivity|]. unfold well_formed, of_rows; cbn [shape buffer size_of foldr].
  induction rows as [|r rows IH]; [reflexivity|]. cbn [map concat length app] in *. lia.
Qed.

Lemma segment_iou_transpose_witness :
  exists M M' : ndarray,
    segment_iou zeros_mem (of_rows [empty_segment]) (of_rows [empty_segment; empty_segment]) = Ok M /\
    segment_iou zeros_mem (of_rows [empty_segment; empty_segment]) (of_rows [empty_segment]) = Ok M' /\
    M = transpose M'.
Proof.
  apply segment_iou_transpose; split; reflexivity.
Defined.

(** C2, as the source has it. For segment batches, [segment_iou] returns
    the [m x n] matrix whose entry [(i, j)] is the overlap
    [clip(hi - lo + 1, min=0)] of target [i] and test [j] divided by
    their union [test size + target size - overlap]; an overlap and a
    union that are both zero give [nan]. *)
Theorem segment_iou_entries (mem : raw) (target test : ndarray)
    (t s : float * float) :
  segment_batch target -> segment_batch test ->
  segment_iou mem target test
  = Ok (of_matrix (length (segments test))
          (map (fun t => map (iou_entry t) (segments test)) (segments target)))
  /\ (is_zero (overlap t s) = true -> is_zero (union t s) = true ->
      iou_entry t s = F64.nan).
Proof.
  intros HT HS. split.
  - rewrite (of_rows_segments target HT), (of_rows_segments test HS) at 1.
    apply segment_iou_of_rows.
  - unfold iou_entry. intros Ho Hu.
    destruct (overlap t s) as [[]| | |]; try discriminate;
      destruct (union t s) as [[]| | |]; try discriminate; reflexivity.
Qed.

Lemma segment_iou_entries_witness :
  segment_iou zeros_mem (of_rows [empty_segment]) (of_rows [empty_segment])
  = Ok (of_matrix 1 [[iou_entry empty_segment empty_segment]])
  /\ iou_entry empty_segment empty_segment = F64.nan.
Proof.
  assert (Hb : segment_batch (of_rows [empty_segment])) by (split; reflexivity).
  destruct (segment_iou_entries zeros_mem (of_rows [empty_segment])
              (of_rows [empty_segment]) empty_segment empty_segment Hb Hb)
    as [H1 H2].
  split.
  - rewrite segments_of_rows in H1. exact H1.
  - apply H2; reflexivity.
Defined.

(** C2, the counterexample. The degenerate segment [[5, 4]] against
    itself has overlap 0 and union 0, and [segment_iou] returns [nan]
    for the pair, not 0. *)
Lemma segment_iou_zero_union_nan :
  overlap empty_segment empty_segment = F64.zero /\
  union empty_segment empty_segment = F64.zero /\
  segment_iou zeros_mem (of_rows [empty_segment]) (of_rows [empty_segment])
  = Ok (mk_ndarray [1; 1] [F64.nan]) /\
  F64.eqb F64.nan F64.zero = false.
Proof. repeat split; vm_compute; reflexivity. Qed.

(** ** Unit scaling *)

Lemma imap_pair_rows (g : nat -> float -> float) (h : nat -> float -> float)
    (rows : list (float * float)) :
  forall base,
  imap (fun p v =>
          if ((base * 2 + p) / 1) mod 2 =? 0
          then g ((base * 2 + p) / (2 * 1)) v
          else h ((base * 2 + p) / (2 * 1)) v)
       (concat (map (fun r => [r.1; r.2]) rows))
  = concat (map (fun r => [r.1; r.2])
              (imap (fun i r => (g (base + i) r.1, h (base + i) r.2)) rows)).
Proof.
  induction rows as [|r rows IH]; intros base; [reflexivity|].
  cbn [map concat app imap]. unfold compose. cbn beta.
  assert (H0 : ((base * 2 + 0) / 1) mod 2 = 0)
    by (rewrite Nat.div_1_r, Nat.add_0_r; apply Nat.Div0.mod_mul).
  assert (H0' : (base * 2 + 0) / (2 * 1) = base + 0)
    by (rewrite !Nat.add_0_r; apply Nat.div_mul; discriminate).
  assert (H1 : ((base * 2 + 1) / 1) mod 2 = 1)
    by (rewrite Nat.div_1_r, Nat.add_comm, Nat.Div0.mod_add; reflexivity).
  assert (H1' : (base * 2 + 1) / (2 * 1) = base + 0)
    by (rewrite Nat.add_0_r, Nat.add_comm, Nat.div_add by discriminate; reflexivity).
  rewrite H0, H0', H1, H1'. cbn [Nat.eqb fst snd]. do 2 f_equal.
  transitivity
    (concat (map (fun r => [r.1; r.2])
               (imap (fun i r => (g (Datatypes.S base + i) r.1,
                                  h (Datatypes.S base + i) r.2)) rows))).
  - rewrite <- (IH (Datatypes.S base)).
    apply imap_ext. intros p v _. cbn beta.
    replace (Datatypes.S base * 2 + p)
      with (base * 2 + Datatypes.S (Datatypes.S p)) by lia.
    reflexivity.
  - do 2 f_equal. apply imap_ext. intros i x _. cbn beta.
    replace (Datatypes.S base + i) with (base + Datatypes.S i) by lia.
    reflexivity.
Qed.

Lemma map_column_of_rows (g : nat -> float -> float) (k : nat)
    (rows : list (float * float)) :
  k < 2 ->
  map_column g k (of_rows rows)
  = Ok (of_rows (imap (fun i r => if k =? 0 then (g i r.1, r.2)
                                  else (r.1, g i r.2)) rows)).
Proof.
  intros Hk. unfold map_column, of_rows; cbn [shape buffer size_of foldr].
  replace (k <? 2) with true by (symmetry; apply Nat.ltb_lt; exact Hk).
  rewrite length_imap. do 2 f_equal.
  destruct k as [|[|k]]; [| |lia]; cbn [Nat.eqb].
  - etransitivity; [|exact (imap_pair_rows g (fun _ v => v) rows 0)].
    apply imap_ext. intros p v _. reflexivity.
  - etransitivity; [|exact (imap_pair_rows (fun _ v => v) g rows 0)].
    apply imap_ext. intros p v _. cbn beta. change (0 * 2 + p) with p.
    destruct ((p / 1) mod 2) as [|[|n]] eqn:E; cbn [Nat.eqb]; try reflexivity.
    exfalso. pose proof (Nat.mod_upper_bound (p / 1) 2). lia.
Qed.

Lemma update_column_frame (Y : nat) (f : nat -> float -> float) (k : nat)
    (st st' : gmap nat ndarray) (r : result unit) :
  update_column Y f k st = (r, st') ->
  (forall Z, Z <> Y -> st' !! Z = st !! Z) /\
  (forall Z, is_Some (st !! Z) -> is_Some (st' !! Z)).
Proof.
  unfold update_column, mbind, load, lift, save.
  destruct (map_column f k (st !!! Y)); intros H; inversion H; subst.
  - split.
    + intros Z HZ. apply lookup_insert_ne; congruence.
    + intros Z HZ. destruct (decide (Y = Z)) as [->|Hne].
      * rewrite lookup_insert_eq. eauto.
      * rewrite lookup_insert_ne by exact Hne. exact HZ.
  - split; auto.
Qed.

(** What the function does once [Y] is bound: it writes to [Y] only,
    frees nothing, and returns [Y] when it returns. *)
Lemma scaling_from_Y (Y : nat) (T : Z) (init : option (list float))
    (st st' : gmap nat ndarray) (r : result nat) :
  (do* _ :=
     match init with
     | Some v =>
         do* y := load Y in
         if negb (length v =? hd 0 (shape y)) then mraise ValueError
         else update_column Y (fun i a => F64.sub a (default a (v !! i))) 0
     | None => mret tt
     end in
   do* _ := update_column Y (fun _ a => F64.div a (F64.of_Z (T - 1))) 0 in
   do* _ := update_column Y (fun _ a => F64.div a (F64.of_Z T)) 1 in
   mret Y)%store st = (r, st') ->
  (forall Z, Z <> Y -> st' !! Z = st !! Z) /\
  (forall Z, is_Some (st !! Z) -> is_Some (st' !! Z)) /\
  (forall Y', r = Ok Y' -> Y' = Y).
Proof.
  unfold mbind at 1.
  set (c0 := match init with Some v => _ | None => _ end).
  assert (H0 : forall r0 st0, c0 st = (r0, st0) ->
                (forall Z, Z <> Y -> st0 !! Z = st !! Z) /\
                (forall Z, is_Some (st !! Z) -> is_Some (st0 !! Z))).
  { subst c0. destruct init as [v|]; intros r0 st0.
    - unfold mbind, load. destruct (negb _).
      + unfold mraise. intros H; inversion H; subst. auto.
      + apply update_column_frame.
    - unfold mret. intros H; inversion H; subst. auto. }
  destruct (c0 st) as [[[]|e] st0] eqn:E0;
    destruct (H0 _ _ eq_refl) as [F0 A0]; clear H0.
  2:{ intros H; inversion H; subst. repeat split; auto; discriminate. }
  unfold mbind at 1.
  destruct (update_column Y _ 0 st0) as [[[]|e] st1] eqn:E1;
    destruct (update_column_frame _ _ _ _ _ _ E1) as [F1 A1].
  2:{ intros H; inversion H; subst. repeat split; auto; try discriminate.
      intros Z HZ. rewrite F1, F0 by exact HZ. reflexivity. }
  unfold mbind at 1.
  destruct (update_column Y _ 1 st1) as [[[]|e] st2] eqn:E2;
    destruct (update_column_frame _ _ _ _ _ _ E2) as [F2 A2].
  2:{ intros H; inversion H; subst. repeat split; auto; try discriminate.
      intros Z HZ. rewrite F2, F1, F0 by exact HZ. reflexivity. }
  unfold mret. intros H; inversion H; subst. repeat split; auto; [|congruence].
  intros Z HZ. rewrite F2, F1, F0 by exact HZ. reflexivity.
Qed.

(** C5, as the source has it. The parameter [copy] defaults to [False]:
    the input array is left unchanged, and the result is a fresh array,
    only when [copy] is passed as true; otherwise the array returned is
    the input array itself, and for a segment batch it holds the
    rescaled segments when the call returns. *)
Theorem segment_unit_scaling_aliasing (st : gmap nat ndarray) (X : nat) (T : Z)
    (init : option (list float)) (x : ndarray) :
  st !! X = Some x ->
  (forall r st', segment_unit_scaling X T init true st = (r, st') ->
     st' !! X = Some x /\
     forall Y, r = Ok Y -> Y <> X /\ st !! Y = None /\ is_Some (st' !! Y))
  /\ (forall Y st', segment_unit_scaling X T init false st = (Ok Y, st') ->
        Y = X)
  /\ (forall rows, x = of_rows rows ->
        segment_unit_scaling X T None false st
        = (Ok X, <[X := of_rows (map (scaled_row T) rows)]> st)).
Proof.
  intros HX.
  assert (Hload : st !!! X = x) by (apply lookup_total_correct; exact HX).
  split; [|split].
  - intros r st'. unfold segment_unit_scaling.
    unfold mbind at 1, load at 1. rewrite Hload.
    destruct (negb (ndim x =? 2)).
    { unfold mraise. intros H; inversion H; subst. split; [exact HX|discriminate]. }
    unfold mbind at 1, alloc.
    set (p := fresh (dom st)).
    assert (Hp : p ∉ dom st) by apply is_fresh.
    assert (HpX : X <> p).
    { intros ->. apply Hp. apply elem_of_dom. eauto. }
    intros H. apply scaling_from_Y in H. destruct H as [Hframe [Halive Hret]].
    split.
    + rewrite Hframe by exact HpX. rewrite lookup_insert_ne by congruence. exact HX.
    + intros Y HY. apply Hret in HY. subst Y. split; [congruence|]. split.
      * apply not_elem_of_dom. exact Hp.
      * apply Halive. rewrite lookup_insert_eq. eauto.
  - intros Y st'. unfold segment_unit_scaling.
    unfold mbind at 1, load at 1. rewrite Hload.
    destruct (negb (ndim x =? 2)).
    { unfold mraise. intros H; inversion H. }
    unfold mbind at 1, mret at 1.
    intros H. apply scaling_from_Y in H. destruct H as [_ [_ Hret]]. now apply Hret.
  - intros rows ->. unfold segment_unit_scaling.
    unfold mbind at 1, load at 1. rewrite Hload.
    change (ndim (of_rows rows)) with 2. cbn [Nat.eqb negb].
    unfold mbind at 1, mret at 1. unfold mbind at 1, mret at 1.
    unfold mbind at 1, update_column at 1. unfold mbind at 1, load at 1.
    rewrite Hload. unfold mbind at 1, lift at 1.
    rewrite map_column_of_rows by lia. cbn [Nat.eqb]. unfold save at 1.
    unfold mbind at 1, update_column at 1. unfold mbind at 1, load at 1.
    rewrite lookup_total_insert_eq. unfold mbind at 1, lift at 1.
    rewrite map_column_of_rows by lia. cbn [Nat.eqb]. unfold save at 1, mret.
    rewrite insert_insert_eq. do 3 f_equal.
    unfold scaled_row. clear. induction rows as [|r rows IH] using rev_ind; [reflexivity|].
    rewrite !imap_app, map_app, IH. cbn [imap map fst snd]. reflexivity.
Qed.

Lemma segment_unit_scaling_aliasing_witness :
  sample_store !! 0 = Some (of_rows [(F64.of_Z 4, F64.of_Z 8)]) /\
  segment_unit_scaling 0 5 None false sample_store
  = (Ok 0,
     <[0 := of_rows (map (scaled_row 5) [(F64.of_Z 4, F64.of_Z 8)])]> sample_store).
Proof.
  assert (H : sample_store !! 0 = Some (of_rows [(F64.of_Z 4, F64.of_Z 8)]))
    by reflexivity.
  split; [exact H|].
  destruct (segment_unit_scaling_aliasing sample_store 0 5 None _ H) as [_ [_ Hin]].
  apply Hin. reflexivity.
Defined.

(** C5, the counterexample. A call that leaves [copy] at its default
    returns the address of its input, and the input, [[4, 8]] before the
    call, holds [[1, 1.6]] after it. *)
Lemma segment_unit_scaling_default_mutates :
  (segment_unit_scaling 0 5 None false sample_store).1 = Ok 0 /\
  sample_store !! 0 = Some (of_rows [(F64.of_Z 4, F64.of_Z 8)]) /\
  (segment_unit_scaling 0 5 None false sample_store).2 !! 0
  = Some (of_rows [(F64.of_Z 1, F64.div (F64.of_Z 8) (F64.of_Z 5))]) /\
  F64.eqb (F64.of_Z 4) (F64.of_Z 1) = false.
Proof. repeat split; vm_compute; reflexivity. Qed.

(** ** Feature dumps *)

Lemma blocks_app {A : Type} (n sz : nat) (l1 l2 : list A) :
  length l1 = n * sz -> blocks n sz (l1 ++ l2) = blocks n sz l1.
Proof.
  revert l1. induction n as [|n IH]; intros l1 Hl; [reflexivity|].
  cbn [blocks]. rewrite take_app_le, drop_app_le by lia. f_equal.
  apply IH. rewrite length_drop. lia.
Qed.

Lemma wrap64_small (z : Z) : (- 2 ^ 63 <= z < 2 ^ 63)%Z -> wrap64 z = z.
Proof. intros Hz. unfold wrap64. rewrite Z.mod_small by lia. lia. Qed.

Lemma wrap64_mul_l (x y : Z) : wrap64 (wrap64 x * y) = wrap64 (x * y).
Proof.
  unfold wrap64. f_equal.
  rewrite <- (Z.add_mod_idemp_l (_ * y)), <- (Z.add_mod_idemp_l (x * y)) by lia.
  f_equal. f_equal.
  rewrite <- Z.mul_mod_idemp_l by lia.
  rewrite <- (Zminus_mod_idemp_l ((x + 2 ^ 63) mod 2 ^ 64)).
  rewrite Z.mod_mod by lia. rewrite Zminus_mod_idemp_l.
  rewrite Z.mul_mod_idemp_l by lia. f_equal. lia.
Qed.

Lemma last_cumprod_from (l : list Z) :
  forall acc, l <> [] ->
  last (cumprod_from acc l) = Some (wrap64 (acc * product l)).
Proof.
  induction l as [|x l IH]; intros acc Hl; [congruence|].
  cbn [cumprod_from product foldr]. fold (product l).
  destruct l as [|y l].
  - cbn. now rewrite Z.mul_1_r.
  - change (last (?p :: cumprod_from ?q (y :: l)))
      with (last (cumprod_from q (y :: l))).
    rewrite IH by discriminate. now rewrite wrap64_mul_l, Z.mul_assoc.
Qed.

Lemma last_cumprod (x : Z) (l : list Z) :
  (- 2 ^ 63 <= x < 2 ^ 63)%Z ->
  last_item (cumprod (x :: l)) = Ok (wrap64 (product (x :: l))).
Proof.
  intros Hx. unfold last_item. cbn [cumprod].
  destruct l as [|y l].
  - cbn. rewrite Z.mul_1_r, wrap64_small by exact Hx. reflexivity.
  - change (last (x :: cumprod_from x (y :: l)))
      with (last (cumprod_from x (y :: l))).
    rewrite last_cumprod_from by discriminate. reflexivity.
Qed.

Lemma word_le_bound (bs : list byte) :
  (0 <= word_le bs < 256 ^ Z.of_nat (length bs))%Z.
Proof.
  induction bs as [|b bs IH]; [cbn; lia|].
  cbn [word_le foldr length]. fold (word_le bs).
  rewrite Nat2Z.inj_succ, Z.pow_succ_r by lia.
  pose proof (Byte.to_N_bounded b) as Hb.
  assert (0 <= Z.of_N (Byte.to_N b) <= 255)%Z by lia. lia.
Qed.

Lemma int32_of_block (bs : list byte) :
  length bs <= 4 ->
  (- 2 ^ 63 <= int32_of_word (word_le bs) < 2 ^ 63)%Z.
Proof.
  intros Hl. pose proof (word_le_bound bs) as [H0 H1].
  assert (256 ^ Z.of_nat (length bs) <= 256 ^ 4)%Z
    by (apply Z.pow_le_mono_r; lia).
  unfold int32_of_word. destruct (word_le bs <? 2 ^ 31)%Z; lia.
Qed.

(** C7. A file that holds exactly 5 C [int]s followed by exactly as
    many C [float]s as the product of the 5 is read as that shape and
    those values; the sample dump with header [[1, 1, 1, 1, 4]] and
    values [[1.0, 2.0, 3.0, 4.0]] gives shape [[1, 1, 1, 1, 4]] and
    values [[1, 2, 3, 4]]. The size of a file is below [2^63] bytes. *)
Theorem c3d_read_feature_exact (fs : gmap string (list byte))
    (filename : string) (header values : list byte) (n : nat) :
  fs !! filename = Some (header ++ values) ->
  length header = 20 ->
  length values = 4 * n ->
  product (decode_ints 5 header) = Z.of_nat n ->
  (Z.of_nat (length (header ++ values)) < 2 ^ 63)%Z ->
  c3d_read_feature fs filename
  = Ok (decode_ints 5 header, decode_floats n values)
  /\ exists vs,
       c3d_read_feature sample_files "clip/1.fc7-1" = Ok ([1; 1; 1; 1; 4]%Z, vs)
       /\ map to_float64 vs = map F64.of_Z [1; 2; 3; 4]%Z.
Proof.
  intros Hfs Hh Hv Hp Hsize. split.
  2:{ eexists. split; vm_compute; reflexivity. }
  unfold c3d_read_feature. rewrite Hfs.
  assert (Hlen : length (header ++ values) = 20 + 4 * n)
    by (rewrite length_app; lia).
  unfold fromfile at 1. cbn [Z.ltb Z.compare].
  replace (4 * 5 <=? Z.of_nat (length (header ++ values)))%Z with true
    by (symmetry; apply Z.leb_le; lia).
  change (Z.to_nat 5) with 5. change (4 * 5) with 20.
  rewrite blocks_app by (rewrite Hh; reflexivity).
  rewrite drop_app_length' by (symmetry; exact Hh).
  cbn [rbind]. fold (decode_ints 5 header).
  assert (Hm : last_item (cumprod (decode_ints 5 header)) = Ok (Z.of_nat n)).
  { unfold decode_ints in *. cbn [blocks map] in *.
    rewrite last_cumprod, Hp.
    - rewrite wrap64_small by lia. reflexivity.
    - apply int32_of_block. rewrite length_take. lia. }
  rewrite Hm. cbn [rbind]. unfold fromfile.
  destruct n as [|n].
  - cbn [Z.of_nat Z.ltb Z.compare rbind]. reflexivity.
  - replace (0 <? Z.of_nat (Datatypes.S n))%Z with true
      by (symmetry; apply Z.ltb_lt; lia).
    replace (4 * Z.of_nat (Datatypes.S n) <=? Z.of_nat (length values))%Z with true
      by (symmetry; apply Z.leb_le; lia).
    rewrite Nat2Z.id. cbn [rbind]. reflexivity.
Qed.

Lemma c3d_read_feature_exact_witness :
  c3d_read_feature sample_files "clip/1.fc7-1"
  = Ok (decode_ints 5 header_1114, decode_floats 4 values_1234)
  /\ exists vs,
       c3d_read_feature sample_files "clip/1.fc7-1" = Ok ([1; 1; 1; 1; 4]%Z, vs)
       /\ map to_float64 vs = map F64.of_Z [1; 2; 3; 4]%Z.
Proof.
  apply (c3d_read_feature_exact sample_files "clip/1.fc7-1"
           header_1114 values_1234 4); try reflexivity.
Defined.

(** C1. The loop over [sorted_files[1::]] numbers the remaining dumps
    from 0, so dump [i + 1] is written to row [i]: for the two sample
    dumps, row 0 of the matrix holds the values of the second dump,
    [[4, 2, 3, 1]], instead of those of the first, [[1, 2, 3, 4]], and
    row 1 is left as [np.empty] allocated it. *)
Theorem c3d_stack_feature_two_dumps (mem : raw) :
  (exists d1 d2,
     c3d_read_feature sample_files "clip/1.fc7-1" = Ok ([1; 1; 1; 1; 4]%Z, d1) /\
     c3d_read_feature sample_files "clip/2.fc7-1" = Ok ([1; 1; 1; 1; 4]%Z, d2) /\
     map to_float64 d1 = map F64.of_Z [1; 2; 3; 4]%Z /\
     map to_float64 d2 = map F64.of_Z [4; 2; 3; 1]%Z) /\
  c3d_stack_feature mem sample_files ["clip/1.fc7-1"; "clip/2.fc7-1"]%string
  = Ok (mk_ndarray [2; 4]
          (map F64.of_Z [4; 2; 3; 1]%Z ++ [mem 4; mem 5; mem 6; mem 7])).
Proof.
  split.
  - do 2 eexists. repeat split; vm_compute; reflexivity.
  - vm_compute. reflexivity.
Qed.

(** ** Exact arithmetic on small integers

    Integers and half-integers below [2^53] in magnitude are floats, and
    sums, differences and halvings that stay in that range are computed
    without rounding. *)

Section ExactArithmetic.
Local Open Scope Z_scope.

Lemma digits2_pos_size (p : positive) : digits2_pos p = Pos.size p.
Proof. induction p; cbn; congruence. Qed.

Lemma digits2_pos_log2 (p : positive) :
  Zpos (digits2_pos p) = (Z.log2 (Zpos p) + 1)%Z.
Proof. rewrite digits2_pos_size. destruct p; cbn; lia. Qed.

Lemma iter_xO_pow2 (m d : positive) :
  Zpos (Pos.iter xO m d) = (Zpos m * 2 ^ Zpos d)%Z.
Proof.
  revert m. induction d using Pos.peano_ind; intro m.
  - cbn. lia.
  - rewrite Pos.iter_succ, Pos2Z.inj_xO, IHd, Pos2Z.inj_succ, Z.pow_succ_r by lia.
    lia.
Qed.

Lemma shr_1_even (m : Z) :
  (0 <= m)%Z ->
  shr_1 {| shr_m := 2 * m; shr_r := false; shr_s := false |}
  = {| shr_m := m; shr_r := false; shr_s := false |}.
Proof. destruct m; try reflexivity; lia. Qed.

Lemma iter_shr_exact (p : positive) :
  forall m, (0 <= m)%Z ->
  SpecFloat.iter_pos shr_1 p {| shr_m := m * 2 ^ Zpos p; shr_r := false; shr_s := false |}
  = {| shr_m := m; shr_r := false; shr_s := false |}.
Proof.
  induction p as [p IH|p IH|]; intros m Hm; cbn [SpecFloat.iter_pos];
    try assert (0 < 2 ^ Zpos p)%Z by (apply Z.pow_pos_nonneg; lia).
  - replace (m * 2 ^ Zpos p~1)%Z with (2 * ((m * 2 ^ Zpos p) * 2 ^ Zpos p))%Z.
    + rewrite shr_1_even by nia. rewrite IH by nia. apply IH; lia.
    + replace (Zpos p~1) with (Zpos p + Zpos p + 1)%Z by lia.
      rewrite !Z.pow_add_r by lia. lia.
  - replace (m * 2 ^ Zpos p~0)%Z with ((m * 2 ^ Zpos p) * 2 ^ Zpos p)%Z.
    + rewrite IH by nia. apply IH; lia.
    + replace (Zpos p~0) with (Zpos p + Zpos p)%Z by lia.
      rewrite !Z.pow_add_r by lia. lia.
  - rewrite Z.pow_1_r, Z.mul_comm. apply shr_1_even; lia.
Qed.

Lemma Zdigits2_shifted (z j : Z) :
  (0 < z)%Z -> (0 <= j)%Z -> Zdigits2 (z * 2 ^ j) = (Z.log2 z + 1 + j)%Z.
Proof.
  intros Hz Hj.
  assert (0 < 2 ^ j)%Z by (apply Z.pow_pos_nonneg; lia).
  destruct (z * 2 ^ j)%Z eqn:E; try nia. cbn [Zdigits2].
  rewrite digits2_pos_log2, <- E, Z.log2_mul_pow2 by lia. lia.
Qed.

(** Rounding a mantissa [z * 2^j] whose low [j] bits are zero and whose
    high part [z] fits in 53 bits drops zero bits only. *)
Lemma binary_round_aux_exact (s : bool) (z j ex : Z) :
  (0 < z)%Z -> (Z.log2 z + 1 <= 53)%Z -> (0 <= j)%Z ->
  (53 <= Z.log2 z + 1 + j)%Z ->
  (-1074 <= ex + j + Z.log2 z + 1 - 53 <= 971)%Z ->
  binary_round_aux F64.prec F64.emax s (z * 2 ^ j) ex loc_Exact
  = canonic s z (ex + j).
Proof.
  intros Hz Hd Hj Hn He.
  remember (Z.log2 z + 1)%Z as d eqn:Ed.
  assert (Hpow : (0 < 2 ^ (53 - d))%Z) by (apply Z.pow_pos_nonneg; lia).
  unfold binary_round_aux, shr_fexp.
  rewrite Zdigits2_shifted, <- Ed by lia.
  unfold fexp, emin. cbn [shr_record_of_loc].
  replace (Z.max (d + j + ex - 53) (3 - 1024 - 53))%Z with (d + j + ex - 53)%Z by lia.
  replace (d + j + ex - 53 - ex)%Z with (d + j - 53)%Z by lia.
  assert (Hshr :
    shr {| shr_m := z * 2 ^ j; shr_r := false; shr_s := false |} ex (d + j - 53)
    = ({| shr_m := z * 2 ^ (53 - d); shr_r := false; shr_s := false |},
       (ex + (d + j - 53))%Z)).
  { unfold shr. destruct (d + j - 53)%Z as [|p|p] eqn:En; try lia.
    - replace j with (53 - d)%Z by lia. f_equal. lia.
    - f_equal. replace j with ((53 - d) + Zpos p)%Z by lia.
      rewrite Z.pow_add_r, Z.mul_assoc by lia.
      apply iter_shr_exact. nia. }
  rewrite Hshr. cbn [shr_m loc_of_shr_record round_nearest_even].
  rewrite Zdigits2_shifted, <- Ed by lia.
  replace (Z.max (d + (53 - d) + (ex + (d + j - 53)) - 53) (3 - 1024 - 53)
           - (ex + (d + j - 53)))%Z with 0%Z by lia.
  cbn [shr shr_m].
  unfold canonic. rewrite <- Ed.
  destruct (z * 2 ^ (53 - d))%Z eqn:E; try nia.
  replace (ex + (d + j - 53) <=? 1024 - 53)%Z with true
    by (symmetry; apply Z.leb_le; lia).
  cbn [Z.to_pos]. f_equal. lia.
Qed.

Lemma binary_round_exact (s : bool) (m : positive) (z j e : Z) :
  Zpos m = (z * 2 ^ j)%Z -> (0 < z)%Z -> (Z.log2 z + 1 <= 53)%Z -> (0 <= j)%Z ->
  (-1074 <= e + Z.log2 z + 1 - 53 <= 971)%Z ->
  binary_round F64.prec F64.emax s m (e - j) = canonic s z e.
Proof.
  intros Hm Hz Hd Hj He.
  remember (Z.log2 z + 1)%Z as d eqn:Ed.
  assert (Hdm : Zpos (digits2_pos m) = (d + j)%Z).
  { rewrite digits2_pos_log2, Hm, Z.log2_mul_pow2 by lia. lia. }
  unfold binary_round. rewrite Hdm. unfold fexp, emin.
  replace (Z.max (d + j + (e - j) - 53) (3 - 1024 - 53))%Z with (e + d - 53)%Z by lia.
  unfold shl_align.
  destruct (e + d - 53 - (e - j))%Z as [|p|p] eqn:En.
  - rewrite Hm. replace e with ((e - j) + j)%Z at 2 by lia.
    apply binary_round_aux_exact; lia.
  - rewrite Hm. replace e with ((e - j) + j)%Z at 2 by lia.
    apply binary_round_aux_exact; lia.
  - rewrite iter_xO_pow2, Hm.
    replace (z * 2 ^ j * 2 ^ Zpos p)%Z with (z * 2 ^ (j + Zpos p))%Z
      by (rewrite Z.pow_add_r by lia; lia).
    replace e with ((e + d - 53) + (j + Zpos p))%Z at 2 by lia.
    apply binary_round_aux_exact; lia.
Qed.

Lemma log2_digits (z : Z) :
  (0 < z < 2 ^ 53)%Z -> (1 <= Z.log2 z + 1 <= 53)%Z.
Proof.
  intros Hz. pose proof (Z.log2_nonneg z).
  assert (Z.log2 z < 53)%Z by (apply Z.log2_lt_pow2; lia). lia.
Qed.

Lemma dyadic_canonic (k e j : Z) :
  k <> 0%Z -> (Z.abs k < 2 ^ 53)%Z -> (0 <= j)%Z -> (-1000 <= e <= 900)%Z ->
  dyadic (k * 2 ^ j) (e - j) = canonic (k <? 0)%Z (Z.abs k) e.
Proof.
  intros Hk Hlt Hj He.
  assert (Hpow : (0 < 2 ^ j)%Z) by (apply Z.pow_pos_nonneg; lia).
  pose proof (log2_digits (Z.abs k) ltac:(lia)) as Hd.
  unfold dyadic, binary_normalize.
  destruct (k * 2 ^ j)%Z as [|m|m] eqn:E; [nia| |].
  - assert (0 < k)%Z by nia.
    replace (k <? 0)%Z with false by (symmetry; apply Z.ltb_ge; lia).
    rewrite Z.abs_eq in * by lia.
    apply binary_round_exact; lia.
  - assert (k < 0)%Z by nia.
    replace (k <? 0)%Z with true by (symmetry; apply Z.ltb_lt; lia).
    rewrite Z.abs_neq in * by lia.
    apply binary_round_exact; lia.
Qed.

Lemma dyadic_shift (k e j : Z) :
  (Z.abs k < 2 ^ 53)%Z -> (0 <= j)%Z -> (-1000 <= e <= 900)%Z ->
  dyadic (k * 2 ^ j) (e - j) = dyadic k e.
Proof.
  intros Hlt Hj He. destruct (Z.eq_dec k 0) as [->|Hk]; [reflexivity|].
  rewrite dyadic_canonic by assumption.
  rewrite <- (dyadic_canonic k e 0) by (assumption || lia).
  now rewrite Z.pow_0_r, Z.mul_1_r, Z.sub_0_r.
Qed.

Lemma dyadic_finite (k e : Z) :
  k <> 0%Z -> (Z.abs k < 2 ^ 53)%Z -> (-1000 <= e <= 900)%Z ->
  dyadic k e = canonic (k <? 0)%Z (Z.abs k) e.
Proof.
  intros Hk Hlt He. rewrite <- (dyadic_canonic k e 0) by (assumption || lia).
  now rewrite Z.pow_0_r, Z.mul_1_r, Z.sub_0_r.
Qed.

(** The mantissa of a normal form aligned to a smaller exponent, with
    its sign: the integer [k * 2^(e - ez)]. *)
Lemma aligned_mantissa (k e ez : Z) :
  k <> 0%Z -> (Z.abs k < 2 ^ 53)%Z ->
  (ez <= e + (Z.log2 (Z.abs k) + 1) - 53)%Z ->
  let d := (Z.log2 (Z.abs k) + 1)%Z in
  cond_Zopp (k <? 0)%Z
    (Zpos (fst (shl_align (Z.to_pos (Z.abs k * 2 ^ (53 - d))) (e + d - 53) ez)))
  = (k * 2 ^ (e - ez))%Z.
Proof.
  intros Hk Hlt Hez d.
  pose proof (log2_digits (Z.abs k) ltac:(lia)) as Hd. fold d in Hd, Hez.
  assert (Hpow : (0 < 2 ^ (53 - d))%Z) by (apply Z.pow_pos_nonneg; lia).
  assert (HM : Zpos (Z.to_pos (Z.abs k * 2 ^ (53 - d))) = (Z.abs k * 2 ^ (53 - d))%Z)
    by (apply Z2Pos.id; nia).
  assert (Hal : Zpos (fst (shl_align (Z.to_pos (Z.abs k * 2 ^ (53 - d))) (e + d - 53) ez))
                = (Z.abs k * 2 ^ (e - ez))%Z).
  { unfold shl_align. destruct (ez - (e + d - 53))%Z as [|p|p] eqn:En; try lia.
    - cbn [fst]. rewrite HM. do 2 f_equal. lia.
    - cbn [fst]. rewrite iter_xO_pow2, HM, <- Z.mul_assoc, <- Z.pow_add_r by lia.
      do 2 f_equal. lia. }
  rewrite Hal. unfold cond_Zopp.
  destruct (k <? 0)%Z eqn:Es.
  - apply Z.ltb_lt in Es. rewrite Z.abs_neq by lia. lia.
  - apply Z.ltb_ge in Es. rewrite Z.abs_eq by lia. lia.
Qed.

Lemma add_dyadic (a b e : Z) :
  (Z.abs a < 2 ^ 53)%Z -> (Z.abs b < 2 ^ 53)%Z -> (Z.abs (a + b) < 2 ^ 53)%Z ->
  (-900 <= e <= 900)%Z ->
  F64.add (dyadic a e) (dyadic b e) = dyadic (a + b) e.
Proof.
  intros Ha Hb Hab He.
  destruct (Z.eq_dec a 0) as [->|Ha0]; [|destruct (Z.eq_dec b 0) as [->|Hb0]].
  - destruct (Z.eq_dec b 0) as [->|Hb0]; [reflexivity|].
    rewrite Z.add_0_l, (dyadic_finite b) by (assumption || lia). reflexivity.
  - rewrite Z.add_0_r, (dyadic_finite a) by (assumption || lia). reflexivity.
  - rewrite (dyadic_finite a), (dyadic_finite b) by (assumption || lia).
    unfold canonic, F64.add, SFadd.
    pose proof (log2_digits (Z.abs a) ltac:(lia)) as Hda.
    pose proof (log2_digits (Z.abs b) ltac:(lia)) as Hdb.
    set (ez := Z.min _ _).
    rewrite (aligned_mantissa a e ez), (aligned_mantissa b e ez) by (assumption || lia).
    rewrite <- Z.mul_add_distr_r.
    replace ez with (e - (e - ez))%Z at 2 by lia.
    apply dyadic_shift; lia.
Qed.

Lemma sub_dyadic (a b e : Z) :
  (Z.abs a < 2 ^ 53)%Z -> (Z.abs b < 2 ^ 53)%Z -> (Z.abs (a - b) < 2 ^ 53)%Z ->
  (-900 <= e <= 900)%Z ->
  F64.sub (dyadic a e) (dyadic b e) = dyadic (a - b) e.
Proof.
  intros Ha Hb Hab He.
  destruct (Z.eq_dec a 0) as [->|Ha0]; [|destruct (Z.eq_dec b 0) as [->|Hb0]].
  - destruct (Z.eq_dec b 0) as [->|Hb0]; [reflexivity|].
    rewrite Z.sub_0_l, (dyadic_finite b), (dyadic_finite (- b)) by (assumption || lia).
    unfold canonic. rewrite Z.abs_opp. cbn [dyadic binary_normalize F64.sub SFsub].
    f_equal. destruct (b <? 0)%Z eqn:E1, (- b <? 0)%Z eqn:E2; try reflexivity; lia.
  - rewrite Z.sub_0_r, (dyadic_finite a) by (assumption || lia). reflexivity.
  - rewrite (dyadic_finite a), (dyadic_finite b) by (assumption || lia).
    unfold canonic, F64.sub, SFsub.
    pose proof (log2_digits (Z.abs a) ltac:(lia)) as Hda.
    pose proof (log2_digits (Z.abs b) ltac:(lia)) as Hdb.
    set (ez := Z.min _ _).
    rewrite (aligned_mantissa a e ez), (aligned_mantissa b e ez) by (assumption || lia).
    rewrite <- Z.mul_sub_distr_r.
    replace ez with (e - (e - ez))%Z at 2 by lia.
    apply dyadic_shift; lia.
Qed.

Lemma canonic_mantissa (z : Z) :
  0 < z < 2 ^ 53 ->
  Zpos (Z.to_pos (z * 2 ^ (53 - (Z.log2 z + 1)))) = z * 2 ^ (53 - (Z.log2 z + 1)).
Proof.
  intros Hz. pose proof (log2_digits z Hz).
  assert (0 < 2 ^ (53 - (Z.log2 z + 1))) by (apply Z.pow_pos_nonneg; lia).
  apply Z2Pos.id. nia.
Qed.

Lemma mul_pow2_dyadic (p a e : Z) :
  Z.abs a < 2 ^ 53 -> -400 <= p <= 400 -> -400 <= e <= 400 ->
  F64.mul (dyadic 1 p) (dyadic a e) = dyadic a (e + p).
Proof.
  intros Ha Hp He.
  rewrite (dyadic_finite 1 p) by lia.
  change (canonic (1 <? 0) (Z.abs 1) p)
    with (S754_finite false 4503599627370496 (p + 1 - 53)).
  destruct (Z.eq_dec a 0) as [->|Ha0]; [reflexivity|].
  rewrite (dyadic_finite a e), (dyadic_finite a (e + p)) by lia.
  pose proof (log2_digits (Z.abs a) ltac:(lia)) as Hd.
  unfold canonic at 1. unfold F64.mul, SFmul. cbn [xorb].
  rewrite Pos2Z.inj_mul, canonic_mantissa by lia.
  remember (Z.log2 (Z.abs a) + 1) as d eqn:Ed.
  replace (4503599627370496 * (Z.abs a * 2 ^ (53 - d)))
    with (Z.abs a * 2 ^ (105 - d)).
  - replace (e + p) with ((p + 1 - 53 + (e + d - 53)) + (105 - d)) by lia.
    apply binary_round_aux_exact; lia.
  - replace (105 - d) with (52 + (53 - d)) by lia.
    rewrite Z.pow_add_r by lia. change (2 ^ 52) with 4503599627370496. lia.
Qed.

Lemma canonic_split (s : bool) (z e : Z) :
  0 < z < 2 ^ 53 ->
  exists m e',
    canonic s z e = S754_finite s m e' /\ e' <= e /\
    Zpos m = z * 2 ^ (e - e').
Proof.
  intros Hz. pose proof (log2_digits z Hz) as Hd.
  eexists _, _. split; [reflexivity|]. split; [lia|].
  rewrite canonic_mantissa by lia. do 2 f_equal. lia.
Qed.

(** Floor division of [k * 2^j] by [2^(j + 1)], and the remainder. *)
Lemma div_shifted (k j : Z) :
  0 <= j ->
  (k * 2 ^ j) / 2 ^ (j + 1) = k / 2 /\
  (k * 2 ^ j) mod 2 ^ (j + 1) = (k mod 2) * 2 ^ j.
Proof.
  intros Hj. assert (0 < 2 ^ j) by (apply Z.pow_pos_nonneg; lia).
  rewrite Z.pow_add_r, Z.pow_1_r by lia. split.
  - rewrite (Z.mul_comm (2 ^ j) 2). apply Z.div_mul_cancel_r; lia.
  - rewrite (Z.mul_comm (2 ^ j) 2). apply Z.mul_mod_distr_r; lia.
Qed.

Lemma rint_dyadic_half (k : Z) :
  k <> 0 -> Z.abs k < 2 ^ 53 ->
  F64.rint (dyadic k (-1))
  = binary_normalize F64.prec F64.emax (half_even k) 0 (k <? 0).
Proof.
  intros Hk Hlt. rewrite dyadic_finite by lia.
  destruct (canonic_split (k <? 0) (Z.abs k) (-1) ltac:(lia))
    as (m & e' & -> & He' & Hm).
  assert (Hj : 0 <= -1 - e') by lia.
  unfold F64.rint. replace (0 <=? e') with false by (symmetry; apply Z.leb_gt; lia).
  unfold F64.signed_mantissa. rewrite Hm.
  assert (Hs : cond_Zopp (k <? 0) (Z.abs k * 2 ^ (-1 - e')) = k * 2 ^ (-1 - e')).
  { unfold cond_Zopp. destruct (k <? 0) eqn:E.
    - apply Z.ltb_lt in E. rewrite Z.abs_neq by lia. lia.
    - apply Z.ltb_ge in E. rewrite Z.abs_eq by lia. lia. }
  rewrite Hs. replace (- e') with ((-1 - e') + 1) by lia.
  destruct (div_shifted k (-1 - e') Hj) as [-> ->].
  assert (Hpow : 0 < 2 ^ (-1 - e')) by (apply Z.pow_pos_nonneg; lia).
  f_equal. unfold half_even.
  rewrite Z.pow_add_r, Z.pow_1_r by lia.
  pose proof (Z.mod_pos_bound k 2 ltac:(lia)) as Hr.
  destruct (k mod 2 =? 0) eqn:E.
  - apply Z.eqb_eq in E. rewrite E.
    replace (2 * (0 * 2 ^ (-1 - e')) ?= 2 ^ (-1 - e') * 2) with Lt; [reflexivity|].
    symmetry. apply Z.compare_lt_iff. lia.
  - apply Z.eqb_neq in E. replace (k mod 2) with 1 by lia.
    replace (2 * (1 * 2 ^ (-1 - e')) ?= 2 ^ (-1 - e') * 2) with Eq; [reflexivity|].
    symmetry. apply Z.compare_eq_iff. lia.
Qed.

Lemma ceil_dyadic_half (k : Z) :
  k <> 0 -> Z.abs k < 2 ^ 53 ->
  F64.ceil (dyadic k (-1))
  = binary_normalize F64.prec F64.emax (half_up k) 0 (k <? 0).
Proof.
  intros Hk Hlt. rewrite dyadic_finite by lia.
  destruct (canonic_split (k <? 0) (Z.abs k) (-1) ltac:(lia))
    as (m & e' & -> & He' & Hm).
  assert (Hj : 0 <= -1 - e') by lia.
  unfold F64.ceil. replace (0 <=? e') with false by (symmetry; apply Z.leb_gt; lia).
  unfold F64.signed_mantissa. rewrite Hm.
  assert (Hs : - cond_Zopp (k <? 0) (Z.abs k * 2 ^ (-1 - e')) = (- k) * 2 ^ (-1 - e')).
  { unfold cond_Zopp. destruct (k <? 0) eqn:E.
    - apply Z.ltb_lt in E. rewrite Z.abs_neq by lia. lia.
    - apply Z.ltb_ge in E. rewrite Z.abs_eq by lia. lia. }
  rewrite Hs. replace (- e') with ((-1 - e') + 1) by lia.
  destruct (div_shifted (- k) (-1 - e') Hj) as [-> _]. reflexivity.
Qed.

Lemma to_int_of_Z (m : Z) :
  0 <= m < 2 ^ 53 -> F64.to_int (F64.of_Z m) = m.
Proof.
  intros Hm. destruct (Z.eq_dec m 0) as [->|Hm0]; [reflexivity|].
  change (F64.of_Z m) with (dyadic m 0).
  rewrite dyadic_finite by lia. rewrite Z.abs_eq by lia.
  pose proof (log2_digits m ltac:(lia)) as Hd.
  unfold canonic, F64.to_int, F64.signed_mantissa.
  replace (m <? 0) with false by (symmetry; apply Z.ltb_ge; lia).
  cbn [cond_Zopp]. rewrite canonic_mantissa by lia.
  remember (Z.log2 m + 1) as d eqn:Ed.
  assert (Hpow : 0 < 2 ^ (53 - d)) by (apply Z.pow_pos_nonneg; lia).
  assert (Ht : (if 0 <=? 0 + d - 53 then m * 2 ^ (53 - d) * 2 ^ (0 + d - 53)
                else Z.quot (m * 2 ^ (53 - d)) (2 ^ (- (0 + d - 53)))) = m).
  { destruct (0 <=? 0 + d - 53) eqn:E.
    - apply Z.leb_le in E. replace d with 53 by lia. cbn. lia.
    - replace (- (0 + d - 53)) with (53 - d) by lia.
      apply Z.quot_mul. lia. }
  rewrite Ht. unfold F64.int64_min.
  replace ((- 2 ^ 63 <=? m) && (m <? 2 ^ 63))%bool with true; [reflexivity|].
  symmetry. apply andb_true_iff. split; [apply Z.leb_le|apply Z.ltb_lt]; lia.
Qed.

Lemma rint_of_Z (m : Z) :
  Z.abs m < 2 ^ 53 -> F64.rint (F64.of_Z m) = F64.of_Z m.
Proof.
  intros Hm. destruct (Z.eq_dec m 0) as [->|Hm0]; [reflexivity|].
  change (F64.of_Z m) with (dyadic m 0).
  rewrite dyadic_finite by lia.
  destruct (canonic_split (m <? 0) (Z.abs m) 0 ltac:(lia))
    as (mm & e' & Hc & He' & Hmm).
  rewrite Hc. unfold F64.rint.
  destruct (0 <=? e') eqn:E; [reflexivity|]. apply Z.leb_gt in E.
  unfold F64.signed_mantissa. rewrite Hmm.
  replace (0 - e') with (- e') by lia.
  assert (Hpow : 0 < 2 ^ (- e')) by (apply Z.pow_pos_nonneg; lia).
  assert (Hs : cond_Zopp (m <? 0) (Z.abs m * 2 ^ (- e')) = m * 2 ^ (- e')).
  { unfold cond_Zopp. destruct (m <? 0) eqn:Es.
    - apply Z.ltb_lt in Es. rewrite Z.abs_neq by lia. lia.
    - apply Z.ltb_ge in Es. rewrite Z.abs_eq by lia. lia. }
  rewrite Hs, Z.div_mul, Z.mod_mul by lia.
  replace (2 * 0 ?= 2 ^ (- e')) with Lt
    by (symmetry; apply Z.compare_lt_iff; lia).
  rewrite <- Hc, <- dyadic_finite by lia.
  unfold dyadic, binary_normalize. destruct m; try lia; reflexivity.
Qed.

Lemma of_Z_positive (m : Z) :
  0 < m < 2 ^ 53 -> exists mm e', F64.of_Z m = S754_finite false mm e'.
Proof.
  intros Hm. change (F64.of_Z m) with (dyadic m 0).
  rewrite dyadic_finite by lia.
  replace (m <? 0) with false by (symmetry; apply Z.ltb_ge; lia).
  eexists _, _. reflexivity.
Qed.

End ExactArithmetic.

(** ** Pooling *)

Lemma region_edges_one (m : nat) :
  (Z.of_nat m < 2 ^ 53)%Z -> region_edges 1 m = [0%Z; Z.of_nat m].
Proof.
  intros Hm. unfold region_edges.
  change (F64.div (F64.mul F64.one F64.one) (F64.of_Z (Z.of_nat 1))) with (dyadic 1 0).
  change (cumsum (<[0:=F64.zero]> (replicate 2 (dyadic 1 0))))
    with [F64.zero; dyadic 1 0].
  cbn [map]. f_equal; [|f_equal].
  - destruct m as [|m]; [reflexivity|].
    destruct (of_Z_positive (Z.of_nat (Datatypes.S m)) ltac:(lia)) as (mm & e' & ->).
    reflexivity.
  - change (F64.of_Z (Z.of_nat m)) with (dyadic (Z.of_nat m) 0).
    rewrite mul_pow2_dyadic by lia.
    change (dyadic (Z.of_nat m) (0 + 0)) with (F64.of_Z (Z.of_nat m)).
    rewrite rint_of_Z, to_int_of_Z by lia. reflexivity.
Qed.

Lemma slice_all {A : Type} (l : list A) :
  slice l 0 (Z.of_nat (length l)) = l.
Proof.
  unfold slice, slice_bound. cbn [Z.ltb Z.compare Z.to_nat].
  destruct (Z.of_nat (length l) <? 0)%Z eqn:E; [apply Z.ltb_lt in E; lia|].
  rewrite Nat2Z.id, Nat.min_0_r, Nat.min_id, Nat.sub_0_r. cbn [drop].
  apply firstn_all.
Qed.

(** The one region of both schemes: all the rows, written to the one
    cell of [arr]. *)
Lemma pool_into_whole (rows : list (list float)) (m d : nat)
    (pool_type : string) (norm : bool) (junk : list float) :
  length rows = m ->
  pool_into rows d pool_type norm [0%Z; Z.of_nat m] 0 [junk] 0
  = let* v := pool_region pool_type d rows in
    Ok [if norm then l2_normalize v else v].
Proof.
  intros <-. unfold pool_into, edge. cbn [lookup list_lookup rbind].
  rewrite slice_all. destruct (pool_region pool_type d rows); reflexivity.
Qed.

(** C9. Pyramid pooling with [levels = 0] and chunk-concat pooling with
    [n = 1] both are the single global pool over the whole input, for
    every pooling kind, with or without normalisation and unit scaling;
    hence they agree. The number of rows of an array is below [2^53]. *)
Theorem pooling_one_region (mem : raw) (x : ndarray) (m d : nat)
    (pool_type : string) (norm unit : bool) :
  shape x = [m; d] -> 0 < m -> (Z.of_nat m < 2 ^ 53)%Z ->
  feature_1dpyramid mem x 0 pool_type norm unit
  = global_pool x pool_type norm unit /\
  feature_1dconcat mem x 1 pool_type norm unit
  = global_pool x pool_type norm unit.
Proof.
  intros Hx _ Hm.
  unfold feature_1dpyramid, feature_1dconcat, global_pool, shape2.
  rewrite Hx. cbn [rbind]. change (2 ^ (0 + 1) - 1) with 1.
  cbn [replicate seq Nat.add for_each]. change (2 ^ 0) with 1.
  cbn [seq for_each]. rewrite (region_edges_one m Hm).
  rewrite !pool_into_whole by apply blocks_length.
  destruct (pool_region (lower pool_type) d (blocks m d (buffer x))) as [v|e];
    cbn [rbind hstack concat]; [|split; reflexivity].
  rewrite app_nil_r. destruct unit; split; reflexivity.
Qed.

Lemma pooling_one_region_witness :
  let x := of_matrix 2 [[F64.of_Z 1; F64.of_Z 2]; [F64.of_Z 3; F64.of_Z 4]] in
  feature_1dpyramid zeros_mem x 0 "mean" true true
  = global_pool x "mean" true true /\
  feature_1dconcat zeros_mem x 1 "mean" true true
  = global_pool x "mean" true true.
Proof.
  apply (pooling_one_region _ _ 2 2); [reflexivity|lia|reflexivity].
Defined.

(** ** The round trip through bounds *)

Lemma stack_last_rows {A : Type} (f g : A -> float) (l : list A) :
  stack_last (mk_ndarray [length l] (map f l)) (mk_ndarray [length l] (map g l))
  = of_rows (map (fun a => (f a, g a)) l).
Proof.
  unfold stack_last, of_rows; cbn [shape buffer app]. rewrite length_map.
  f_equal. induction l as [|a l IH]; [reflexivity|].
  cbn [map zip_with concat]. now rewrite IH.
Qed.

Lemma zip_with_map {A : Type} (op : float -> float -> float)
    (f g : A -> float) (l : list A) :
  zip_with op (map f l) (map g l) = map (fun a => op (f a) (g a)) l.
Proof. induction l as [|a l IH]; [reflexivity|]. cbn. now rewrite IH. Qed.

Lemma segment_format_c2b (rows : list (float * float)) :
  segment_format (of_rows rows) str_c2b = Ok (Some (of_rows (map c2b_row rows))).
Proof.
  unfold segment_format. cbn [String.eqb Ascii.eqb Bool.eqb str_c2b].
  rewrite !column_of_rows by lia. cbn [rbind Nat.eqb].
  unfold ew1, ew2; cbn [shape buffer].
  rewrite !map_map, !zip_with_map, !map_map, !zip_with_map, !map_map.
  rewrite (stack_last_rows _ _ rows). reflexivity.
Qed.

Lemma segment_format_b2c (rows : list (float * float)) :
  segment_format (of_rows rows) str_b2c = Ok (Some (of_rows (map b2c_row rows))).
Proof.
  unfold segment_format. cbn [String.eqb Ascii.eqb Bool.eqb str_c2b str_b2c].
  rewrite !column_of_rows by lia. cbn [rbind Nat.eqb].
  unfold ew1, ew2; cbn [shape buffer].
  rewrite !zip_with_map, !map_map.
  rewrite (stack_last_rows _ _ rows). reflexivity.
Qed.

Section RoundTrip.
Local Open Scope Z_scope.

Lemma of_Z_dyadic (z : Z) : F64.of_Z z = dyadic z 0.
Proof. reflexivity. Qed.

Lemma of_Z_half_units (z : Z) :
  Z.abs z < 2 ^ 53 -> F64.of_Z z = dyadic (2 * z) (-1).
Proof.
  intros Hz. rewrite of_Z_dyadic, <- (dyadic_shift z 0 1) by lia.
  f_equal. lia.
Qed.

Lemma normalize_nonzero (z : Z) (s : bool) :
  z <> 0 -> binary_normalize F64.prec F64.emax z 0 s = F64.of_Z z.
Proof. intros Hz. destruct z; [congruence|reflexivity|reflexivity]. Qed.

Lemma eqb_refl_of_Z (z : Z) (s : bool) :
  Z.abs z < 2 ^ 53 ->
  F64.eqb (binary_normalize F64.prec F64.emax z 0 s) (F64.of_Z z) = true.
Proof.
  intros Hz. destruct (Z.eq_dec z 0) as [->|Hz0]; [destruct s; reflexivity|].
  rewrite normalize_nonzero, of_Z_dyadic, dyadic_finite by lia.
  unfold canonic, F64.eqb, SFeqb, SFcompare.
  rewrite Z.compare_refl.
  change (PosDef.Pos.compare_cont Eq ?p ?p) with (Pos.compare p p).
  rewrite Pos.compare_refl. destruct (z <? 0); reflexivity.
Qed.

Lemma add_holds (x : float) (s e : Z) :
  holds x s -> Z.abs s < 2 ^ 53 -> Z.abs e < 2 ^ 53 -> Z.abs (s + e) < 2 ^ 53 ->
  F64.add x (F64.of_Z e) = F64.of_Z (s + e).
Proof.
  intros [->|[-> ->]] Hs He Hse.
  - rewrite !of_Z_dyadic. apply add_dyadic; lia.
  - destruct (Z.eq_dec e 0) as [->|He0]; [reflexivity|].
    rewrite Z.add_0_l, of_Z_dyadic, dyadic_finite by lia. reflexivity.
Qed.

Lemma sub_holds (x : float) (s e : Z) :
  holds x s -> Z.abs s < 2 ^ 53 -> Z.abs e < 2 ^ 53 -> Z.abs (e - s) < 2 ^ 53 ->
  F64.sub (F64.of_Z e) x = F64.of_Z (e - s).
Proof.
  intros [->|[-> ->]] Hs He Hse.
  - rewrite !of_Z_dyadic. apply sub_dyadic; lia.
  - destruct (Z.eq_dec e 0) as [->|He0]; [reflexivity|].
    rewrite Z.sub_0_r, of_Z_dyadic, dyadic_finite by lia. reflexivity.
Qed.

Lemma half_dyadic : F64.half = dyadic 1 (-1).
Proof. reflexivity. Qed.

Lemma one_of_Z : F64.one = F64.of_Z 1.
Proof. reflexivity. Qed.

(** [c2b] on an integer row: the start is [c - d / 2], the end
    [start + d - 1]. *)
Lemma c2b_row_int (c d : Z) :
  in_range (c, d) ->
  exists x, c2b_row (F64.of_Z c, F64.of_Z d) = (x, F64.of_Z (c - d / 2 + d - 1))
            /\ holds x (c - d / 2).
Proof.
  unfold in_range; cbn [fst snd]. intros [Hc Hd].
  assert (H50 : 2 ^ 50 = 1125899906842624) by reflexivity.
  assert (H53 : 2 ^ 53 = 9007199254740992) by reflexivity.
  assert (Hq : 0 <= d / 2 <= d) by (split; [apply Z.div_pos|apply Z.div_le_upper_bound]; lia).
  set (s := c - d / 2).
  assert (Hx : holds (F64.ceil (F64.sub (F64.of_Z c) (F64.mul F64.half (F64.of_Z d)))) s).
  { rewrite half_dyadic, (of_Z_dyadic d), mul_pow2_dyadic by lia.
    rewrite (of_Z_half_units c) by lia. cbn [Z.add].
    rewrite sub_dyadic by lia.
    destruct (Z.eq_dec (2 * c - d) 0) as [E|E].
    - rewrite E. left. cbn. subst s. replace d with (c * 2) by lia.
      rewrite Z.div_mul by lia. now rewrite Z.sub_diag.
    - rewrite ceil_dyadic_half by lia.
      assert (Hs : half_up (2 * c - d) = s).
      { unfold half_up, s. replace (- (2 * c - d)) with (d + (- c) * 2) by lia.
        rewrite Z.div_add by lia. lia. }
      rewrite Hs. destruct (Z.eq_dec s 0) as [E0|E0].
      + rewrite E0. destruct (2 * c - d <? 0); [right|left]; split; auto.
      + left. apply normalize_nonzero. exact E0. }
  eexists. split; [|exact Hx]. unfold c2b_row; cbn [fst snd]. f_equal.
  rewrite (add_holds _ s d Hx), one_of_Z by (unfold s; lia).
  rewrite !of_Z_dyadic, sub_dyadic by (unfold s; lia). reflexivity.
Qed.

Lemma half_even_recovered (c d : Z) :
  half_even (c - d / 2 + (c - d / 2 + d - 1)) = recovered_center c d.
Proof.
  unfold half_even, recovered_center.
  remember (c - d / 2 + (c - d / 2 + d - 1)) as k eqn:Ek.
  destruct (Z.odd d) eqn:Od; cbn [orb].
  - apply Z.odd_spec in Od. destruct Od as [m ->].
    assert (Hk : k = c * 2) by (subst k; Z.to_euclidean_division_equations; lia).
    rewrite Hk, Z.mod_mul, Z.div_mul by lia. reflexivity.
  - rewrite <- Z.negb_even in Od. apply negb_false_iff, Z.even_spec in Od.
    destruct Od as [m ->].
    assert (Hk : k = 1 + (c - 1) * 2) by (subst k; Z.to_euclidean_division_equations; lia).
    rewrite Hk, Z.mod_add, Z.div_add by lia. cbn [Z.eqb Z.modulo Z.div Z.add].
    change (1 mod 2) with 1. change (1 / 2) with 0. cbn [Z.eqb Z.add].
    rewrite !Z.add_0_l, Z.even_sub. change (Z.even 1) with false.
    destruct (Z.even c); cbn [Bool.eqb]; lia.
Qed.

(** [b2c] on the bounds of an integer row: the duration comes back, and
    the center up to the tie of [np.round]. *)
Lemma b2c_row_int (c d : Z) (x : float) :
  in_range (c, d) -> holds x (c - d / 2) ->
  exists y, b2c_row (x, F64.of_Z (c - d / 2 + d - 1)) = (y, F64.of_Z d)
            /\ F64.eqb y (F64.of_Z (recovered_center c d)) = true.
Proof.
  unfold in_range; cbn [fst snd]. intros [Hc Hd] Hx.
  assert (H50 : 2 ^ 50 = 1125899906842624) by reflexivity.
  assert (H53 : 2 ^ 53 = 9007199254740992) by reflexivity.
  assert (Hq : 0 <= d / 2 <= d)
    by (split; [apply Z.div_pos|apply Z.div_le_upper_bound]; lia).
  assert (Hr : Z.abs (recovered_center c d) < 2 ^ 53)
    by (unfold recovered_center; destruct (_ || _); lia).
  pose proof (half_even_recovered c d) as Hhe.
  remember (c - d / 2) as s eqn:Es. remember (s + d - 1) as e eqn:Ee.
  unfold b2c_row; cbn [fst snd]. eexists. split; [f_equal|].
  - rewrite (sub_holds _ s e Hx), one_of_Z, !of_Z_dyadic, add_dyadic by lia.
    f_equal. lia.
  - rewrite (add_holds _ s e Hx) by lia.
    rewrite half_dyadic, of_Z_dyadic, mul_pow2_dyadic by lia. cbn [Z.add].
    destruct (Z.eq_dec (s + e) 0) as [E|E].
    + rewrite E in *. rewrite <- Hhe. reflexivity.
    + rewrite rint_dyadic_half, Hhe by lia. apply eqb_refl_of_Z. exact Hr.
Qed.

End RoundTrip.

(** C6, as the source has it. For integer centers of magnitude at most
    [2^50] and integer durations from 1 to [2^50], converting to bounds
    and back returns the duration column exactly, and a center column
    equal ([==]) to the center, but for rows with an even duration and
    an odd center, which come back with the center minus 1. *)
Theorem center_bounds_round_trip (rows : list (Z * Z)) :
  Forall in_range rows ->
  exists (B : ndarray) (out : list (float * float)),
    segment_format (int_batch rows) str_c2b = Ok (Some B) /\
    segment_format B str_b2c = Ok (Some (of_rows out)) /\
    Forall2 (fun r o =>
               o.2 = F64.of_Z r.2 /\
               F64.eqb o.1 (F64.of_Z (recovered_center r.1 r.2)) = true)
            rows out.
Proof.
  intros Hrows. unfold int_batch.
  rewrite segment_format_c2b. eexists _, _. split; [reflexivity|].
  rewrite segment_format_b2c. split; [reflexivity|].
  rewrite !map_map.
  induction Hrows as [|[c d] rows Hr _ IH]; cbn [map]; constructor; [|exact IH].
  cbn [fst snd].
  destruct (c2b_row_int c d Hr) as (x & -> & Hx).
  destruct (b2c_row_int c d x Hr Hx) as (y & -> & Hy).
  split; [reflexivity|exact Hy].
Qed.

Lemma center_bounds_round_trip_witness :
  exists (B : ndarray) (out : list (float * float)),
    segment_format (int_batch [(7, 3); (1, 2)]%Z) str_c2b = Ok (Some B) /\
    segment_format B str_b2c = Ok (Some (of_rows out)) /\
    Forall2 (fun r o =>
               o.2 = F64.of_Z r.2 /\
               F64.eqb o.1 (F64.of_Z (recovered_center r.1 r.2)) = true)
            [(7, 3); (1, 2)]%Z out.
Proof.
  apply center_bounds_round_trip.
  repeat constructor; cbn; lia.
Defined.

(** C6, the counterexample. The row [[2^53, 3]] comes back as
    [[2^53 - 2, 2]]: neither the center nor the odd duration is
    recovered. And the row [[1, 2]] comes back as [[0, 2]]. *)
Lemma center_bounds_round_trip_fails :
  (exists B,
     segment_format (int_batch [(2 ^ 53, 3)]%Z) str_c2b = Ok (Some B) /\
     segment_format B str_b2c
     = Ok (Some (int_batch [(2 ^ 53 - 2, 2)]%Z))) /\
  (exists B,
     segment_format (int_batch [(1, 2)]%Z) str_c2b = Ok (Some B) /\
     segment_format B str_b2c = Ok (Some (int_batch [(0, 2)]%Z))) /\
  F64.eqb (F64.of_Z 2) (F64.of_Z 3) = false /\
  F64.eqb (F64.of_Z 0) (F64.of_Z 1) = false.
Proof.
  split; [|split; [|split]].
  - eexists. split; vm_compute; reflexivity.
  - eexists. split; vm_compute; reflexivity.
  - reflexivity.
  - reflexivity.
Qed.

(** ** Pooling an empty region *)

(** A rule for loops over a range: an invariant indexed by the position,
    and a condition every exception raised meets. *)
Lemma for_each_seq_rule {S : Type} (body : S -> nat -> result S)
    (I : nat -> S -> Prop) (E : exn -> Prop) (len : nat) :
  forall (start : nat) (acc : S),
    I start acc ->
    (forall k acc, start <= k < start + len -> I k acc ->
       match body acc k with
       | Ok acc' => I (Datatypes.S k) acc'
       | Raise e => E e
       end) ->
    match for_each body (seq start len) acc with
    | Ok acc' => I (start + len) acc'
    | Raise e => E e
    end.
Proof.
  induction len as [|len IH]; intros start acc HI Hbody; cbn [seq for_each].
  - now rewrite Nat.add_0_r.
  - pose proof (Hbody start acc ltac:(lia) HI) as Hstep.
    destruct (body acc start) as [acc'|e]; cbn [rbind]; [|exact Hstep].
    replace (start + Datatypes.S len) with (Datatypes.S start + len) by lia.
    apply IH; [exact Hstep|].
    intros k acc0 Hk. apply Hbody. lia.
Qed.

Lemma length_cumsum_from (l : list float) (acc : float) :
  length (cumsum_from acc l) = length l.
Proof. revert acc; induction l; intros acc; cbn; [reflexivity|now rewrite IHl]. Qed.

Lemma length_region_edges (n m : nat) : length (region_edges n m) = Datatypes.S n.
Proof.
  unfold region_edges. rewrite length_map.
  cbn [replicate insert list_insert cumsum length].
  now rewrite length_cumsum_from, length_replicate.
Qed.

Lemma edge_lookup (n m j : nat) :
  j < n ->
  exists a b, edge (region_edges n m) j = Ok a /\
              edge (region_edges n m) (Datatypes.S j) = Ok b /\
              region_edges n m !! j = Some a /\
              region_edges n m !! Datatypes.S j = Some b.
Proof.
  intros Hj. unfold edge.
  destruct (lookup_lt_is_Some_2 (region_edges n m) j) as [a Ha];
    [rewrite length_region_edges; lia|].
  destruct (lookup_lt_is_Some_2 (region_edges n m) (Datatypes.S j)) as [b Hb];
    [rewrite length_region_edges; lia|].
  exists a, b. now rewrite Ha, Hb.
Qed.

Lemma slice_empty {A : Type} (l : list A) (a : Z) : slice l a a = [].
Proof. unfold slice. now rewrite Nat.sub_diag. Qed.

Lemma fold_add_nan (l : list float) : fold_left F64.add l F64.nan = F64.nan.
Proof. induction l as [|a l IH]; [reflexivity|exact IH]. Qed.

(** The pool of no row at all is [nan] in every column, and stays so
    through the normalisation. *)
Lemma region_vector_empty (rows : list (list float)) (d : nat) (norm : bool)
    (a : Z) :
  0 < d -> In F64.nan (region_vector rows d norm a a).
Proof.
  intros Hd. unfold region_vector. rewrite slice_empty.
  destruct d as [|d]; [lia|].
  unfold mean_axis0. cbn [fold_left replicate map length].
  change (F64.div F64.zero (F64.of_Z (Z.of_nat 0))) with F64.nan.
  destruct norm; [|left; reflexivity].
  unfold l2_normalize, sum. cbn [map fold_left].
  change (F64.add F64.zero (F64.mul F64.nan F64.nan)) with F64.nan.
  rewrite fold_add_nan. left. reflexivity.
Qed.

Lemma pool_into_mean (rows : list (list float)) (d : nat) (norm : bool)
    (edges : list Z) (j : nat) (arr : list (list float)) (idx : nat) (a b : Z) :
  edges !! j = Some a -> edges !! Datatypes.S j = Some b -> idx < length arr ->
  pool_into rows d str_mean norm edges j arr idx
  = Ok (<[idx := region_vector rows d norm a b]> arr).
Proof.
  intros Ha Hb Hidx. unfold pool_into, edge. rewrite Ha, Hb. cbn [rbind].
  unfold pool_region. cbn [String.eqb Ascii.eqb Bool.eqb str_mean rbind].
  replace (idx <? length arr) with true by (symmetry; apply Nat.ltb_lt; exact Hidx).
  reflexivity.
Qed.

Lemma pool_into_max (rows : list (list float)) (d : nat) (norm : bool)
    (edges : list Z) (j : nat) (arr : list (list float)) (idx : nat) (a b : Z) :
  edges !! j = Some a -> edges !! Datatypes.S j = Some b -> idx < length arr ->
  match pool_into rows d str_max norm edges j arr idx with
  | Ok arr' => length arr' = length arr /\ a <> b
  | Raise e => e = ValueError
  end.
Proof.
  intros Ha Hb Hidx. unfold pool_into, edge. rewrite Ha, Hb. cbn [rbind].
  unfold pool_region. cbn [String.eqb Ascii.eqb Bool.eqb str_mean str_max rbind].
  destruct (Z.eq_dec a b) as [->|Hab].
  - rewrite slice_empty. reflexivity.
  - unfold max_axis0. destruct (slice rows a b); cbn [rbind]; [reflexivity|].
    replace (idx <? length arr) with true by (symmetry; apply Nat.ltb_lt; exact Hidx).
    split; [apply length_insert|exact Hab].
Qed.

Lemma nan_in_cell (arr : list (list float)) (p : nat) (v : list float) :
  arr !! p = Some v -> In F64.nan v -> In F64.nan (concat arr).
Proof.
  intros Hp Hv. apply in_concat. exists v. split; [|exact Hv].
  apply list_elem_of_In. eapply list_elem_of_lookup_2. exact Hp.
Qed.

Lemma nan_after_scaling (c : float) (r : list float) :
  In F64.nan r -> In F64.nan (map (fun a => F64.div a c) r).
Proof. intros H. apply (in_map (fun a => F64.div a c)) in H. exact H. Qed.

Lemma feature_1dconcat_mean_empty (mem : raw) (x : ndarray) (m d n : nat)
    (pool_type : string) (norm unit : bool) (j0 : nat) (e : Z) :
  shape x = [m; d] -> 0 < d -> lower pool_type = str_mean ->
  region_edges n m !! j0 = Some e ->
  region_edges n m !! Datatypes.S j0 = Some e ->
  exists r, feature_1dconcat mem x n pool_type norm unit = Ok r /\ In F64.nan r.
Proof.
  intros Hx Hd Hpt He0 He1.
  assert (Hj0 : j0 < n).
  { apply lookup_lt_Some in He1. rewrite length_region_edges in He1. lia. }
  unfold feature_1dconcat, shape2. rewrite Hx, Hpt. cbn [rbind].
  set (rows := blocks m d (buffer x)).
  set (body := fun arr j => pool_into rows d str_mean norm (region_edges n m) j arr j).
  set (I := fun (k : nat) (arr : list (list float)) =>
              length arr = n /\
              (j0 < k -> exists v, arr !! j0 = Some v /\ In F64.nan v)).
  assert (Hstep : forall k arr, 0 <= k < 0 + n -> I k arr ->
            match body arr k with
            | Ok arr' => I (Datatypes.S k) arr'
            | Raise _ => False
            end).
  { intros k arr0 Hk [Hlen Hdone]. unfold body.
    destruct (edge_lookup n m k ltac:(lia)) as (a & b & _ & _ & Ha & Hb).
    rewrite (pool_into_mean _ _ _ _ _ _ _ a b Ha Hb) by lia.
    split; [rewrite length_insert; exact Hlen|].
    intros Hlt. destruct (Nat.eq_dec j0 k) as [->|Hne].
    - exists (region_vector rows d norm a b). split.
      + apply list_lookup_insert_eq. lia.
      + assert (a = e) by congruence. assert (b = e) by congruence. subst a b.
        apply region_vector_empty. exact Hd.
    - destruct (Hdone ltac:(lia)) as [v [Hv Hnan]]. exists v. split; [|exact Hnan].
      rewrite list_lookup_insert_ne by congruence. exact Hv. }
  assert (H0 : I 0 (replicate n (buffer (np_empty mem [d]))))
    by (split; [apply length_replicate|lia]).
  pose proof (for_each_seq_rule body I (fun _ => False) n 0 _ H0 Hstep) as Hloop.
  destruct (for_each body (seq 0 n) _) as [arr|ex]; [|contradiction].
  destruct Hloop as [Hlen [v [Hv Hnan]]]; [lia|].
  cbn [rbind]. pose proof (nan_in_cell arr j0 v Hv Hnan) as Hin.
  destruct arr as [|r0 arr]; [discriminate|]. cbn [hstack rbind].
  destruct unit; eexists; (split; [reflexivity|]);
    [apply nan_after_scaling|]; exact Hin.
Qed.

Lemma feature_1dconcat_max_empty (mem : raw) (x : ndarray) (m d n : nat)
    (pool_type : string) (norm unit : bool) (j0 : nat) (e : Z) :
  shape x = [m; d] -> lower pool_type = str_max ->
  region_edges n m !! j0 = Some e ->
  region_edges n m !! Datatypes.S j0 = Some e ->
  feature_1dconcat mem x n pool_type norm unit = Raise ValueError.
Proof.
  intros Hx Hpt He0 He1.
  assert (Hj0 : j0 < n).
  { apply lookup_lt_Some in He1. rewrite length_region_edges in He1. lia. }
  unfold feature_1dconcat, shape2. rewrite Hx, Hpt. cbn [rbind].
  set (rows := blocks m d (buffer x)).
  set (body := fun arr j => pool_into rows d str_max norm (region_edges n m) j arr j).
  set (I := fun (k : nat) (arr : list (list float)) => length arr = n /\ k <= j0).
  assert (Hstep : forall k arr, 0 <= k < 0 + n -> I k arr ->
            match body arr k with
            | Ok arr' => I (Datatypes.S k) arr'
            | Raise ex => ex = ValueError
            end).
  { intros k arr0 Hk [Hlen Hle]. unfold body.
    destruct (edge_lookup n m k ltac:(lia)) as (a & b & _ & _ & Ha & Hb).
    pose proof (pool_into_max rows d norm _ k arr0 k a b Ha Hb ltac:(lia)) as Hp.
    destruct (pool_into rows d str_max norm _ k arr0 k) as [arr'|ex]; [|exact Hp].
    destruct Hp as [Hlen' Hab]. split; [lia|].
    destruct (Nat.eq_dec k j0) as [->|Hne]; [|lia].
    exfalso. apply Hab. congruence. }
  assert (H0 : I 0 (replicate n (buffer (np_empty mem [d]))))
    by (split; [apply length_replicate|lia]).
  pose proof (for_each_seq_rule body I (fun ex => ex = ValueError) n 0 _ H0 Hstep)
    as Hloop.
  destruct (for_each body (seq 0 n) _) as [arr|ex]; cbn [rbind].
  - destruct Hloop as [_ Hle]. lia.
  - now rewrite Hloop.
Qed.

Lemma pow2_facts (i L : nat) :
  i <= L -> 1 <= 2 ^ i /\ 2 ^ (Datatypes.S i) = 2 * 2 ^ i /\ 2 ^ (Datatypes.S i) <= 2 ^ (L + 1).
Proof.
  intros Hi. split; [|split].
  - pose proof (Nat.pow_nonzero 2 i). lia.
  - reflexivity.
  - apply Nat.pow_le_mono_r; lia.
Qed.

Lemma feature_1dpyramid_mean_empty (mem : raw) (x : ndarray) (m d levels : nat)
    (pool_type : string) (norm unit : bool) (i0 j0 : nat) (e : Z) :
  shape x = [m; d] -> 0 < d -> lower pool_type = str_mean -> i0 <= levels ->
  region_edges (2 ^ i0) m !! j0 = Some e ->
  region_edges (2 ^ i0) m !! Datatypes.S j0 = Some e ->
  exists r, feature_1dpyramid mem x levels pool_type norm unit = Ok r /\ In F64.nan r.
Proof.
  intros Hx Hd Hpt Hi0 He0 He1.
  assert (Hj0 : j0 < 2 ^ i0).
  { apply lookup_lt_Some in He1. rewrite length_region_edges in He1. lia. }
  unfold feature_1dpyramid, shape2. rewrite Hx, Hpt. cbn [rbind].
  set (rows := blocks m d (buffer x)).
  set (N := 2 ^ (levels + 1) - 1).
  set (inner := fun (edges : list Z) (st : list (list float) * nat) =>
                  let '(arr, idx) := st in
                  fun (j : nat) =>
                    let* arr := pool_into rows d str_mean norm edges j arr idx in
                    Ok (arr, Datatypes.S idx)).
  set (outer := fun (st : list (list float) * nat) =>
                  let '(arr, idx) := st in
                  fun (i : nat) =>
                    for_each (inner (region_edges (2 ^ i) m)) (seq 0 (2 ^ i))
                             (arr, idx)).
  set (found := fun (st : list (list float) * nat) =>
                  exists p v, p < st.2 /\ st.1 !! p = Some v /\ In F64.nan v).
  set (IO := fun (i : nat) (st : list (list float) * nat) =>
               length st.1 = N /\ st.2 = 2 ^ i - 1 /\ (i0 < i -> found st)).
  assert (Houter : forall i st, 0 <= i < 0 + (levels + 1) -> IO i st ->
            match outer st i with
            | Ok st' => IO (Datatypes.S i) st'
            | Raise _ => False
            end).
  { intros i [arr idx] Hi [Hlen [Hidx Hf]]. cbn [fst snd] in *. unfold outer.
    destruct (pow2_facts i levels ltac:(lia)) as (P1 & P2 & P3).
    set (II := fun (j : nat) (st : list (list float) * nat) =>
                 length st.1 = N /\ st.2 = 2 ^ i - 1 + j /\
                 (i0 < i \/ (i0 = i /\ j0 < j) -> found st)).
    assert (Hinner : forall j st, 0 <= j < 0 + 2 ^ i -> II j st ->
              match inner (region_edges (2 ^ i) m) st j with
              | Ok st' => II (Datatypes.S j) st'
              | Raise _ => False
              end).
    { intros j [arr1 idx1] Hj [Hlen1 [Hidx1 Hf1]]. cbn [fst snd] in *. unfold inner.
      destruct (edge_lookup (2 ^ i) m j ltac:(lia)) as (a & b & _ & _ & Ha & Hb).
      assert (Hin : idx1 < length arr1)
        by (rewrite Hlen1, Hidx1; unfold N; clear - P1 P2 P3 Hj; lia).
      rewrite (pool_into_mean _ _ _ _ _ _ _ a b Ha Hb) by exact Hin.
      cbn [rbind]. split; [cbn [fst]; rewrite length_insert; exact Hlen1|].
      split; [cbn [snd]; lia|]. unfold found in *. cbn [fst snd] in *. intros Hcase.
      destruct (decide (i0 = i /\ j0 = j)) as [[-> ->]|Hne].
      - exists idx1, (region_vector rows d norm a b). split; [lia|]. split.
        + apply list_lookup_insert_eq. exact Hin.
        + assert (a = e) by congruence. assert (b = e) by congruence. subst a b.
          apply region_vector_empty. exact Hd.
      - destruct Hf1 as (p & v & Hp & Hv & Hnan); [lia|].
        exists p, v. split; [lia|]. split; [|exact Hnan].
        rewrite list_lookup_insert_ne by lia. exact Hv. }
    assert (H0 : II 0 (arr, idx)).
    { split; [exact Hlen|]. split; [cbn [snd]; lia|]. intros [H|[_ H]]; [auto|lia]. }
    pose proof (for_each_seq_rule _ II (fun _ => False) (2 ^ i) 0 _ H0 Hinner) as Hloop.
    destruct (for_each _ (seq 0 (2 ^ i)) (arr, idx)) as [[arr' idx']|ex]; [|exact Hloop].
    destruct Hloop as [Hlen' [Hidx' Hf']]. cbn [fst snd] in *.
    split; [exact Hlen'|]. split; [cbn [snd]; lia|].
    intros Hlt. apply Hf'. destruct (Nat.eq_dec i0 i) as [->|Hne]; [right|left]; lia. }
  assert (H0 : IO 0 (replicate N (buffer (np_empty mem [d])), 0)).
  { split; [apply length_replicate|]. split; [reflexivity|lia]. }
  pose proof (for_each_seq_rule outer IO (fun _ => False) (levels + 1) 0 _ H0 Houter)
    as Hloop.
  match goal with |- context [for_each ?f (seq 0 (levels + 1)) ?s] =>
    change (for_each f (seq 0 (levels + 1)) s)
      with (for_each outer (seq 0 (levels + 1)) s)
  end.
  destruct (for_each outer _ _) as [[arr idx]|ex]; [|contradiction].
  destruct Hloop as [_ [_ Hf]]. destruct Hf as (p & v & _ & Hv & Hnan); [lia|].
  cbn [fst snd rbind] in *. pose proof (nan_in_cell arr p v Hv Hnan) as Hin.
  destruct arr as [|r0 arr]; [discriminate|]. cbn [hstack rbind].
  destruct unit; eexists; (split; [reflexivity|]);
    [apply nan_after_scaling|]; exact Hin.
Qed.

Lemma feature_1dpyramid_max_empty (mem : raw) (x : ndarray) (m d levels : nat)
    (pool_type : string) (norm unit : bool) (i0 j0 : nat) (e : Z) :
  shape x = [m; d] -> lower pool_type = str_max -> i0 <= levels ->
  region_edges (2 ^ i0) m !! j0 = Some e ->
  region_edges (2 ^ i0) m !! Datatypes.S j0 = Some e ->
  feature_1dpyramid mem x levels pool_type norm unit = Raise ValueError.
Proof.
  intros Hx Hpt Hi0 He0 He1.
  assert (Hj0 : j0 < 2 ^ i0).
  { apply lookup_lt_Some in He1. rewrite length_region_edges in He1. lia. }
  unfold feature_1dpyramid, shape2. rewrite Hx, Hpt. cbn [rbind].
  set (rows := blocks m d (buffer x)).
  set (N := 2 ^ (levels + 1) - 1).
  set (inner := fun (edges : list Z) (st : list (list float) * nat) =>
                  let '(arr, idx) := st in
                  fun (j : nat) =>
                    let* arr := pool_into rows d str_max norm edges j arr idx in
                    Ok (arr, Datatypes.S idx)).
  set (outer := fun (st : list (list float) * nat) =>
                  let '(arr, idx) := st in
                  fun (i : nat) =>
                    for_each (inner (region_edges (2 ^ i) m)) (seq 0 (2 ^ i))
                             (arr, idx)).
  set (IO := fun (i : nat) (st : list (list float) * nat) =>
               length st.1 = N /\ st.2 = 2 ^ i - 1 /\ i <= i0).
  assert (Houter : forall i st, 0 <= i < 0 + (levels + 1) -> IO i st ->
            match outer st i with
            | Ok st' => IO (Datatypes.S i) st'
            | Raise ex => ex = ValueError
            end).
  { intros i [arr idx] Hi [Hlen [Hidx Hle]]. cbn [fst snd] in *. unfold outer.
    destruct (pow2_facts i levels ltac:(lia)) as (P1 & P2 & P3).
    set (II := fun (j : nat) (st : list (list float) * nat) =>
                 length st.1 = N /\ st.2 = 2 ^ i - 1 + j /\
                 (i < i0 \/ (i = i0 /\ j <= j0))).
    assert (Hinner : forall j st, 0 <= j < 0 + 2 ^ i -> II j st ->
              match inner (region_edges (2 ^ i) m) st j with
              | Ok st' => II (Datatypes.S j) st'
              | Raise ex => ex = ValueError
              end).
    { intros j [arr1 idx1] Hj [Hlen1 [Hidx1 Hcase]]. cbn [fst snd] in *. unfold inner.
      destruct (edge_lookup (2 ^ i) m j ltac:(lia)) as (a & b & _ & _ & Ha & Hb).
      assert (Hin : idx1 < length arr1)
        by (rewrite Hlen1, Hidx1; unfold N; clear - P1 P2 P3 Hj; lia).
      pose proof (pool_into_max rows d norm _ j arr1 idx1 a b Ha Hb Hin) as Hp.
      destruct (pool_into rows d str_max norm _ j arr1 idx1) as [arr'|ex];
        cbn [rbind]; [|exact Hp].
      destruct Hp as [Hlen' Hab]. split; [cbn [fst]; lia|].
      split; [cbn [snd]; lia|].
      destruct (decide (i = i0 /\ j = j0)) as [[-> ->]|Hne].
      - exfalso. apply Hab. congruence.
      - lia. }
    assert (H0 : II 0 (arr, idx)).
    { split; [exact Hlen|]. split; [cbn [snd]; lia|]. lia. }
    pose proof (for_each_seq_rule _ II (fun ex => ex = ValueError) (2 ^ i) 0 _ H0 Hinner)
      as Hloop.
    destruct (for_each _ (seq 0 (2 ^ i)) (arr, idx)) as [[arr' idx']|ex]; [|exact Hloop].
    destruct Hloop as [Hlen' [Hidx' Hcase]]. cbn [fst snd] in *.
    split; [exact Hlen'|]. split; [cbn [snd]; lia|].
    destruct Hcase as [Hlt|[-> Hge]]; lia. }
  assert (H0 : IO 0 (replicate N (buffer (np_empty mem [d])), 0)).
  { split; [apply length_replicate|]. split; [reflexivity|lia]. }
  pose proof (for_each_seq_rule outer IO (fun ex => ex = ValueError) (levels + 1) 0 _
                H0 Houter) as Hloop.
  match goal with |- context [for_each ?f (seq 0 (levels + 1)) ?s] =>
    change (for_each f (seq 0 (levels + 1)) s)
      with (for_each outer (seq 0 (levels + 1)) s)
  end.
  destruct (for_each outer _ _) as [[arr idx]|ex]; cbn [rbind].
  - destruct Hloop as [_ [_ Hle]]. lia.
  - now rewrite Hloop.
Qed.

(** C4, as the source has it. When the edges computed for pyramid
    pooling or for chunk-concat pooling make a region empty, no
    empty-segment error is raised: with mean pooling the operation
    returns, and the result contains [nan] (for features of positive
    width); with max pooling it fails with the [ValueError] of numpy's
    reduction over no row. *)
Theorem empty_region_pooling (mem : raw) (x : ndarray) (m d : nat)
    (pool_type : string) (norm unit : bool) (n levels i j j' : nat) (e e' : Z) :
  shape x = [m; d] -> 0 < d ->
  region_edges n m !! j = Some e ->
  region_edges n m !! Datatypes.S j = Some e ->
  i <= levels ->
  region_edges (2 ^ i) m !! j' = Some e' ->
  region_edges (2 ^ i) m !! Datatypes.S j' = Some e' ->
  (lower pool_type = str_mean ->
     (exists r, feature_1dconcat mem x n pool_type norm unit = Ok r
                /\ In F64.nan r) /\
     (exists r, feature_1dpyramid mem x levels pool_type norm unit = Ok r
                /\ In F64.nan r)) /\
  (lower pool_type = str_max ->
     feature_1dconcat mem x n pool_type norm unit = Raise ValueError /\
     feature_1dpyramid mem x levels pool_type norm unit = Raise ValueError).
Proof.
  intros Hx Hd Hc0 Hc1 Hi Hp0 Hp1. split; intros Hpt; split.
  - exact (feature_1dconcat_mean_empty mem x m d n pool_type norm unit j e
             Hx Hd Hpt Hc0 Hc1).
  - exact (feature_1dpyramid_mean_empty mem x m d levels pool_type norm unit i j' e'
             Hx Hd Hpt Hi Hp0 Hp1).
  - exact (feature_1dconcat_max_empty mem x m d n pool_type norm unit j e
             Hx Hpt Hc0 Hc1).
  - exact (feature_1dpyramid_max_empty mem x m d levels pool_type norm unit i j' e'
             Hx Hpt Hi Hp0 Hp1).
Qed.

Lemma empty_region_pooling_witness :
  (exists r, feature_1dconcat zeros_mem one_row 2 "Mean" true true = Ok r
             /\ In F64.nan r) /\
  (exists r, feature_1dpyramid zeros_mem one_row 1 "Mean" true true = Ok r
             /\ In F64.nan r).
Proof.
  apply (empty_region_pooling zeros_mem one_row 1 1 "Mean" true true
           2 1 1 0 0 0%Z 0%Z); try reflexivity; lia.
Defined.

(** C4, the counterexample. Over the one row [[3.0]] the edges of two
    chunks are [[0, 0, 1]], so the first chunk is empty; mean pooling
    raises nothing and returns [[nan, 3.0]], and the pyramid of one level
    returns [[3.0, nan, 3.0]]. *)
Lemma empty_region_returns_nan :
  region_edges 2 1 = [0; 0; 1]%Z /\
  feature_1dconcat zeros_mem one_row 2 "mean" false false
  = Ok [F64.nan; F64.of_Z 3] /\
  feature_1dpyramid zeros_mem one_row 1 "mean" false false
  = Ok [F64.of_Z 3; F64.nan; F64.of_Z 3].
Proof. repeat split; vm_compute; reflexivity. Qed.

(** ** Edit distance *)

Lemma lev_nil_r (s : list ascii) : lev s [] = length s.
Proof. now destruct s. Qed.

Lemma lev_cons (a b : ascii) (s t : list ascii) :
  lev (a :: s) (b :: t)
  = Nat.min (Nat.min (lev s (b :: t) + 1) (lev (a :: s) t + 1))
            (lev s t + differ a b).
Proof. reflexivity. Qed.

(** Equations between nested minima of sums, leaf by leaf. *)
Ltac leaf_le :=
  match goal with
  | |- Nat.min _ _ <= _ =>
      first [ etransitivity; [apply Nat.le_min_l|]; leaf_le
            | etransitivity; [apply Nat.le_min_r|]; leaf_le ]
  | |- _ => lia
  end.

Ltac min_eq :=
  rewrite <- ?Nat.add_min_distr_r;
  apply Nat.le_antisymm; repeat apply Nat.min_glb; leaf_le.

(** The recurrence also holds on the last characters. *)
Lemma lev_snoc (a b : ascii) (s : list ascii) :
  forall t,
    lev (s ++ [a]) (t ++ [b])
    = Nat.min (Nat.min (lev s (t ++ [b]) + 1) (lev (s ++ [a]) t + 1))
              (lev s t + differ a b).
Proof.
  induction s as [|x s IHs].
  - induction t as [|y t IHt].
    + reflexivity.
    + change (([] ++ [a]) : list ascii) with [a] in *.
      change ((y :: t) ++ [b]) with (y :: (t ++ [b])).
      rewrite !lev_cons, IHt.
      change (lev [] ?u) with (length u).
      rewrite !length_app. cbn [length]. min_eq.
  - induction t as [|y t IHt].
    + change ((x :: s) ++ [a]) with (x :: (s ++ [a])).
      change (([] ++ [b]) : list ascii) with [b] in *.
      rewrite !lev_cons, !lev_nil_r.
      pose proof (IHs []) as H0. change (([] ++ [b]) : list ascii) with [b] in H0.
      rewrite H0, !lev_nil_r. cbn [length]. rewrite !length_app. cbn [length]. min_eq.
    + change ((x :: s) ++ [a]) with (x :: (s ++ [a])) in *.
      change ((y :: t) ++ [b]) with (y :: (t ++ [b])).
      rewrite !lev_cons.
      pose proof (IHs (y :: t)) as H1.
      change ((y :: t) ++ [b]) with (y :: (t ++ [b])) in H1.
      rewrite H1, IHt, (IHs t), ?lev_cons. min_eq.
Qed.

Lemma lev_sym (s : list ascii) : forall t, lev s t = lev t s.
Proof.
  induction s as [|a s IHs]; intros t.
  - now rewrite lev_nil_r.
  - induction t as [|b t IHt]; [reflexivity|].
    rewrite !lev_cons, IHt, (IHs (b :: t)), (IHs t).
    unfold differ. rewrite (Ascii.eqb_sym b a). min_eq.
Qed.

(** A rule for loops over an enumeration: an invariant indexed by the
    position, kept by a body that does not raise. *)
Lemma for_each_enumerate {A S : Type} (body : S -> nat * A -> result S)
    (I : nat -> S -> Prop) (l : list A) :
  forall (o : nat) (acc : S),
    I o acc ->
    (forall k x acc, l !! k = Some x -> I (o + k) acc ->
       exists acc', body acc (o + k, x) = Ok acc' /\ I (Datatypes.S (o + k)) acc') ->
    exists acc',
      for_each body (imap (fun i x => (o + i, x)) l) acc = Ok acc' /\
      I (o + length l) acc'.
Proof.
  induction l as [|x l IH]; intros o acc HI Hbody; cbn [imap for_each length].
  - exists acc. now rewrite Nat.add_0_r.
  - destruct (Hbody 0 x acc eq_refl) as (acc1 & E1 & H1);
      [now rewrite Nat.add_0_r|].
    rewrite E1. cbn [rbind]. rewrite Nat.add_0_r in H1.
    destruct (IH (Datatypes.S o) acc1 H1) as (acc2 & E2 & H2).
    { intros k y acc0 Hk Hacc.
      replace (Datatypes.S o + k) with (o + Datatypes.S k) in * by lia.
      now apply Hbody. }
    exists acc2. split.
    + rewrite <- E2. f_equal. apply imap_ext. intros i y _. cbn. f_equal. lia.
    + now replace (o + Datatypes.S (length l)) with (Datatypes.S o + length l) by lia.
Qed.

Lemma lev_row_lookup (p s2 : list ascii) (j : nat) :
  j <= length s2 -> lev_row p s2 !! j = Some (lev p (take j s2)).
Proof.
  intros Hj. unfold lev_row. rewrite list_lookup_fmap.
  rewrite lookup_seq_lt by lia. reflexivity.
Qed.

Lemma list_item_lookup (l : list nat) (k v : nat) :
  l !! k = Some v -> list_item l k = Ok v.
Proof. intros H. unfold list_item. now rewrite H. Qed.

Lemma levenshtein_inner_loop (p s2 : list ascii) (c1 : ascii) :
  for_each (levenshtein_cell c1 (lev_row p s2)) (imap pair s2) [length p + 1]
  = Ok (lev_row (p ++ [c1]) s2).
Proof.
  pose (I := fun (j : nat) (cur : list nat) =>
               cur = map (fun j => lev (p ++ [c1]) (take j s2)) (seq 0 (j + 1))).
  destruct (for_each_enumerate (levenshtein_cell c1 (lev_row p s2)) I s2 0
              [length p + 1]) as (cur & E & Hcur).
  - unfold I. cbn. rewrite take_0, lev_nil_r, length_app. reflexivity.
  - intros j c2 cur Hc2 Hcur. cbn [Nat.add] in *. unfold I in Hcur. subst cur.
    pose proof (lookup_lt_Some _ _ _ Hc2) as Hj.
    unfold levenshtein_cell. cbn [fst snd].
    rewrite (list_item_lookup _ _ _ (lev_row_lookup p s2 (j + 1) ltac:(lia))).
    rewrite (list_item_lookup _ _ _ (lev_row_lookup p s2 j ltac:(lia))).
    rewrite (list_item_lookup _ j (lev (p ++ [c1]) (take j s2))).
    2:{ rewrite list_lookup_fmap, lookup_seq_lt by lia. reflexivity. }
    cbn [rbind].
    eexists. split; [reflexivity|]. unfold I.
    replace (Datatypes.S j + 1) with (Datatypes.S (j + 1)) by lia.
    rewrite seq_S, map_app. cbn [map Nat.add]. f_equal. f_equal.
    replace (j + 1) with (Datatypes.S j) by lia.
    rewrite (take_S_r s2 j c2 Hc2), lev_snoc. reflexivity.
  - cbn [Nat.add] in *. unfold I in Hcur. subst cur.
    etransitivity; [|exact E]. reflexivity.
Qed.

Lemma levenshtein_outer_loop (s1 s2 : list ascii) :
  for_each
    (fun previous_row ic =>
       for_each (levenshtein_cell ic.2 previous_row) (imap pair s2) [ic.1 + 1])
    (imap pair s1) (seq 0 (length s2 + 1))
  = Ok (lev_row s1 s2).
Proof.
  pose (I := fun (i : nat) (prev : list nat) => prev = lev_row (take i s1) s2).
  destruct (for_each_enumerate
              (fun previous_row ic =>
                 for_each (levenshtein_cell ic.2 previous_row) (imap pair s2)
                          [ic.1 + 1])
              I s1 0 (seq 0 (length s2 + 1))) as (prev & E & Hprev).
  - unfold I, lev_row. rewrite take_0. cbn [lev].
    symmetry. etransitivity; [|apply map_id].
    apply map_ext_in. intros j Hj. apply in_seq in Hj.
    rewrite length_take. lia.
  - intros i c1 prev Hc1 Hprev. cbn [Nat.add fst snd] in *.
    unfold I in Hprev. subst prev.
    pose proof (lookup_lt_Some _ _ _ Hc1) as Hi.
    eexists. split.
    + replace (i + 1) with (length (take i s1) + 1)
        by (rewrite length_take; lia).
      apply levenshtein_inner_loop.
    + unfold I. now rewrite (take_S_r s1 i c1 Hc1).
  - cbn [Nat.add] in *. unfold I in Hprev. subst prev.
    rewrite firstn_all in E. etransitivity; [|exact E]. reflexivity.
Qed.

Lemma levenshtein_rows_lev (s1 s2 : list ascii) :
  levenshtein_rows s1 s2 = Ok (lev s1 s2).
Proof.
  unfold levenshtein_rows. destruct (Nat.eqb_spec (length s2) 0) as [E|E].
  - apply nil_length_inv in E. subst s2. now rewrite lev_nil_r.
  - rewrite levenshtein_outer_loop. cbn [rbind].
    apply list_item_lookup.
    assert (length (lev_row s1 s2) = length s2 + 1) as ->
        by (unfold lev_row; now rewrite length_map, length_seq).
    rewrite lev_row_lookup by lia.
    replace (length s2 + 1 - 1) with (length s2) by lia.
    now rewrite firstn_all.
Qed.

Lemma levenshtein_distance_lev (s1 s2 : list ascii) :
  levenshtein_distance s1 s2 = Ok (lev s1 s2).
Proof.
  unfold levenshtein_distance. destruct (length s1 <? length s2).
  - now rewrite levenshtein_rows_lev, lev_sym.
  - apply levenshtein_rows_lev.
Qed.

Lemma lev_refl (s : list ascii) : lev s s = 0.
Proof.
  induction s as [|a s IH]; [reflexivity|].
  rewrite lev_cons, IH. unfold differ. rewrite Ascii.eqb_refl. lia.
Qed.

Lemma lev_length (s : list ascii) :
  forall t,
    length s - length t <= lev s t /\ length t - length s <= lev s t /\
    lev s t <= Nat.max (length s) (length t).
Proof.
  induction s as [|a s IHs]; intros t.
  - cbn. lia.
  - induction t as [|b t IHt].
    + cbn. lia.
    + rewrite lev_cons. pose proof (IHs (b :: t)). pose proof (IHs t).
      unfold differ. cbn [length] in *. destruct (Ascii.eqb a b); lia.
Qed.

Lemma lev_zero (s : list ascii) : forall t, lev s t = 0 -> s = t.
Proof.
  induction s as [|a s IHs]; intros t.
  - cbn. intros H. symmetry. now apply nil_length_inv.
  - destruct t as [|b t]; [discriminate|].
    rewrite lev_cons. unfold differ.
    destruct (Ascii.eqb_spec a b) as [->|Hab]; intros H.
    + f_equal. apply IHs. lia.
    + lia.
Qed.

Lemma lev_triangle (s : list ascii) :
  forall t u, lev s u <= lev s t + lev t u.
Proof.
  induction s as [|a s IHs]; intros t u.
  - pose proof (lev_length t u). cbn [lev]. lia.
  - revert u. induction t as [|b t IHt]; intros u.
    + pose proof (lev_length (a :: s) u). rewrite lev_nil_r. cbn [lev] in *. lia.
    + induction u as [|c u IHu].
      * pose proof (lev_length (a :: s) (b :: t)). rewrite !lev_nil_r. lia.
      * pose proof (IHs (b :: t) (c :: u)). pose proof (IHs t (c :: u)).
        pose proof (IHs t u). pose proof (IHt (c :: u)). pose proof (IHt u).
        rewrite (lev_cons a c), (lev_cons a b), (lev_cons b c) in *.
        assert (differ a c <= differ a b + differ b c).
        { unfold differ. destruct (Ascii.eqb_spec a b), (Ascii.eqb_spec b c),
            (Ascii.eqb_spec a c); try lia; congruence. }
        remember (lev s (c :: u)). remember (lev (a :: s) u).
        remember (lev s u). remember (lev s (b :: t)). remember (lev (a :: s) t).
        remember (lev s t). remember (lev t (c :: u)). remember (lev (b :: t) u).
        remember (lev t u). lia.
Qed.

(** X1. [levenshtein_distance] returns, and its value is the edit
    distance given by the recurrence on the first characters of the two
    strings: the length of the other string when one is empty, and else
    the least of a deletion, an insertion and a substitution (free when
    the characters agree). *)
Theorem levenshtein_distance_recurrence (s1 s2 : list ascii) :
  levenshtein_distance s1 s2 = Ok (lev s1 s2).
Proof. apply levenshtein_distance_lev. Qed.

(** X2. [levenshtein_distance] is symmetric in its arguments. *)
Theorem levenshtein_distance_symmetric (s1 s2 : list ascii) :
  levenshtein_distance s1 s2 = levenshtein_distance s2 s1.
Proof.
  rewrite !levenshtein_distance_lev. f_equal. apply lev_sym.
Qed.

(** X3. The distance of a string to itself is 0, and two strings at
    distance 0 are equal. *)
Theorem levenshtein_distance_zero (s1 s2 : list ascii) :
  levenshtein_distance s1 s1 = Ok 0 /\
  (levenshtein_distance s1 s2 = Ok 0 <-> s1 = s2).
Proof.
  rewrite !levenshtein_distance_lev, lev_refl. split; [reflexivity|]. split.
  - intros H. apply lev_zero. now injection H.
  - intros ->. now rewrite lev_refl.
Qed.

(** X4. The triangle inequality: the distance from [s1] to [s3] is at
    most the distance from [s1] to [s2] plus the one from [s2] to
    [s3]. *)
Theorem levenshtein_distance_triangle (s1 s2 s3 : list ascii) :
  exists d13 d12 d23,
    levenshtein_distance s1 s3 = Ok d13 /\
    levenshtein_distance s1 s2 = Ok d12 /\
    levenshtein_distance s2 s3 = Ok d23 /\
    d13 <= d12 + d23.
Proof.
  exists (lev s1 s3), (lev s1 s2), (lev s2 s3).
  rewrite !levenshtein_distance_lev. repeat split. apply lev_triangle.
Qed.

(** X5. The distance lies between the difference of the two lengths and
    the larger of the two lengths. *)
Theorem levenshtein_distance_bounds (s1 s2 : list ascii) :
  exists d,
    levenshtein_distance s1 s2 = Ok d /\
    length s1 - length s2 <= d /\ length s2 - length s1 <= d /\
    d <= Nat.max (length s1) (length s2).
Proof.
  exists (lev s1 s2). rewrite levenshtein_distance_lev.
  split; [reflexivity|]. apply lev_length.
Qed.

(** ** Segment intersection *)

Lemma blocks_replicate {A : Type} (n sz r : nat) (x : A) :
  blocks n sz (replicate (n * sz + r) x) = replicate n (replicate sz x).
Proof.
  induction n as [|n IH]; [reflexivity|].
  cbn [blocks replicate]. rewrite take_replicate, drop_replicate.
  replace (Nat.min sz (Datatypes.S n * sz + r)) with sz by lia.
  replace (Datatypes.S n * sz + r - sz) with (n * sz + r) by lia.
  now rewrite IH.
Qed.

Lemma length_concat_blocks {A : Type} (w : nat) (rows : list (list A)) :
  Forall (fun r => length r = w) rows -> length (concat rows) = length rows * w.
Proof.
  induction 1 as [|r rs Hr _ IH]; [reflexivity|].
  cbn [concat length]. rewrite length_app, IH, Hr. lia.
Qed.

Lemma length_pairs {A : Type} (f g : A -> float) (l : list A) :
  length (concat (map (fun a => [f a; g a]) l)) = length l * 2.
Proof. induction l as [|a l IH]; [reflexivity|]. cbn [map concat length app]. lia. Qed.

(** The two writes of one turn of the loop fill the next block of a
    zero-initialised array with the pairs of the two lanes. *)
Lemma set_lane_next (m n c : nat) (done : list (list float)) (v1 v2 : list float) :
  Forall (fun r => length r = n * 2) done ->
  length v1 = n -> length v2 = n ->
  set_lane
    (set_lane
       (mk_ndarray [m; n; 2]
          (concat done ++ replicate (Datatypes.S c * (n * 2)) F64.zero))
       (length done) 0 v1)
    (length done) 1 v2
  = mk_ndarray [m; n; 2]
      (concat (done ++ [concat (zip_with (fun x y => [x; y]) v1 v2)])
       ++ replicate (c * (n * 2)) F64.zero).
Proof.
  intros Hdone H1 H2.
  pose proof (length_concat_blocks _ _ Hdone) as Hlen.
  unfold set_lane at 2; cbn [shape buffer].
  rewrite take_app_length' by (symmetry; exact Hlen).
  rewrite drop_app_length' by (symmetry; exact Hlen).
  rewrite drop_app_ge by lia.
  replace (length done * (n * 2) + n * 2 - length (concat done)) with (n * 2) by lia.
  rewrite drop_replicate.
  replace (Datatypes.S c * (n * 2) - n * 2) with (c * (n * 2)) by lia.
  replace (Datatypes.S c * (n * 2)) with (n * 2 + c * (n * 2)) by lia.
  rewrite blocks_replicate.
  assert (E1 : zip_with (fun (cell : list float) x => <[0 := x]> cell)
                 (replicate n (replicate 2 F64.zero)) v1
               = map (fun x => [x; F64.zero]) v1).
  { clear - H1. revert n H1. induction v1 as [|x v1 IH]; intros [|n] H;
      try discriminate; [reflexivity|].
    cbn [replicate zip_with map]. f_equal. apply IH. now injection H. }
  rewrite E1. clear E1.
  unfold set_lane; cbn [shape buffer].
  rewrite take_app_length' by (symmetry; exact Hlen).
  rewrite drop_app_length' by (symmetry; exact Hlen).
  set (B1 := concat (map (fun x => [x; F64.zero]) v1)).
  assert (HB1 : length B1 = n * 2)
    by (subst B1; rewrite (length_pairs (fun x => x) (fun _ => F64.zero)); lia).
  rewrite blocks_app by exact HB1.
  assert (HB : blocks n 2 B1 = map (fun x => [x; F64.zero]) v1).
  { subst B1. rewrite <- H1.
    rewrite <- (length_map (fun x => [x; F64.zero]) v1).
    apply blocks_concat.
    apply List.Forall_map, List.Forall_forall; intros; reflexivity. }
  rewrite HB. clear HB.
  rewrite drop_app_ge by lia. rewrite drop_app_ge by lia.
  rewrite drop_replicate.
  f_equal. rewrite concat_app. cbn [concat]. rewrite app_nil_r, <- app_assoc.
  f_equal. f_equal.
  - f_equal. clear. revert v2. induction v1 as [|x v1 IH]; intros [|y v2];
      try reflexivity. cbn [map zip_with]. f_equal. apply IH.
  - f_equal. lia.
Qed.

Lemma lanes_of_rows (t : float * float) (S : list (float * float)) :
  concat (zip_with (fun x y => [x; y])
            (map (F64.maximum t.1) (map fst S))
            (map (F64.minimum t.2) (map snd S)))
  = concat (map (fun p => [p.1; p.2]) (map (common_bounds t) S)).
Proof.
  induction S as [|s S IH]; [reflexivity|].
  cbn [map zip_with concat]. now rewrite IH.
Qed.

Lemma ratio_row_entries (t : float * float) (S : list (float * float)) :
  map (fun v => F64.div v (F64.add (F64.sub t.2 t.1) F64.one))
      (map (F64.clip_min F64.zero)
           (map (fun v => F64.add v F64.one)
                (zip_with F64.sub (map (F64.minimum t.2) (map snd S))
                          (map (F64.maximum t.1) (map fst S)))))
  = map (ratio_entry t) S.
Proof.
  induction S as [|s S IH]; [reflexivity|].
  cbn [map zip_with]. now rewrite IH.
Qed.

Lemma segment_intersection_loop (T S : list (float * float)) (flag : bool) :
  forall (todo done : list (float * float)) (rest : list float),
    T = done ++ todo ->
    for_each
      (fun (st : ndarray * option ndarray) i =>
         let intersect := st.1 in
         let ratio_target := st.2 in
         let* t1 := item (of_rows T) i 1 in
         let* t0 := item (of_rows T) i 0 in
         let target_size := F64.add (F64.sub t1 t0) F64.one in
         let* t0 := item (of_rows T) i 0 in
         let* c0 := column (of_rows S) 0 in
         let tt1 := map (F64.maximum t0) (buffer c0) in
         let* t1 := item (of_rows T) i 1 in
         let* c1 := column (of_rows S) 1 in
         let tt2 := map (F64.minimum t1) (buffer c1) in
         let intersect := set_lane (set_lane intersect i 0 tt1) i 1 tt2 in
         match ratio_target with
         | Some ratio =>
             let isegs_size :=
               map (F64.clip_min F64.zero)
                   (map (fun v => F64.add v F64.one) (zip_with F64.sub tt2 tt1)) in
             Ok (intersect,
                 Some (set_row ratio i
                         (map (fun v => F64.div v target_size) isegs_size)))
         | None => Ok (intersect, None)
         end)
      (seq (length done) (length todo))
      (mk_ndarray [length T; length S; 2]
         (concat (map (fun t => concat (map (fun p => [p.1; p.2])
                                            (map (common_bounds t) S))) done)
          ++ replicate (length todo * (length S * 2)) F64.zero),
       if flag
       then Some (mk_ndarray [length T; length S]
                    (concat (map (fun t => map (ratio_entry t) S) done) ++ rest))
       else None)
    = Ok (mk_ndarray [length T; length S; 2]
            (concat (map (fun t => concat (map (fun p => [p.1; p.2])
                                               (map (common_bounds t) S))) T)),
          if flag
          then Some (mk_ndarray [length T; length S]
                       (concat (map (fun t => map (ratio_entry t) S) T)
                        ++ drop (length todo * length S) rest))
          else None).
Proof.
  set (body := fun (st : ndarray * option ndarray) (i : nat) => _).
  set (cube := fun t : float * float => _).
  induction todo as [|t todo IH]; intros done rest HT.
  - rewrite app_nil_r in HT. subst done. cbn [length seq for_each Nat.mul replicate].
    now rewrite app_nil_r.
  - cbn [length seq for_each].
    assert (Ht : T !! length done = Some t)
      by (rewrite HT; apply list_lookup_middle; reflexivity).
    destruct (item_of_rows T _ _ Ht) as [H0 H1].
    unfold body at 1. cbn [fst snd].
    rewrite H0, H1, !column_of_rows by lia. cbn [rbind buffer Nat.eqb].
    pose proof (set_lane_next (length T) (length S) (length todo)
                  (map cube done)
                  (map (F64.maximum t.1) (map fst S))
                  (map (F64.minimum t.2) (map snd S))) as Hset.
    rewrite !length_map in Hset.
    change (fun r : float * float => r.1) with (@fst float float).
    change (fun r : float * float => r.2) with (@snd float float).
    rewrite Hset; clear Hset.
    2:{ apply List.Forall_map, List.Forall_forall. intros r _. subst cube.
        cbn beta. rewrite (length_pairs fst snd), length_map. reflexivity. }
    2,3: reflexivity.
    rewrite lanes_of_rows. change (concat (map _ (map (common_bounds t) S))) with (cube t).
    specialize (IH (done ++ [t]) (drop (length S) rest)).
    rewrite !map_app, length_app in IH. cbn [map length] in IH.
    replace (length done + 1) with (Datatypes.S (length done)) in IH by lia.
    destruct flag.
    + rewrite ratio_row_entries.
      pose proof (set_row_next (length S) (map (fun t => map (ratio_entry t) S) done)
                    (map (ratio_entry t) S) rest (length T)) as Hrow.
      rewrite !length_map in Hrow. rewrite Hrow; clear Hrow.
      * cbn [rbind]. rewrite IH by (rewrite <- app_assoc; exact HT).
        rewrite drop_drop. reflexivity.
      * apply List.Forall_map, List.Forall_forall. intros r _. apply length_map.
      * reflexivity.
    + cbn [rbind]. now rewrite IH by (rewrite <- app_assoc; exact HT).
Qed.

Lemma segment_intersection_of_rows (T S : list (float * float)) (flag : bool) :
  segment_intersection (of_rows T) (of_rows S) flag
  = Ok (of_pairs (length S) (map (fun t => map (common_bounds t) S) T),
        if flag
        then Some (of_matrix (length S) (map (fun t => map (ratio_entry t) S) T))
        else None).
Proof.
  pose proof (segment_intersection_loop T S flag T []
                (replicate (length T * length S) F64.zero) eq_refl) as H.
  cbn [length map concat app seq] in H.
  unfold segment_intersection.
  change (ndim (of_rows T)) with 2. change (ndim (of_rows S)) with 2.
  change (hd 0 (shape (of_rows T))) with (length T).
  change (hd 0 (shape (of_rows S))) with (length S).
  cbn [Nat.eqb negb orb].
  unfold np_zeros; cbn [size_of foldr].
  rewrite !Nat.mul_1_r.
  unfold of_pairs, of_matrix. rewrite !length_map, map_map.
  destruct flag.
  - etransitivity; [exact H|].
    rewrite drop_ge by (rewrite length_replicate; lia).
    now rewrite app_nil_r.
  - exact H.
Qed.

(** X6. For segment batches, [segment_intersection] returns the
    [m x n x 2] array whose cell [(i, j)] holds the larger of the two
    starts and the smaller of the two ends of target [i] and test [j];
    with [return_ratio_target] it also returns the [m x n] matrix of
    the overlaps [clip(end - start + 1, min=0)] divided by the size of
    the target segment, and without it no second array. *)
Theorem segment_intersection_entries (target test : ndarray) (flag : bool) :
  segment_batch target -> segment_batch test ->
  segment_intersection target test flag
  = Ok (of_pairs (length (segments test))
          (map (fun t => map (common_bounds t) (segments test)) (segments target)),
        if flag
        then Some (of_matrix (length (segments test))
                     (map (fun t => map (ratio_entry t) (segments test))
                          (segments target)))
        else None).
Proof.
  intros HT HS.
  pose proof (of_rows_segments target HT) as ET.
  pose proof (of_rows_segments test HS) as ES.
  remember (segments target) as T eqn:HeqT. remember (segments test) as S eqn:HeqS.
  clear HeqT HeqS. subst target test.
  apply segment_intersection_of_rows.
Qed.

Lemma segment_intersection_entries_witness :
  segment_intersection (of_rows [seg_1_4]) (of_rows [seg_3_11]) true
  = Ok (of_pairs 1 [[(F64.of_Z 3, F64.of_Z 4)]],
        Some (of_matrix 1 [[F64.half]])).
Proof.
  assert (H1 : segment_batch (of_rows [seg_1_4])) by (split; reflexivity).
  assert (H2 : segment_batch (of_rows [seg_3_11])) by (split; reflexivity).
  rewrite (segment_intersection_entries _ _ true H1 H2).
  vm_compute. reflexivity.
Defined.

(** X7. The matrix of [segment_iou] is computed from the array of
    [segment_intersection] on the same batches: entry [(i, j)] is the
    overlap [clip(end - start + 1, min=0)] of the intersection stored in
    cell [(i, j)], divided by the two sizes minus that overlap. *)
Theorem segment_iou_from_intersection (mem : raw) (target test : ndarray) :
  segment_batch target -> segment_batch test ->
  exists cells : list (list (float * float)),
    segment_intersection target test false
    = Ok (of_pairs (length (segments test)) cells, None) /\
    segment_iou mem target test
    = Ok (of_matrix (length (segments test))
            (zip_with (fun t row => zip_with (iou_of_bounds t) (segments test) row)
                      (segments target) cells)).
Proof.
  intros HT HS.
  pose proof (of_rows_segments target HT) as ET.
  pose proof (of_rows_segments test HS) as ES.
  remember (segments target) as T eqn:HeqT. remember (segments test) as S eqn:HeqS.
  clear HeqT HeqS. subst target test.
  rewrite segment_intersection_of_rows, segment_iou_of_rows.
  eexists. split; [reflexivity|]. do 2 f_equal.
  clear. induction T as [|t T IH]; [reflexivity|].
  cbn [map zip_with]. rewrite <- IH. f_equal.
  clear. induction S as [|s S IH]; [reflexivity|].
  cbn [map zip_with]. now rewrite <- IH.
Qed.

Lemma segment_iou_from_intersection_witness :
  exists cells : list (list (float * float)),
    segment_intersection (of_rows [seg_1_4]) (of_rows [seg_3_11]) false
    = Ok (of_pairs 1 cells, None) /\
    segment_iou zeros_mem (of_rows [seg_1_4]) (of_rows [seg_3_11])
    = Ok (of_matrix 1
            (zip_with (fun t row => zip_with (iou_of_bounds t) [seg_3_11] row)
                      [seg_1_4] cells)).
Proof.
  apply (segment_iou_from_intersection zeros_mem (of_rows [seg_1_4])
           (of_rows [seg_3_11])); split; reflexivity.
Defined.



(** X9. Swapping the two batches transposes the array of intersections:
    cell [(i, j)] of [segment_intersection(A, B)] and cell [(j, i)] of
    [segment_intersection(B, A)] hold the same bounds, up to the sign of
    a zero. *)
Theorem segment_intersection_swap (A B : ndarray) :
  segment_batch A -> segment_batch B ->
  exists cells cells',
    segment_intersection A B false
    = Ok (of_pairs (length (segments B)) cells, None) /\
    segment_intersection B A false
    = Ok (of_pairs (length (segments A)) cells', None) /\
    forall i j row p,
      cells !! i = Some row -> row !! j = Some p ->
      exists row' p',
        cells' !! j = Some row' /\ row' !! i = Some p' /\
        same_value p.1 p'.1 /\ same_value p.2 p'.2.
Proof.
  intros HA HB.
  pose proof (of_rows_segments A HA) as EA.
  pose proof (of_rows_segments B HB) as EB.
  remember (segments A) as la eqn:Hla. remember (segments B) as lb eqn:Hlb.
  clear Hla Hlb. subst A B.
  rewrite !segment_intersection_of_rows.
  do 2 eexists. split; [reflexivity|]. split; [reflexivity|].
  intros i j row p Hrow Hp.
  rewrite list_lookup_fmap in Hrow.
  destruct (la !! i) as [a|] eqn:Ea; [|discriminate].
  injection Hrow as <-.
  rewrite list_lookup_fmap in Hp.
  destruct (lb !! j) as [b|] eqn:Eb; [|discriminate].
  injection Hp as <-.
  exists (map (common_bounds b) la), (common_bounds b a).
  rewrite !list_lookup_fmap, Ea, Eb. repeat split.
  - apply maximum_swap.
  - apply minimum_swap.
Qed.

Lemma segment_intersection_swap_witness :
  exists cells cells',
    segment_intersection (of_rows [seg_1_4]) (of_rows [seg_3_11]) false
    = Ok (of_pairs 1 cells, None) /\
    segment_intersection (of_rows [seg_3_11]) (of_rows [seg_1_4]) false
    = Ok (of_pairs 1 cells', None) /\
    forall i j row p,
      cells !! i = Some row -> row !! j = Some p ->
      exists row' p',
        cells' !! j = Some row' /\ row' !! i = Some p' /\
        same_value p.1 p'.1 /\ same_value p.2 p'.2.
Proof.
  apply (segment_intersection_swap (of_rows [seg_1_4]) (of_rows [seg_3_11]));
    split; reflexivity.
Defined.

(** ** Unit scaling, row by row *)

Lemma imap_compose_rows {A B C : Type} (f : nat -> A -> B) (g : nat -> B -> C)
    (l : list A) :
  imap g (imap f l) = imap (fun i a => g i (f i a)) l.
Proof.
  revert f g. induction l as [|a l IH]; intros f g; [reflexivity|].
  cbn [imap]. f_equal. apply IH.
Qed.

(** The three column updates on a batch held at [Y]. *)
Lemma scaling_of_rows (Y : nat) (T : Z) (init : option (list float))
    (rows : list (float * float)) (st : gmap nat ndarray) :
  st !! Y = Some (of_rows rows) -> fits init (length rows) ->
  (do* _ :=
     match init with
     | Some v =>
         do* y := load Y in
         if negb (length v =? hd 0 (shape y)) then mraise ValueError
         else update_column Y (fun i a => F64.sub a (default a (v !! i))) 0
     | None => mret tt
     end in
   do* _ := update_column Y (fun _ a => F64.div a (F64.of_Z (T - 1))) 0 in
   do* _ := update_column Y (fun _ a => F64.div a (F64.of_Z T)) 1 in
   mret Y)%store st
  = (Ok Y, <[Y := of_rows (imap (unit_row T init) rows)]> st).
Proof.
  intros HY Hfit.
  assert (Hload : st !!! Y = of_rows rows) by (apply lookup_total_correct; exact HY).
  assert (Hupd : forall (g : nat -> float -> float) (k : nat)
                   (rs : list (float * float)) (s : gmap nat ndarray),
             k < 2 -> s !!! Y = of_rows rs ->
             update_column Y g k s
             = (Ok tt, <[Y := of_rows (imap (fun i r => if k =? 0 then (g i r.1, r.2)
                                                       else (r.1, g i r.2)) rs)]> s)).
  { intros g k rs s Hk Hs. unfold update_column, mbind, load, lift, save.
    rewrite Hs, map_column_of_rows by exact Hk. reflexivity. }
  destruct init as [v|]; cbn [fits] in Hfit.
  - unfold mbind at 1. unfold mbind at 1, load at 1. rewrite Hload.
    change (hd 0 (shape (of_rows rows))) with (length rows).
    rewrite Hfit, Nat.eqb_refl. cbn [negb].
    rewrite (Hupd _ 0 rows st) by (lia || exact Hload). cbn [Nat.eqb].
    unfold mbind at 1.
    rewrite (Hupd _ 0 _ _) by (lia || apply lookup_total_insert_eq). cbn [Nat.eqb].
    unfold mbind at 1.
    rewrite (Hupd _ 1 _ _) by (lia || apply lookup_total_insert_eq). cbn [Nat.eqb].
    unfold mret. rewrite !insert_insert_eq, !imap_compose_rows. reflexivity.
  - unfold mbind at 1, mret at 1.
    unfold mbind at 1.
    rewrite (Hupd _ 0 rows st) by (lia || exact Hload). cbn [Nat.eqb].
    unfold mbind at 1.
    rewrite (Hupd _ 1 _ _) by (lia || apply lookup_total_insert_eq). cbn [Nat.eqb].
    unfold mret. rewrite !insert_insert_eq, !imap_compose_rows. reflexivity.
Qed.

Lemma segment_unit_scaling_of_rows (X : nat) (T : Z) (init : option (list float))
    (copy : bool) (rows : list (float * float)) (st : gmap nat ndarray) :
  st !! X = Some (of_rows rows) -> fits init (length rows) ->
  let Y := if copy then fresh (dom st) else X in
  segment_unit_scaling X T init copy st
  = (Ok Y, <[Y := of_rows (imap (unit_row T init) rows)]> st).
Proof.
  intros HX Hfit Y.
  assert (Hload : st !!! X = of_rows rows) by (apply lookup_total_correct; exact HX).
  unfold segment_unit_scaling.
  unfold mbind at 1, load at 1. rewrite Hload.
  change (ndim (of_rows rows)) with 2. cbn [Nat.eqb negb].
  unfold mbind at 1. destruct copy; subst Y.
  - unfold alloc. rewrite (scaling_of_rows _ T init rows).
    + now rewrite insert_insert_eq.
    + apply lookup_insert_eq.
    + exact Hfit.
  - unfold mret at 1. now apply scaling_of_rows.
Qed.

(** X10. On a segment batch, with a reference [init] that is absent or
    has one entry per row, [segment_unit_scaling] returns and row [i] of
    the result is [((center - init[i]) / (T - 1), duration / T)] (no
    offset without [init]). The result lives at the address of [X]
    itself by default and at a fresh address, [X] keeping its contents,
    when [copy] is set. *)
Theorem segment_unit_scaling_rows (st : gmap nat ndarray) (X : nat) (T : Z)
    (init : option (list float)) (copy : bool) (x : ndarray) :
  st !! X = Some x -> segment_batch x -> fits init (length (segments x)) ->
  let Y := if copy then fresh (dom st) else X in
  let st' := <[Y := of_rows (imap (unit_row T init) (segments x))]> st in
  segment_unit_scaling X T init copy st = (Ok Y, st') /\
  (copy = true -> Y <> X /\ st' !! X = Some x).
Proof.
  intros HX Hx Hfit Y st'.
  pose proof (of_rows_segments x Hx) as Ex.
  remember (segments x) as rows eqn:Hrows. clear Hrows. subst x.
  split.
  - now apply segment_unit_scaling_of_rows.
  - intros ->. subst Y st'.
    assert (Hne : fresh (dom st) <> X).
    { intros E. apply (is_fresh (dom st)). rewrite E. apply elem_of_dom. eauto. }
    split; [exact Hne|]. now rewrite lookup_insert_ne.
Qed.

Lemma segment_unit_scaling_rows_witness :
  segment_unit_scaling 0 5 (Some [F64.of_Z 2]) true sample_store
  = (Ok (fresh (dom sample_store)),
     <[fresh (dom sample_store) :=
         of_rows (imap (unit_row 5 (Some [F64.of_Z 2]))
                       (segments (of_rows [(F64.of_Z 4, F64.of_Z 8)])))]>
       sample_store).
Proof.
  apply (segment_unit_scaling_rows sample_store 0 5 (Some [F64.of_Z 2]) true
           (of_rows [(F64.of_Z 4, F64.of_Z 8)]));
    [reflexivity|split; reflexivity|reflexivity].
Defined.

Lemma div_by_zero_not_finite (a : float) :
  is_finite (F64.div a (F64.of_Z 0)) = false.
Proof. destruct a as [[]|[]| |[] m e]; reflexivity. Qed.

(** X11. A duration [T = 1] divides every center by [T - 1 = 0]: the
    call still returns, and no center of the result is a finite number
    (each is an infinity or [nan]). With [T = 0] the same happens to
    every duration. *)
Theorem segment_unit_scaling_degenerate (st : gmap nat ndarray) (X : nat)
    (init : option (list float)) (x : ndarray) :
  st !! X = Some x -> segment_batch x -> fits init (length (segments x)) ->
  (exists rows,
     segment_unit_scaling X 1 init false st = (Ok X, <[X := of_rows rows]> st) /\
     length rows = length (segments x) /\
     Forall (fun r => is_finite r.1 = false) rows) /\
  (exists rows,
     segment_unit_scaling X 0 init false st = (Ok X, <[X := of_rows rows]> st) /\
     length rows = length (segments x) /\
     Forall (fun r => is_finite r.2 = false) rows).
Proof.
  intros HX Hx Hfit.
  pose proof (of_rows_segments x Hx) as Ex.
  remember (segments x) as rows eqn:Hrows. clear Hrows. subst x.
  split.
  - exists (imap (unit_row 1 init) rows).
    rewrite (segment_unit_scaling_of_rows X 1 init false rows st HX Hfit).
    split; [reflexivity|]. split; [apply length_imap|].
    apply Forall_forall. intros r Hr.
    apply elem_of_lookup_imap_1 in Hr. destruct Hr as (i & r0 & -> & _).
    apply div_by_zero_not_finite.
  - exists (imap (unit_row 0 init) rows).
    rewrite (segment_unit_scaling_of_rows X 0 init false rows st HX Hfit).
    split; [reflexivity|]. split; [apply length_imap|].
    apply Forall_forall. intros r Hr.
    apply elem_of_lookup_imap_1 in Hr. destruct Hr as (i & r0 & -> & _).
    apply div_by_zero_not_finite.
Qed.

Lemma segment_unit_scaling_degenerate_witness :
  exists rows,
    segment_unit_scaling 0 1 None false sample_store
    = (Ok 0, <[0 := of_rows rows]> sample_store) /\
    length rows = length (segments (of_rows [(F64.of_Z 4, F64.of_Z 8)])) /\
    Forall (fun r => is_finite r.1 = false) rows.
Proof.
  apply (segment_unit_scaling_degenerate sample_store 0 None
           (of_rows [(F64.of_Z 4, F64.of_Z 8)]));
    [reflexivity|split; reflexivity|exact I].
Defined.

(** X12. The two checks come before any write: an input that is not
    2-dimensional, or a reference whose size is not the number of rows,
    makes the call raise [ValueError] and leaves [X], like every array
    that was in the store, as it was. *)
Theorem segment_unit_scaling_rejects (st : gmap nat ndarray) (X : nat) (T : Z)
    (init : option (list float)) (copy : bool) (x : ndarray) :
  st !! X = Some x ->
  ndim x <> 2 \/
  (exists v, init = Some v /\ length v <> hd 0 (shape x)) ->
  exists st',
    segment_unit_scaling X T init copy st = (Raise ValueError, st') /\
    forall Z, is_Some (st !! Z) -> st' !! Z = st !! Z.
Proof.
  intros HX Hbad.
  assert (Hload : st !!! X = x) by (apply lookup_total_correct; exact HX).
  unfold segment_unit_scaling. unfold mbind at 1, load at 1. rewrite Hload.
  destruct (Nat.eqb_spec (ndim x) 2) as [E2|N2]; cbn [negb].
  2:{ exists st. split; [reflexivity|auto]. }
  destruct Hbad as [Hn|(v & -> & Hv)]; [contradiction|].
  unfold mbind at 1. destruct copy.
  - unfold alloc. set (p := fresh (dom st)).
    unfold mbind at 1. unfold mbind at 1, load at 1.
    rewrite lookup_total_insert_eq.
    destruct (Nat.eqb_spec (length v) (hd 0 (shape x))) as [E|_]; [contradiction|].
    cbn [negb]. unfold mraise. eexists. split; [reflexivity|].
    intros Z HZ. apply lookup_insert_ne. intros <-.
    apply (is_fresh (dom st)). apply elem_of_dom. exact HZ.
  - unfold mret at 1. unfold mbind at 1. unfold mbind at 1, load at 1.
    rewrite Hload.
    destruct (Nat.eqb_spec (length v) (hd 0 (shape x))) as [E|_]; [contradiction|].
    cbn [negb]. unfold mraise. eexists. split; [reflexivity|auto].
Qed.

Lemma segment_unit_scaling_rejects_witness :
  exists st',
    segment_unit_scaling 0 5 (Some []) false sample_store
    = (Raise ValueError, st') /\
    forall Z, is_Some (sample_store !! Z) -> st' !! Z = sample_store !! Z.
Proof.
  apply (segment_unit_scaling_rejects sample_store 0 5 (Some []) false
           (of_rows [(F64.of_Z 4, F64.of_Z 8)])); [reflexivity|].
  right. exists []. split; [reflexivity|]. cbn. lia.
Defined.

(** X13. An exception does not undo the writes made before it. On an
    array with a single column, the default in-place call has already
    divided that column by [T - 1] when the update of the missing second
    column raises [IndexError]: the caller's array is left changed. *)
Theorem segment_unit_scaling_one_column (st : gmap nat ndarray) (X : nat)
    (T : Z) (col : list float) :
  st !! X = Some (mk_ndarray [length col; 1] col) ->
  segment_unit_scaling X T None false st
  = (Raise IndexError,
     <[X := mk_ndarray [length col; 1]
              (map (fun a => F64.div a (F64.of_Z (T - 1))) col)]> st).
Proof.
  intros HX.
  assert (Hload : st !!! X = mk_ndarray [length col; 1] col)
    by (apply lookup_total_correct; exact HX).
  unfold segment_unit_scaling. unfold mbind at 1, load at 1. rewrite Hload.
  cbn [ndim shape length Nat.eqb negb].
  unfold mbind at 1, mret at 1. unfold mbind at 1, mret at 1.
  unfold mbind at 1, update_column at 1. unfold mbind at 1, load at 1.
  rewrite Hload. unfold mbind at 1, lift at 1.
  unfold map_column at 1. cbn [shape buffer size_of foldr Nat.ltb Nat.leb].
  unfold save at 1.
  unfold mbind at 1, update_column at 1. unfold mbind at 1, load at 1.
  rewrite lookup_total_insert_eq. unfold mbind at 1, lift at 1.
  unfold map_column at 1. cbn [shape buffer size_of foldr Nat.ltb Nat.leb].
  do 3 f_equal.
  etransitivity; [|apply (imap_const (fun a => F64.div a (F64.of_Z (T - 1))))].
  apply imap_ext. intros p v _. cbn beta.
  now rewrite Nat.mod_1_r.
Qed.

Lemma segment_unit_scaling_one_column_witness :
  segment_unit_scaling 0 5 None false
    (<[0 := mk_ndarray [length [F64.of_Z 4]; 1] [F64.of_Z 4]]> ∅)
  = (Raise IndexError,
     <[0 := mk_ndarray [length [F64.of_Z 4]; 1]
              (map (fun a => F64.div a (F64.of_Z (5 - 1))) [F64.of_Z 4])]>
       (<[0 := mk_ndarray [length [F64.of_Z 4]; 1] [F64.of_Z 4]]> ∅)).
Proof.
  apply (segment_unit_scaling_one_column _ 0 5 [F64.of_Z 4]). reflexivity.
Defined.

(** ** Reading dumps of any length *)

Lemma blocks_app_le {A : Type} (n sz : nat) (l1 l2 : list A) :
  n * sz <= length l1 -> blocks n sz (l1 ++ l2) = blocks n sz l1.
Proof.
  revert l1. induction n as [|n IH]; intros l1 Hl; [reflexivity|].
  cbn [blocks]. rewrite take_app_le, drop_app_le by lia. f_equal.
  apply IH. rewrite length_drop. lia.
Qed.

(** What [c3d_read_feature] does with a file of at least 20 bytes. *)
Lemma c3d_read_feature_cases (fs : gmap string (list byte)) (filename : string)
    (header rest : list byte) :
  fs !! filename = Some (header ++ rest) ->
  length header = 20 ->
  c3d_read_feature fs filename
  = let m := wrap64 (product (decode_ints 5 header)) in
    if (0 <? m)%Z then
      if (4 * m <=? Z.of_nat (length rest))%Z
      then Ok (decode_ints 5 header, decode_floats (Z.to_nat m) rest)
      else Raise EOFError
    else Ok (decode_ints 5 header, []).
Proof.
  intros Hfs Hh. unfold c3d_read_feature. rewrite Hfs.
  unfold fromfile at 1. cbn [Z.ltb Z.compare].
  replace (4 * 5 <=? Z.of_nat (length (header ++ rest)))%Z with true
    by (symmetry; apply Z.leb_le; rewrite length_app; lia).
  change (Z.to_nat 5) with 5. change (4 * 5) with 20.
  rewrite blocks_app by (rewrite Hh; reflexivity).
  rewrite drop_app_length' by (symmetry; exact Hh).
  cbn [rbind]. fold (decode_ints 5 header).
  assert (Hm : last_item (cumprod (decode_ints 5 header))
               = Ok (wrap64 (product (decode_ints 5 header)))).
  { unfold decode_ints. cbn [blocks map].
    apply last_cumprod. apply int32_of_block. rewrite length_take. lia. }
  rewrite Hm. cbn [rbind]. cbv zeta. unfold fromfile.
  destruct (0 <? wrap64 (product (decode_ints 5 header)))%Z; [|reflexivity].
  destruct (4 * wrap64 (product (decode_ints 5 header)) <=? Z.of_nat (length rest))%Z;
    reflexivity.
Qed.

Lemma c3d_read_feature_short (fs : gmap string (list byte)) (filename : string)
    (f : list byte) :
  fs !! filename = Some f -> length f < 20 ->
  c3d_read_feature fs filename = Raise EOFError.
Proof.
  intros Hfs Hf. unfold c3d_read_feature. rewrite Hfs.
  unfold fromfile at 1. cbn [Z.ltb Z.compare].
  replace (4 * 5 <=? Z.of_nat (length f))%Z with false
    by (symmetry; apply Z.leb_gt; lia).
  reflexivity.
Qed.



(** X15. Bytes after the last value are never looked at: a dump that
    reads successfully reads to the same header and values when
    anything is appended to the file. *)
Theorem c3d_read_feature_trailing (fs : gmap string (list byte))
    (filename : string) (f extra : list byte) (r : list Z * list float) :
  fs !! filename = Some f ->
  c3d_read_feature fs filename = Ok r ->
  c3d_read_feature (<[filename := f ++ extra]> fs) filename = Ok r.
Proof.
  intros Hfs Hr.
  destruct (Nat.lt_ge_cases (length f) 20) as [Hlt|Hge].
  { rewrite (c3d_read_feature_short fs filename f Hfs Hlt) in Hr. discriminate. }
  assert (Hh : length (take 20 f) = 20) by (rewrite length_take; lia).
  rewrite <- (take_drop 20 f) in Hfs.
  rewrite (c3d_read_feature_cases fs filename _ _ Hfs Hh) in Hr.
  assert (Hfs' : <[filename := f ++ extra]> fs !! filename
                 = Some (take 20 f ++ (drop 20 f ++ extra))).
  { rewrite lookup_insert_eq, app_assoc, take_drop. reflexivity. }
  rewrite (c3d_read_feature_cases _ filename _ _ Hfs' Hh).
  cbv zeta in *.
  set (m := wrap64 (product (decode_ints 5 (take 20 f)))) in *.
  destruct (Z.ltb_spec 0 m) as [Hm|Hm]; [|exact Hr].
  destruct (Z.leb_spec (4 * m) (Z.of_nat (length (drop 20 f)))) as [Hle|Hgt];
    [|discriminate].
  replace (4 * m <=? Z.of_nat (length (drop 20 f ++ extra)))%Z with true
    by (symmetry; apply Z.leb_le; rewrite length_app; lia).
  rewrite <- Hr. do 2 f_equal. unfold decode_floats. f_equal.
  apply blocks_app_le. lia.
Qed.

Lemma c3d_read_feature_trailing_witness :
  c3d_read_feature
    (<["clip/1.fc7-1"%string := (header_1114 ++ values_1234) ++ header_1114]>
       sample_files) "clip/1.fc7-1"
  = Ok (decode_ints 5 header_1114, decode_floats 4 values_1234).
Proof.
  apply (c3d_read_feature_trailing sample_files "clip/1.fc7-1"
           (header_1114 ++ values_1234) header_1114); reflexivity.
Defined.

(** X16. A path that names no file makes [c3d_read_feature] raise
    [IOError], and a file shorter than the 20 bytes of the header makes
    it raise [EOFError]. *)
Theorem c3d_read_feature_fails (fs : gmap string (list byte))
    (filename : string) :
  (fs !! filename = None -> c3d_read_feature fs filename = Raise IOError) /\
  (forall f, fs !! filename = Some f -> length f < 20 ->
             c3d_read_feature fs filename = Raise EOFError).
Proof.
  split.
  - intros H. unfold c3d_read_feature. now rewrite H.
  - intros f Hf Hlen. now apply (c3d_read_feature_short fs filename f).
Qed.

Lemma c3d_read_feature_fails_witness :
  c3d_read_feature sample_files "clip/3.fc7-1" = Raise IOError /\
  c3d_read_feature (<["clip/3.fc7-1"%string := values_1234]> sample_files)
    "clip/3.fc7-1" = Raise EOFError.
Proof.
  split.
  - apply (proj1 (c3d_read_feature_fails sample_files "clip/3.fc7-1")).
    reflexivity.
  - apply (proj2 (c3d_read_feature_fails
                    (<["clip/3.fc7-1"%string := values_1234]> sample_files)
                    "clip/3.fc7-1") values_1234); [reflexivity|cbn; lia].
Defined.
(** ** Stacking any number of dumps *)

(** The loop of [c3d_stack_feature] over the dumps after the first:
    dump [k] of the rest lands in row [k]. *)
Lemma stack_loop (mem : raw) (fs : gmap string (list byte)) (n w : nat)
    (rest : list string) (datas : list (list float)) (B0 : list float) :
  Forall2 (fun f d => exists s, c3d_read_feature fs f = Ok (s, d) /\ length d = w)
          rest datas ->
  length rest < n ->
  for_each
    (fun arr (iv : nat * string) =>
       let* (_, data) := c3d_read_feature fs iv.2 in
       assign_row arr iv.1 data)
    (imap pair rest) (mk_ndarray [n; w] B0)
  = Ok (mk_ndarray [n; w]
          (concat (map (map to_float64) datas) ++ drop (length rest * w) B0)).
Proof.
  intros Hall Hn.
  pose proof (Forall2_length _ _ _ Hall) as Hlen.
  assert (Hws : List.Forall (fun d => length d = w) datas).
  { clear - Hall. induction Hall as [|f d fs' ds (s & _ & Hd) _ IH]; constructor; auto. }
  pose (I := fun (k : nat) (arr : ndarray) =>
               arr = mk_ndarray [n; w]
                       (concat (map (map to_float64) (take k datas))
                        ++ drop (k * w) B0)).
  destruct (for_each_enumerate
              (fun arr (iv : nat * string) =>
                 let* (_, data) := c3d_read_feature fs iv.2 in
                 assign_row arr iv.1 data)
              I rest 0 (mk_ndarray [n; w] B0)) as (arr & E & Harr).
  - reflexivity.
  - intros k f arr Hf Hk. cbn [Nat.add fst snd] in *. unfold I in Hk. subst arr.
    pose proof (lookup_lt_Some _ _ _ Hf) as Hlt.
    destruct (Forall2_lookup_l _ _ _ _ _ Hall Hf) as (d & Hd & s & Hread & Hw).
    rewrite Hread. cbn [rbind].
    unfold assign_row; cbn [shape].
    replace (k <? n) with true by (symmetry; apply Nat.ltb_lt; lia).
    rewrite Hw, Nat.eqb_refl.
    eexists. split; [reflexivity|]. unfold I.
    pose proof (set_row_next w (map (map to_float64) (take k datas))
                  (map to_float64 d) (drop (k * w) B0) n) as Hset.
    rewrite !length_map, length_take in Hset.
    replace (Nat.min k (length datas)) with k in Hset by lia.
    rewrite Hset; clear Hset.
    + rewrite (take_S_r datas k d Hd), map_app, drop_drop. cbn [map].
      do 3 f_equal. lia.
    + apply List.Forall_map. apply (Forall_take _ k) in Hws.
      revert Hws. apply List.Forall_impl. intros r Hr. now rewrite length_map.
    + exact Hw.
  - cbn [Nat.add] in *. unfold I in Harr. subst arr.
    rewrite Hlen, firstn_all in E. rewrite <- Hlen in E.
    etransitivity; [|exact E]. reflexivity.
Qed.

Lemma stack_first_row (mem : raw) (n w : nat) (data0 : list float) :
  length data0 = w ->
  assign_row (np_empty mem [Datatypes.S n; w]) 0 data0
  = Ok (mk_ndarray [Datatypes.S n; w]
          (map to_float64 data0 ++ map mem (seq w (n * w)))).
Proof.
  intros Hw. unfold assign_row, np_empty; cbn [shape Nat.ltb Nat.leb].
  rewrite Hw, Nat.eqb_refl. unfold set_row; cbn [shape buffer size_of foldr].
  cbn [Nat.mul Nat.add]. rewrite take_0. cbn [app]. do 3 f_equal.
  rewrite Nat.mul_1_r. change (w + n * w) with (Datatypes.S n * w).
  change (map mem) with (fmap (M := list) mem).
  rewrite <- fmap_drop, drop_seq. do 2 f_equal; lia.
Qed.

(** X17. For a single dump the stacked matrix is that dump: one row
    with the values read from the file. *)
Theorem c3d_stack_feature_single (mem : raw) (fs : gmap string (list byte))
    (f0 : string) (s0 : list Z) (data0 : list float) (w : nat) :
  c3d_read_feature fs f0 = Ok (s0, data0) ->
  last_item (cumprod s0) = Ok (Z.of_nat w) ->
  length data0 = w ->
  c3d_stack_feature mem fs [f0] = Ok (mk_ndarray [1; w] (map to_float64 data0)).
Proof.
  intros Hread Hlast Hw. unfold c3d_stack_feature.
  rewrite Hread. cbn [rbind]. rewrite Hlast. cbn [rbind].
  replace (Z.of_nat w <? 0)%Z with false by (symmetry; apply Z.ltb_ge; lia).
  rewrite Nat2Z.id. cbn [length].
  rewrite (stack_first_row mem 0 w data0 Hw). cbn [rbind imap for_each].
  cbn [Nat.mul seq map]. now rewrite app_nil_r.
Qed.

Lemma c3d_stack_feature_single_witness :
  c3d_stack_feature zeros_mem sample_files ["clip/1.fc7-1"%string]
  = Ok (mk_ndarray [1; 4] (map to_float64 (decode_floats 4 values_1234))).
Proof.
  apply (c3d_stack_feature_single zeros_mem sample_files "clip/1.fc7-1"
           (decode_ints 5 header_1114) (decode_floats 4 values_1234) 4);
    reflexivity.
Defined.

(** X18. For two dumps or more, all of the width announced by the first,
    the stacked matrix is shifted by one row: row [i] holds the values of
    dump [i + 1], the values of the first dump are overwritten, and the
    last row is what [np.empty] left there. *)
Theorem c3d_stack_feature_shifted (mem : raw) (fs : gmap string (list byte))
    (f0 : string) (rest : list string) (s0 : list Z) (data0 : list float)
    (datas : list (list float)) (w : nat) :
  c3d_read_feature fs f0 = Ok (s0, data0) ->
  last_item (cumprod s0) = Ok (Z.of_nat w) ->
  length data0 = w ->
  Forall2 (fun f d => exists s, c3d_read_feature fs f = Ok (s, d) /\ length d = w)
          rest datas ->
  rest <> [] ->
  c3d_stack_feature mem fs (f0 :: rest)
  = Ok (mk_ndarray [Datatypes.S (length rest); w]
          (concat (map (map to_float64) datas)
           ++ map mem (seq (length rest * w) w))).
Proof.
  intros Hread Hlast Hw Hall Hne. unfold c3d_stack_feature.
  rewrite Hread. cbn [rbind]. rewrite Hlast. cbn [rbind].
  replace (Z.of_nat w <? 0)%Z with false by (symmetry; apply Z.ltb_ge; lia).
  rewrite Nat2Z.id. cbn [length].
  rewrite (stack_first_row mem (length rest) w data0 Hw). cbn [rbind].
  rewrite (stack_loop mem fs (Datatypes.S (length rest)) w rest datas _ Hall)
    by lia.
  do 3 f_equal.
  destruct rest as [|f1 rest]; [contradiction|]. cbn [length].
  rewrite drop_app_ge by (rewrite length_map; lia).
  rewrite length_map, Hw, <- fmap_drop, drop_seq. do 2 f_equal; lia.
Qed.

Lemma c3d_stack_feature_shifted_witness :
  c3d_stack_feature zeros_mem sample_files
    ["clip/1.fc7-1"; "clip/2.fc7-1"]%string
  = Ok (mk_ndarray [Datatypes.S (length ["clip/2.fc7-1"%string]); 4]
          (concat (map (map to_float64) [decode_floats 4 values_4231])
           ++ map zeros_mem (seq (length ["clip/2.fc7-1"%string] * 4) 4))).
Proof.
  apply (c3d_stack_feature_shifted zeros_mem sample_files "clip/1.fc7-1"
           ["clip/2.fc7-1"%string] (decode_ints 5 header_1114)
           (decode_floats 4 values_1234) [decode_floats 4 values_4231] 4);
    try reflexivity.
  - constructor; [|constructor]. eexists. split; reflexivity.
  - discriminate.
Defined.

(** ** Conversions between bounds and centers *)

Lemma segment_format_d2b (rows : list (float * float)) :
  segment_format (of_rows rows) str_d2b = Ok (Some (of_rows (map d2b_row rows))).
Proof.
  unfold segment_format.
  cbn [String.eqb Ascii.eqb Bool.eqb str_c2b str_b2c str_d2b].
  rewrite !column_of_rows by lia. cbn [rbind Nat.eqb].
  unfold ew1, ew2; cbn [shape buffer].
  rewrite !zip_with_map, !map_map.
  rewrite (stack_last_rows _ _ rows). reflexivity.
Qed.

Section Bounds.
Local Open Scope Z_scope.

(** [c2b] on a row whose center is an integer up to the sign of a
    zero. *)
Lemma c2b_row_holds (c d : Z) (x : float) :
  in_range (c, d) -> holds x c ->
  exists x', c2b_row (x, F64.of_Z d) = (x', F64.of_Z (c - d / 2 + d - 1))
             /\ holds x' (c - d / 2).
Proof.
  intros Hr [->|[-> ->]]; [now apply c2b_row_int|].
  destruct (c2b_row_int 0 d Hr) as (x' & E & Hx').
  exists x'. split; [|exact Hx'].
  rewrite <- E. unfold c2b_row; cbn [fst snd].
  destruct Hr as [_ Hd]; cbn [fst snd] in Hd.
  assert (H50 : 2 ^ 50 = 1125899906842624) by reflexivity.
  assert (H53 : 2 ^ 53 = 9007199254740992) by reflexivity.
  rewrite half_dyadic, (of_Z_dyadic d), mul_pow2_dyadic by lia.
  rewrite dyadic_finite by lia. reflexivity.
Qed.

(** [b2c] on integer bounds: the center is half the sum, the tie going
    to the even neighbour, and the duration is the number of frames. *)
Lemma b2c_row_bounds (a b : Z) :
  bounds_in_range (a, b) ->
  exists y, b2c_row (F64.of_Z a, F64.of_Z b) = (y, F64.of_Z (b - a + 1))
            /\ holds y (half_even (a + b)).
Proof.
  unfold bounds_in_range; cbn [fst snd]. intros (Ha & Hb & Hab).
  assert (H48 : 2 ^ 48 = 281474976710656) by reflexivity.
  assert (H53 : 2 ^ 53 = 9007199254740992) by reflexivity.
  unfold b2c_row; cbn [fst snd]. eexists. split; [f_equal|].
  - rewrite one_of_Z, !of_Z_dyadic, sub_dyadic, add_dyadic by lia. reflexivity.
  - rewrite !of_Z_dyadic, add_dyadic by lia.
    rewrite half_dyadic, mul_pow2_dyadic by lia. cbn [Z.add].
    destruct (Z.eq_dec (a + b) 0) as [E|E].
    + rewrite E. left. reflexivity.
    + rewrite rint_dyadic_half by lia.
      destruct (Z.eq_dec (half_even (a + b)) 0) as [E0|E0].
      * rewrite E0. destruct (a + b <? 0); [right|left]; split; auto.
      * left. now apply normalize_nonzero.
Qed.

Lemma half_even_bounds (k : Z) : k / 2 <= half_even k <= k / 2 + 1.
Proof.
  unfold half_even. destruct (k mod 2 =? 0); [lia|].
  destruct (Z.even (k / 2)); lia.
Qed.

Lemma returned_start_spec (a b : Z) :
  half_even (a + b) - (b - a + 1) / 2 = returned_start a b.
Proof.
  unfold half_even, returned_start.
  destruct (Z.eqb_spec ((a + b) mod 2) 0) as [E2|E2].
  - assert (E4 : (a + b) mod 4 <> 1)
      by (Z.to_euclidean_division_equations; lia).
    destruct (Z.eqb_spec ((a + b) mod 4) 1) as [E|_]; [contradiction|].
    Z.to_euclidean_division_equations; lia.
  - destruct (Z.even ((a + b) / 2)) eqn:Ev.
    + apply Z.even_spec in Ev. destruct Ev as [q Hq].
      destruct (Z.eqb_spec ((a + b) mod 4) 1) as [E|E];
        Z.to_euclidean_division_equations; lia.
    + rewrite <- Z.negb_odd in Ev. apply negb_false_iff, Z.odd_spec in Ev.
      destruct Ev as [q Hq].
      destruct (Z.eqb_spec ((a + b) mod 4) 1) as [E|E];
        Z.to_euclidean_division_equations; lia.
Qed.

End Bounds.

(** X19. For integer centers of magnitude at most [2^50] and integer
    durations from 1 to [2^50], ['c2b'] returns integer bounds
    [[first, last]] that contain the center and span exactly the
    duration: [first <= center <= last] and [last - first + 1 =
    duration]; the first frame is [center - duration div 2]. *)
Theorem segment_format_c2b_span (rows : list (Z * Z)) :
  Forall in_range rows ->
  exists out : list (float * float),
    segment_format (int_batch rows) str_c2b = Ok (Some (of_rows out)) /\
    Forall2 (fun r o =>
               exists first last : Z,
                 holds o.1 first /\ o.2 = F64.of_Z last /\
                 first = (r.1 - r.2 / 2)%Z /\
                 (first <= r.1 <= last)%Z /\ (last - first + 1 = r.2)%Z)
            rows out.
Proof.
  intros Hrows. unfold int_batch. rewrite segment_format_c2b.
  eexists. split; [reflexivity|]. rewrite map_map.
  induction Hrows as [|[c d] rows Hr _ IH]; cbn [map]; constructor; [|exact IH].
  cbn [fst snd]. destruct (c2b_row_int c d Hr) as (x & -> & Hx).
  exists (c - d / 2)%Z, (c - d / 2 + d - 1)%Z. cbn [fst snd].
  destruct Hr as [_ Hd]; cbn [fst snd] in Hd.
  repeat split; try assumption; try reflexivity;
    Z.to_euclidean_division_equations; lia.
Qed.

Lemma segment_format_c2b_span_witness :
  exists out : list (float * float),
    segment_format (int_batch [(7, 3); (1, 2)]%Z) str_c2b
    = Ok (Some (of_rows out)) /\
    Forall2 (fun r o =>
               exists first last : Z,
                 holds o.1 first /\ o.2 = F64.of_Z last /\
                 first = (r.1 - r.2 / 2)%Z /\
                 (first <= r.1 <= last)%Z /\ (last - first + 1 = r.2)%Z)
            [(7, 3); (1, 2)]%Z out.
Proof.
  apply segment_format_c2b_span.
  repeat constructor; cbn; lia.
Defined.

(** X20. The round trip in the other direction. For integer bounds
    [first <= last] of magnitude at most [2^48], ['b2c'] followed by
    ['c2b'] returns a segment of the same number of frames, and the
    same segment unless [first + last] is 1 modulo 4: then the tie of
    [np.round] moves the center, and both bounds come back one frame
    lower. *)
Theorem bounds_center_round_trip (rows : list (Z * Z)) :
  Forall bounds_in_range rows ->
  exists (C : ndarray) (out : list (float * float)),
    segment_format (int_batch rows) str_b2c = Ok (Some C) /\
    segment_format C str_c2b = Ok (Some (of_rows out)) /\
    Forall2 (fun r o =>
               holds o.1 (returned_start r.1 r.2) /\
               o.2 = F64.of_Z (returned_start r.1 r.2 + (r.2 - r.1)))
            rows out.
Proof.
  intros Hrows. unfold int_batch.
  rewrite segment_format_b2c. eexists _, _. split; [reflexivity|].
  rewrite segment_format_c2b. split; [reflexivity|].
  rewrite !map_map.
  induction Hrows as [|[a b] rows Hr _ IH]; cbn [map]; constructor; [|exact IH].
  cbn [fst snd].
  destruct (b2c_row_bounds a b Hr) as (y & -> & Hy).
  destruct Hr as (Ha & Hb & Hab); cbn [fst snd] in Ha, Hb, Hab.
  assert (H48 : (2 ^ 48 = 281474976710656)%Z) by reflexivity.
  assert (H50 : (2 ^ 50 = 1125899906842624)%Z) by reflexivity.
  pose proof (half_even_bounds (a + b)) as Hc.
  assert (Hin : in_range (half_even (a + b), b - a + 1)%Z).
  { split; cbn [fst snd]; [|lia]. Z.to_euclidean_division_equations; lia. }
  destruct (c2b_row_holds _ _ y Hin Hy) as (x' & -> & Hx').
  rewrite returned_start_spec in *. cbn [fst snd].
  split; [exact Hx'|]. f_equal. lia.
Qed.

Lemma bounds_center_round_trip_witness :
  exists (C : ndarray) (out : list (float * float)),
    segment_format (int_batch [(3, 6); (2, 3)]%Z) str_b2c = Ok (Some C) /\
    segment_format C str_c2b = Ok (Some (of_rows out)) /\
    Forall2 (fun r o =>
               holds o.1 (returned_start r.1 r.2) /\
               o.2 = F64.of_Z (returned_start r.1 r.2 + (r.2 - r.1)))
            [(3, 6); (2, 3)]%Z out.
Proof.
  apply bounds_center_round_trip.
  repeat constructor; cbn; lia.
Defined.

(** X21. For integer rows [[first, frames]] of magnitude at most
    [2^50], ['d2b'] keeps the first frame and returns
    [first + frames - 1] as the last one, exactly. *)
Theorem segment_format_d2b_last (rows : list (Z * Z)) :
  Forall (fun r => (Z.abs r.1 <= 2 ^ 50 /\ Z.abs r.2 <= 2 ^ 50)%Z) rows ->
  segment_format (int_batch rows) str_d2b
  = Ok (Some (int_batch (map (fun r => (r.1, r.1 + r.2 - 1)%Z) rows))).
Proof.
  intros Hrows. unfold int_batch. rewrite segment_format_d2b.
  do 3 f_equal. rewrite !map_map.
  induction Hrows as [|[f n] rows [Hf Hn] _ IH]; cbn [map]; [reflexivity|].
  rewrite IH. f_equal. cbn [fst snd] in *. unfold d2b_row; cbn [fst snd]. f_equal.
  assert (H50 : (2 ^ 50 = 1125899906842624)%Z) by reflexivity.
  assert (H53 : (2 ^ 53 = 9007199254740992)%Z) by reflexivity.
  rewrite one_of_Z, !of_Z_dyadic, add_dyadic, sub_dyadic by lia. reflexivity.
Qed.

Lemma segment_format_d2b_last_witness :
  segment_format (int_batch [(10, 16)]%Z) str_d2b
  = Ok (Some (int_batch (map (fun r => (r.1, r.1 + r.2 - 1)%Z) [(10, 16)]%Z))).
Proof.
  apply segment_format_d2b_last.
  repeat constructor; cbn; lia.
Defined.

(** ** Pooling, region by region *)

Lemma pool_into_vector (rows : list (list float)) (d : nat) (pool_type : string)
    (norm : bool) (edges : list Z) (j : nat) (arr : list (list float)) (idx : nat) :
  idx < length arr ->
  pool_into rows d pool_type norm edges j arr idx
  = let* v := pool_vector rows d pool_type norm edges j in Ok (<[idx := v]> arr).
Proof.
  intros Hidx. unfold pool_into, pool_vector.
  destruct (edge edges j); [|reflexivity]. cbn [rbind].
  destruct (edge edges (Datatypes.S j)); [|reflexivity]. cbn [rbind].
  destruct (pool_region pool_type d _); [|reflexivity]. cbn [rbind].
  replace (idx <? length arr) with true by (symmetry; apply Nat.ltb_lt; exact Hidx).
  reflexivity.
Qed.

Lemma collect_length {A B : Type} (f : A -> result B) (l : list A) (bs : list B) :
  collect f l = Ok bs -> length bs = length l.
Proof.
  revert bs. induction l as [|a l IH]; intros bs; cbn [collect].
  - intros H. injection H as <-. reflexivity.
  - destruct (f a); [|discriminate]. cbn [rbind].
    destruct (collect f l) as [bs'|]; [|discriminate]. cbn [rbind].
    intros H. injection H as <-. cbn [length]. now rewrite (IH bs').
Qed.

(** A run of the inner loop writes the vectors of its regions to the
    cells from [idx] on, and touches no other cell. *)
Lemma pool_loop_collect (rows : list (list float)) (d : nat) (pool_type : string)
    (norm : bool) (edges : list Z) (js : list nat) :
  forall (arr : list (list float)) (idx : nat),
    idx + length js <= length arr ->
    for_each
      (fun (st : list (list float) * nat) =>
         let '(arr, idx) := st in
         fun j =>
           let* arr := pool_into rows d pool_type norm edges j arr idx in
           Ok (arr, Datatypes.S idx))
      js (arr, idx)
    = let* vs := collect (pool_vector rows d pool_type norm edges) js in
      Ok (take idx arr ++ vs ++ drop (idx + length js) arr, idx + length js).
Proof.
  induction js as [|j js IH]; intros arr idx Hlen; cbn [for_each collect length].
  - cbn [rbind app]. rewrite !Nat.add_0_r, take_drop. reflexivity.
  - cbn [length] in Hlen.
    rewrite pool_into_vector by lia.
    destruct (pool_vector rows d pool_type norm edges j) as [v|e]; [|reflexivity].
    cbn [rbind]. rewrite IH by (rewrite length_insert; lia).
    destruct (collect _ js) as [vs|e]; [|reflexivity]. cbn [rbind].
    f_equal. f_equal; [|lia].
    rewrite drop_insert_lt by lia.
    rewrite (insert_take_drop arr idx v) by lia.
    assert (HA : length (take idx arr) = idx) by (rewrite length_take; lia).
    rewrite take_app_ge by lia. rewrite HA.
    replace (Datatypes.S idx - idx) with 1 by lia. cbn [take firstn].
    rewrite take_0, <- app_assoc. cbn [app]. do 4 f_equal. lia.
Qed.

Lemma chunk_loop_collect (rows : list (list float)) (d : nat) (pool_type : string)
    (norm : bool) (edges : list Z) (len : nat) :
  forall (k : nat) (arr : list (list float)),
    k + len <= length arr ->
    for_each (fun arr j => pool_into rows d pool_type norm edges j arr j)
             (seq k len) arr
    = let* vs := collect (pool_vector rows d pool_type norm edges) (seq k len) in
      Ok (take k arr ++ vs ++ drop (k + len) arr).
Proof.
  induction len as [|len IH]; intros k arr Hlen; cbn [seq for_each collect].
  - cbn [rbind app]. rewrite Nat.add_0_r, take_drop. reflexivity.
  - rewrite pool_into_vector by lia.
    destruct (pool_vector rows d pool_type norm edges k) as [v|e]; [|reflexivity].
    cbn [rbind]. rewrite IH by (rewrite length_insert; lia).
    destruct (collect _ (seq (Datatypes.S k) len)) as [vs|e]; [|reflexivity].
    cbn [rbind]. f_equal.
    rewrite drop_insert_lt by lia.
    rewrite (insert_take_drop arr k v) by lia.
    assert (HA : length (take k arr) = k) by (rewrite length_take; lia).
    rewrite take_app_ge by lia. rewrite HA.
    replace (Datatypes.S k - k) with 1 by lia. cbn [take firstn].
    rewrite take_0, <- app_assoc. cbn [app]. do 4 f_equal. lia.
Qed.

Lemma feature_1dconcat_collect (mem : raw) (x : ndarray) (m d n : nat)
    (pool_type : string) (norm unit : bool) :
  shape x = [m; d] ->
  feature_1dconcat mem x n pool_type norm unit
  = let* vs := chunk_vectors (blocks m d (buffer x)) d (lower pool_type) norm m n in
    let* concat_feat := hstack vs in
    Ok (unit_scale unit n concat_feat).
Proof.
  intros Hx. unfold feature_1dconcat, shape2. rewrite Hx. cbn [rbind].
  rewrite (chunk_loop_collect _ _ _ _ _ n 0) by (rewrite length_replicate; lia).
  unfold chunk_vectors.
  destruct (collect _ (seq 0 n)) as [vs|e] eqn:E; [|reflexivity]. cbn [rbind].
  apply collect_length in E. rewrite length_seq in E.
  rewrite take_0, drop_ge by (rewrite length_replicate; lia).
  cbn [app]. rewrite app_nil_r.
  destruct (hstack vs); [|reflexivity]. cbn [rbind]. now destruct unit.
Qed.

(** The number of regions of the levels in [is]. *)
Lemma regions_upto (levels : nat) :
  list_sum (map (fun i => 2 ^ i) (seq 0 (levels + 1))) = 2 ^ (levels + 1) - 1.
Proof.
  induction levels as [|L IH]; [reflexivity|].
  replace (Datatypes.S L + 1) with (Datatypes.S (L + 1)) by lia.
  rewrite seq_S, map_app, list_sum_app, IH. cbn [map list_sum Nat.add].
  rewrite (Nat.pow_succ_r' 2 (L + 1)).
  pose proof (Nat.pow_nonzero 2 (L + 1)). cbn [list_sum fold_right]. unfold list_sum; cbn [fold_right]. lia.
Qed.

Lemma pyramid_loop_collect (rows : list (list float)) (d : nat)
    (pool_type : string) (norm : bool) (m : nat) (levels : list nat) :
  forall (arr : list (list float)) (idx : nat),
    idx + list_sum (map (fun i => 2 ^ i) levels) <= length arr ->
    for_each
      (fun (st : list (list float) * nat) =>
         let '(arr, idx) := st in
         fun i =>
           let n := 2 ^ i in
           let edges := region_edges n m in
           for_each
             (fun (st : list (list float) * nat) =>
                let '(arr, idx) := st in
                fun j =>
                  let* arr := pool_into rows d pool_type norm edges j arr idx in
                  Ok (arr, Datatypes.S idx))
             (seq 0 n) (arr, idx))
      levels (arr, idx)
    = let* vss := collect (level_vectors rows d pool_type norm m) levels in
      Ok (take idx arr ++ concat vss
            ++ drop (idx + list_sum (map (fun i => 2 ^ i) levels)) arr,
          idx + list_sum (map (fun i => 2 ^ i) levels)).
Proof.
  induction levels as [|i levels IH]; intros arr idx Hlen;
    cbn [for_each collect concat].
  - cbn [rbind app map concat]. change (list_sum []) with 0.
    rewrite !Nat.add_0_r, take_drop. reflexivity.
  - change (list_sum (map (fun i => 2 ^ i) (i :: levels)))
      with (2 ^ i + list_sum (map (fun i => 2 ^ i) levels)) in *.
    cbv zeta.
    rewrite pool_loop_collect by (rewrite length_seq; lia).
    unfold level_vectors at 1, chunk_vectors.
    destruct (collect _ (seq 0 (2 ^ i))) as [vs|e] eqn:E; [|reflexivity].
    cbn [rbind]. apply collect_length in E. rewrite length_seq in *.
    rewrite IH by (rewrite !length_app, length_take, length_drop; lia).
    destruct (collect _ levels) as [vss|e]; [|reflexivity]. cbn [rbind concat].
    f_equal. f_equal; [|lia].
    assert (HA : length (take idx arr) = idx) by (rewrite length_take; lia).
    rewrite take_app_ge by lia. rewrite HA.
    rewrite take_app_ge by lia. rewrite E.
    replace (idx + 2 ^ i - idx - 2 ^ i) with 0 by lia. rewrite take_0, app_nil_r.
    rewrite drop_app_ge by lia. rewrite HA.
    rewrite drop_app_ge by lia. rewrite E, drop_drop.
    rewrite <- !app_assoc. do 3 f_equal. f_equal. lia.
Qed.

Lemma feature_1dpyramid_collect (mem : raw) (x : ndarray) (m d levels : nat)
    (pool_type : string) (norm unit : bool) :
  shape x = [m; d] ->
  feature_1dpyramid mem x levels pool_type norm unit
  = let* vs := pyramid_vectors (blocks m d (buffer x)) d (lower pool_type) norm
                 m levels in
    let* pyr_feat := hstack vs in
    Ok (unit_scale unit (2 ^ (levels + 1) - 1) pyr_feat).
Proof.
  intros Hx. unfold feature_1dpyramid, shape2. rewrite Hx. cbn [rbind].
  pose proof (pyramid_loop_collect (blocks m d (buffer x)) d (lower pool_type)
                norm m (seq 0 (levels + 1))
                (replicate (2 ^ (levels + 1) - 1) (buffer (np_empty mem [d]))) 0)
    as H.
  rewrite regions_upto, length_replicate in H. specialize (H ltac:(lia)).
  match goal with |- context [for_each ?f (seq 0 (levels + 1)) ?s] =>
    match type of H with for_each ?g _ _ = _ =>
      change (for_each f (seq 0 (levels + 1)) s)
        with (for_each g (seq 0 (levels + 1)) s)
    end
  end.
  rewrite H. unfold pyramid_vectors.
  destruct (collect _ (seq 0 (levels + 1))) as [vss|e] eqn:E; [|reflexivity].
  cbn [rbind].
  rewrite take_0, drop_ge by (rewrite length_replicate; lia).
  cbn [app]. rewrite app_nil_r.
  destruct (hstack (concat vss)); [|reflexivity]. cbn [rbind]. now destruct unit.
Qed.

Lemma collect_app {A B : Type} (f : A -> result B) (l1 l2 : list A) :
  collect f (l1 ++ l2)
  = let* b1 := collect f l1 in let* b2 := collect f l2 in Ok (b1 ++ b2).
Proof.
  induction l1 as [|a l1 IH]; cbn [app collect rbind].
  - destruct (collect f l2); reflexivity.
  - destruct (f a); [|reflexivity]. cbn [rbind]. rewrite IH.
    destruct (collect f l1); [|reflexivity]. cbn [rbind].
    destruct (collect f l2); reflexivity.
Qed.

Lemma collect_Forall {A B : Type} (f : A -> result B) (P : B -> Prop) (l : list A)
    (bs : list B) :
  (forall a b, In a l -> f a = Ok b -> P b) ->
  collect f l = Ok bs -> List.Forall P bs.
Proof.
  revert bs. induction l as [|a l IH]; intros bs Hf; cbn [collect].
  - intros H. injection H as <-. constructor.
  - destruct (f a) as [b|] eqn:Ea; [|discriminate]. cbn [rbind].
    destruct (collect f l) as [bs'|]; [|discriminate]. cbn [rbind].
    intros H. injection H as <-. constructor.
    + apply (Hf a b); [now left|exact Ea].
    + apply IH; [|reflexivity]. intros a' b' Ha'. apply Hf. now right.
Qed.

Lemma collect_total {A B : Type} (f : A -> result B) (l : list A) :
  (forall a, In a l -> exists b, f a = Ok b) -> exists bs, collect f l = Ok bs.
Proof.
  induction l as [|a l IH]; intros Hf; cbn [collect].
  - eexists. reflexivity.
  - destruct (Hf a (or_introl eq_refl)) as [b ->]. cbn [rbind].
    destruct IH as [bs ->]; [intros a' Ha'; apply Hf; now right|].
    eexists. reflexivity.
Qed.

Lemma fold_zip_length (op : float -> float -> float) (d : nat)
    (rows : list (list float)) :
  List.Forall (fun r => length r = d) rows ->
  forall acc, length acc = d -> length (fold_left (zip_with op) rows acc) = d.
Proof.
  induction 1 as [|r rows Hr _ IH]; intros acc Hacc; cbn [fold_left]; [exact Hacc|].
  apply IH. rewrite length_zip_with. lia.
Qed.

Lemma pool_vector_length (rows : list (list float)) (d : nat) (pool_type : string)
    (norm : bool) (edges : list Z) (j : nat) (v : list float) :
  List.Forall (fun r => length r = d) rows ->
  pool_vector rows d pool_type norm edges j = Ok v -> length v = d.
Proof.
  intros Hrows. unfold pool_vector.
  destruct (edge edges j) as [a|]; [|discriminate]. cbn [rbind].
  destruct (edge edges (Datatypes.S j)) as [b|]; [|discriminate]. cbn [rbind].
  assert (Hs : List.Forall (fun r => length r = d) (slice rows a b)).
  { unfold slice. apply Forall_take, Forall_drop. exact Hrows. }
  assert (Hv : forall v0, pool_region pool_type d (slice rows a b) = Ok v0 ->
                          length v0 = d).
  { intros v0. unfold pool_region.
    destruct (String.eqb pool_type str_mean).
    - intros H. injection H as <-. unfold mean_axis0. rewrite length_map.
      apply fold_zip_length; [exact Hs|apply length_replicate].
    - destruct (String.eqb pool_type str_max); [|discriminate].
      unfold max_axis0. destruct Hs as [|r rs Hr Hrs]; [discriminate|].
      intros H. injection H as <-. now apply fold_zip_length. }
  destruct (pool_region pool_type d (slice rows a b)) as [v0|]; [|discriminate].
  cbn [rbind]. intros H. injection H as <-.
  specialize (Hv v0 eq_refl).
  destruct norm; [|exact Hv]. unfold l2_normalize. now rewrite length_map.
Qed.

Lemma chunk_vectors_width (rows : list (list float)) (d : nat) (pool_type : string)
    (norm : bool) (m n : nat) (vs : list (list float)) :
  List.Forall (fun r => length r = d) rows ->
  chunk_vectors rows d pool_type norm m n = Ok vs ->
  length vs = n /\ List.Forall (fun v => length v = d) vs.
Proof.
  intros Hrows H. split.
  - apply collect_length in H. now rewrite length_seq in H.
  - revert H. apply collect_Forall. intros j v _. now apply pool_vector_length.
Qed.

Lemma pow2_pos (i : nat) : 1 <= 2 ^ i.
Proof. pose proof (Nat.pow_nonzero 2 i). lia. Qed.

Lemma pyramid_vectors_width (rows : list (list float)) (d : nat)
    (pool_type : string) (norm : bool) (m levels : nat) (vs : list (list float)) :
  List.Forall (fun r => length r = d) rows ->
  pyramid_vectors rows d pool_type norm m levels = Ok vs ->
  length vs = 2 ^ (levels + 1) - 1 /\ List.Forall (fun v => length v = d) vs.
Proof.
  intros Hrows. unfold pyramid_vectors.
  rewrite <- regions_upto.
  generalize (seq 0 (levels + 1)) as lv. intros lv. revert vs.
  induction lv as [|i lv IH]; intros vs; cbn [collect].
  - cbn [rbind]. intros H. injection H as <-. split; [reflexivity|constructor].
  - destruct (level_vectors rows d pool_type norm m i) as [v0|] eqn:E0;
      [|discriminate]. cbn [rbind].
    destruct (collect _ lv) as [vss|]; [|discriminate]. cbn [rbind concat].
    intros H. injection H as <-.
    destruct (chunk_vectors_width _ _ _ _ _ _ _ Hrows E0) as [L0 W0].
    destruct (IH (concat vss) eq_refl) as [L1 W1].
    split.
    + rewrite length_app, L0, L1. reflexivity.
    + apply List.Forall_app. split; assumption.
Qed.

Lemma hstack_length (d : nat) (vs : list (list float)) (out : list float) :
  List.Forall (fun v => length v = d) vs ->
  hstack vs = Ok out -> length out = length vs * d.
Proof.
  intros Hvs. unfold hstack. destruct vs as [|v vs]; [discriminate|].
  intros H. injection H as <-. apply (length_concat_blocks d (v :: vs)).
  revert Hvs. apply List.Forall_impl. auto.
Qed.

Lemma unit_scale_length (unit : bool) (k : nat) (v : list float) :
  length (unit_scale unit k v) = length v.
Proof. destruct unit; [apply length_map|reflexivity]. Qed.

Lemma shape2_cases (x : ndarray) :
  (exists m d, shape x = [m; d]) \/ shape2 x = Raise ValueError.
Proof.
  unfold shape2. destruct (shape x) as [|m [|d [|c l]]]; eauto.
Qed.

(** X22. The buffers that the pooling functions take from [np.empty]
    are overwritten before they are read: the result of
    [feature_1dpyramid] and of [feature_1dconcat], a value or an
    exception, does not depend on the uninitialised contents. *)
Theorem pooling_ignores_uninitialised (mem mem' : raw) (x : ndarray)
    (levels n : nat) (pool_type : string) (norm unit : bool) :
  feature_1dpyramid mem x levels pool_type norm unit
  = feature_1dpyramid mem' x levels pool_type norm unit /\
  feature_1dconcat mem x n pool_type norm unit
  = feature_1dconcat mem' x n pool_type norm unit.
Proof.
  destruct (shape2_cases x) as [(m & d & Hx)|Hx].
  - rewrite !(feature_1dpyramid_collect _ x m d) by exact Hx.
    rewrite !(feature_1dconcat_collect _ x m d) by exact Hx.
    split; reflexivity.
  - unfold feature_1dpyramid, feature_1dconcat. rewrite Hx. split; reflexivity.
Qed.

(** X23. On an [m x d] array, whenever [feature_1dpyramid] returns, its
    result has [d * (2^(levels + 1) - 1)] entries, and whenever
    [feature_1dconcat] returns, its result has [d * n] entries. *)
Theorem pooling_output_length (mem : raw) (x : ndarray) (m d levels n : nat)
    (pool_type : string) (norm unit : bool) :
  shape x = [m; d] -> well_formed x ->
  (forall out, feature_1dpyramid mem x levels pool_type norm unit = Ok out ->
               length out = d * (2 ^ (levels + 1) - 1)) /\
  (forall out, feature_1dconcat mem x n pool_type norm unit = Ok out ->
               length out = d * n).
Proof.
  intros Hx Hwf.
  assert (Hrows : List.Forall (fun r => length r = d) (blocks m d (buffer x))).
  { apply blocks_width. unfold well_formed in Hwf. rewrite Hwf, Hx.
    cbn [size_of foldr]. lia. }
  split; intros out.
  - rewrite (feature_1dpyramid_collect _ x m d) by exact Hx.
    destruct (pyramid_vectors _ d (lower pool_type) norm m levels) as [vs|] eqn:E;
      [|discriminate].
    destruct (pyramid_vectors_width _ _ _ _ _ _ _ Hrows E) as [L W]. cbn [rbind].
    destruct (hstack vs) as [f|] eqn:Eh; [|discriminate]. cbn [rbind].
    intros H. injection H as <-.
    rewrite unit_scale_length, (hstack_length d vs f W Eh), L. lia.
  - rewrite (feature_1dconcat_collect _ x m d) by exact Hx.
    destruct (chunk_vectors _ d (lower pool_type) norm m n) as [vs|] eqn:E;
      [|discriminate].
    destruct (chunk_vectors_width _ _ _ _ _ _ _ Hrows E) as [L W]. cbn [rbind].
    destruct (hstack vs) as [f|] eqn:Eh; [|discriminate]. cbn [rbind].
    intros H. injection H as <-.
    rewrite unit_scale_length, (hstack_length d vs f W Eh), L. lia.
Qed.

Lemma pooling_output_length_witness :
  (forall out, feature_1dpyramid zeros_mem one_row 2 "mean" true false = Ok out ->
               length out = 1 * (2 ^ (2 + 1) - 1)) /\
  (forall out, feature_1dconcat zeros_mem one_row 3 "mean" true false = Ok out ->
               length out = 1 * 3).
Proof.
  apply (pooling_output_length zeros_mem one_row 1 1 2 3 "mean" true false);
    reflexivity.
Defined.

Lemma mean_vector_total (rows : list (list float)) (d : nat) (norm : bool)
    (m n j : nat) :
  j < n ->
  exists v, pool_vector rows d str_mean norm (region_edges n m) j = Ok v.
Proof.
  intros Hj. unfold pool_vector.
  destruct (edge_lookup n m j Hj) as (a & b & -> & -> & _). cbn [rbind].
  unfold pool_region. cbn [String.eqb Ascii.eqb Bool.eqb str_mean rbind].
  eexists. reflexivity.
Qed.

Lemma mean_chunks_total (rows : list (list float)) (d : nat) (norm : bool)
    (m n : nat) :
  exists vs, chunk_vectors rows d str_mean norm m n = Ok vs.
Proof.
  apply collect_total. intros j Hj. apply in_seq in Hj.
  apply mean_vector_total. lia.
Qed.

(** X24. With mean pooling (['mean'] in any letter case) on a
    2-dimensional input, [feature_1dpyramid] always returns, and
    [feature_1dconcat] returns for every number of chunks but [0], for
    which it raises the [ValueError] of [np.hstack] on no array. *)
Theorem mean_pooling_returns (mem : raw) (x : ndarray) (m d levels n : nat)
    (pool_type : string) (norm unit : bool) :
  shape x = [m; d] -> lower pool_type = str_mean ->
  (exists out, feature_1dpyramid mem x levels pool_type norm unit = Ok out) /\
  (1 <= n -> exists out, feature_1dconcat mem x n pool_type norm unit = Ok out) /\
  feature_1dconcat mem x 0 pool_type norm unit = Raise ValueError.
Proof.
  intros Hx Hpt. split; [|split].
  - rewrite (feature_1dpyramid_collect _ x m d) by exact Hx. rewrite Hpt.
    unfold pyramid_vectors.
    destruct (collect_total (level_vectors (blocks m d (buffer x)) d str_mean norm m)
                (seq 0 (levels + 1))) as [vss E].
    { intros i _. apply mean_chunks_total. }
    rewrite E. cbn [rbind].
    replace (levels + 1) with (Datatypes.S levels) in E by lia.
    cbn [seq collect] in E.
    destruct (mean_chunks_total (blocks m d (buffer x)) d norm m (2 ^ 0))
      as [v0 E0].
    unfold level_vectors at 1 in E. rewrite E0 in E. cbn [rbind] in E.
    destruct (collect _ (seq 1 levels)) as [vss'|]; [|discriminate].
    cbn [rbind] in E. injection E as <-.
    apply collect_length in E0. cbn in E0.
    destruct v0 as [|v v0]; [discriminate|]. cbn [concat app hstack rbind].
    eexists. reflexivity.
  - intros Hn. rewrite (feature_1dconcat_collect _ x m d) by exact Hx. rewrite Hpt.
    destruct (mean_chunks_total (blocks m d (buffer x)) d norm m n) as [vs E].
    rewrite E. cbn [rbind]. apply collect_length in E. rewrite length_seq in E.
    destruct vs as [|v vs]; [cbn in E; lia|]. cbn [hstack rbind].
    eexists. reflexivity.
  - rewrite (feature_1dconcat_collect _ x m d) by exact Hx. reflexivity.
Qed.

Lemma mean_pooling_returns_witness :
  (exists out, feature_1dpyramid zeros_mem one_row 2 "MEAN" true false = Ok out) /\
  (1 <= 3 -> exists out, feature_1dconcat zeros_mem one_row 3 "MEAN" true false = Ok out) /\
  feature_1dconcat zeros_mem one_row 0 "MEAN" true false = Raise ValueError.
Proof.
  apply (mean_pooling_returns zeros_mem one_row 1 1 2 3 "MEAN" true false);
    reflexivity.
Defined.

(** X25. A pooling type that is neither ['mean'] nor ['max'] once put in
    lower case makes both functions raise [ValueError] on every
    2-dimensional input. *)
Theorem unknown_pooling_type (mem : raw) (x : ndarray) (m d levels n : nat)
    (pool_type : string) (norm unit : bool) :
  shape x = [m; d] ->
  lower pool_type <> str_mean -> lower pool_type <> str_max ->
  feature_1dpyramid mem x levels pool_type norm unit = Raise ValueError /\
  feature_1dconcat mem x n pool_type norm unit = Raise ValueError.
Proof.
  intros Hx Hmean Hmax.
  assert (Hv : forall k j, j < k ->
            pool_vector (blocks m d (buffer x)) d (lower pool_type) norm
              (region_edges k m) j = Raise ValueError).
  { intros k j Hj. unfold pool_vector.
    destruct (edge_lookup k m j Hj) as (a & b & -> & -> & _). cbn [rbind].
    unfold pool_region.
    destruct (String.eqb_spec (lower pool_type) str_mean); [contradiction|].
    destruct (String.eqb_spec (lower pool_type) str_max); [contradiction|].
    reflexivity. }
  split.
  - rewrite (feature_1dpyramid_collect _ x m d) by exact Hx.
    unfold pyramid_vectors.
    replace (levels + 1) with (Datatypes.S levels) by lia.
    cbn [seq collect]. unfold level_vectors at 1, chunk_vectors.
    cbn [Nat.pow seq collect]. rewrite (Hv 1 0) by lia. reflexivity.
  - rewrite (feature_1dconcat_collect _ x m d) by exact Hx.
    unfold chunk_vectors. destruct n as [|n]; [reflexivity|].
    cbn [seq collect]. rewrite (Hv (Datatypes.S n) 0) by lia. reflexivity.
Qed.

Lemma unknown_pooling_type_witness :
  feature_1dpyramid zeros_mem one_row 2 "sum" true false = Raise ValueError /\
  feature_1dconcat zeros_mem one_row 3 "sum" true false = Raise ValueError.
Proof.
  apply (unknown_pooling_type zeros_mem one_row 1 1 2 3 "sum" true false);
    [reflexivity|discriminate|discriminate].
Defined.

(** X26. A pyramid grows level by level: without the final scaling, the
    pyramid of [levels + 1] levels is the pyramid of [levels] levels
    followed by the chunk pooling with [2 ^ (levels + 1)] chunks, and it
    raises what the first of the two to fail raises. *)
Theorem pyramid_next_level (mem : raw) (x : ndarray) (levels : nat)
    (pool_type : string) (norm : bool) :
  feature_1dpyramid mem x (Datatypes.S levels) pool_type norm false
  = let* a := feature_1dpyramid mem x levels pool_type norm false in
    let* b := feature_1dconcat mem x (2 ^ Datatypes.S levels) pool_type norm false in
    Ok (a ++ b).
Proof.
  destruct (shape2_cases x) as [(m & d & Hx)|Hx].
  2:{ unfold feature_1dpyramid. rewrite Hx. reflexivity. }
  rewrite !(feature_1dpyramid_collect _ x m d) by exact Hx.
  rewrite (feature_1dconcat_collect _ x m d) by exact Hx.
  unfold pyramid_vectors, unit_scale.
  replace (Datatypes.S levels + 1) with (Datatypes.S (levels + 1)) by lia.
  rewrite seq_S, collect_app. cbn [Nat.add collect].
  change (level_vectors ?r ?dd ?p ?nn ?mm (levels + 1))
    with (chunk_vectors r dd p nn mm (2 ^ (levels + 1))).
  replace (levels + 1) with (Datatypes.S levels) by lia.
  destruct (collect _ (seq 0 (Datatypes.S levels))) as [vss|e] eqn:E;
    [|reflexivity].
  cbn [rbind].
  assert (Hne : concat vss <> []).
  { cbn [seq collect] in E.
    destruct (level_vectors _ d (lower pool_type) norm m 0) as [v0|] eqn:E0;
      [|discriminate].
    cbn [rbind] in E. destruct (collect _ (seq 1 levels)); [|discriminate].
    cbn [rbind] in E. injection E as <-.
    apply collect_length in E0. destruct v0; [discriminate|]. discriminate. }
  destruct (chunk_vectors _ d (lower pool_type) norm m (2 ^ Datatypes.S levels))
    as [vs|e] eqn:Ec; cbn [rbind].
  2:{ destruct (concat vss); [contradiction|reflexivity]. }
  rewrite concat_app. cbn [concat]. rewrite app_nil_r.
  assert (Hvs : vs <> []).
  { apply collect_length in Ec. rewrite length_seq in Ec.
    pose proof (pow2_pos (Datatypes.S levels)). destruct vs; [cbn [length] in Ec; lia|discriminate]. }
  destruct (concat vss) as [|v0 rest] eqn:Ev; [contradiction|].
  destruct vs as [|v1 vs']; [contradiction|].
  change ((v0 :: rest) ++ v1 :: vs') with (v0 :: (rest ++ v1 :: vs')).
  cbn [hstack rbind].
  change (v0 :: (rest ++ v1 :: vs')) with ((v0 :: rest) ++ v1 :: vs').
  now rewrite concat_app.
Qed.

(** ** Values of the intersection over union *)

Section Ratios.
Local Open Scope Z_scope.


End Ratios.

Section Order.
Local Open Scope Z_scope.








End Order.





(** ** The regions of a pyramid level *)

Section Edges.
Local Open Scope Z_scope.

(** [1 / 2^i] is exact. *)
Lemma div_pow2 (i : Z) :
  0 <= i <= 900 -> F64.div (dyadic 1 0) (dyadic 1 i) = dyadic 1 (- i).
Proof.
  intros Hi. rewrite (dyadic_finite 1 i), (dyadic_finite 1 (- i)) by lia.
  change (dyadic 1 0) with (S754_finite false 4503599627370496 (-52)).
  change (canonic (1 <? 0) (Z.abs 1) i)
    with (S754_finite false 4503599627370496 (i + 1 - 53)).
  unfold F64.div, SFdiv, SFdiv_core_binary.
  change (Zdigits2 (Z.pos 4503599627370496)) with 53.
  change IntDef.Z.min with Z.min. unfold fexp, emin.
  change IntDef.Z.max with Z.max.
  replace (Z.min (Z.max (53 + -52 - (53 + (i + 1 - 53)) - 53) (3 - 1024 - 53))
                 (-52 - (i + 1 - 53)))
    with (- i - 53) by lia.
  replace (-52 - (i + 1 - 53) - (- i - 53)) with 53 by lia.
  change (let '(q, r) :=
            IntDef.Z.div_eucl (IntDef.Z.shiftl 4503599627370496 53)
              4503599627370496 in
          (q, - i - 53, new_location 4503599627370496 r))
    with (2 ^ 53, - i - 53, loc_Exact).
  cbn [xorb]. change (2 ^ 53) with (1 * 2 ^ 53).
  rewrite binary_round_aux_exact by (cbn; lia).
  f_equal. lia.
Qed.

(** The product of two dyadic numbers that are not negative is exact
    when it fits. *)
Lemma mul_dyadic (a b e f : Z) :
  0 <= a < 2 ^ 53 -> 0 <= b < 2 ^ 53 -> a * b < 2 ^ 53 ->
  -400 <= e <= 400 -> -400 <= f <= 400 ->
  F64.mul (dyadic a e) (dyadic b f) = dyadic (a * b) (e + f).
Proof.
  intros Ha Hb Hab He Hf.
  destruct (Z.eq_dec a 0) as [->|Ha0].
  { rewrite Z.mul_0_l. change (dyadic 0 ?x) with (S754_zero false).
    destruct (Z.eq_dec b 0) as [->|Hb0]; [reflexivity|].
    rewrite dyadic_finite by lia. unfold canonic.
    replace (b <? 0) with false by (symmetry; apply Z.ltb_ge; lia).
    reflexivity. }
  destruct (Z.eq_dec b 0) as [->|Hb0].
  { rewrite Z.mul_0_r. change (dyadic 0 ?x) with (S754_zero false).
    rewrite dyadic_finite by lia. unfold canonic.
    replace (a <? 0) with false by (symmetry; apply Z.ltb_ge; lia).
    reflexivity. }
  assert (Hpos : 0 < a * b) by nia.
  rewrite (dyadic_finite a e), (dyadic_finite b f), (dyadic_finite (a * b))
    by lia.
  rewrite !Z.abs_eq by lia.
  replace (a <? 0) with false by (symmetry; apply Z.ltb_ge; lia).
  replace (b <? 0) with false by (symmetry; apply Z.ltb_ge; lia).
  replace (a * b <? 0) with false by (symmetry; apply Z.ltb_ge; lia).
  pose proof (log2_digits a ltac:(lia)) as Hda.
  pose proof (log2_digits b ltac:(lia)) as Hdb.
  pose proof (log2_digits (a * b) ltac:(lia)) as Hdab.
  pose proof (Z.log2_mul_below a b ltac:(lia) ltac:(lia)) as Hlow.
  unfold canonic at 1 2. unfold F64.mul, SFmul. cbn [xorb].
  rewrite Pos2Z.inj_mul, !canonic_mantissa by lia.
  remember (Z.log2 a + 1) as da eqn:Eda.
  remember (Z.log2 b + 1) as db eqn:Edb.
  replace (a * 2 ^ (53 - da) * (b * 2 ^ (53 - db)))
    with (a * b * 2 ^ (106 - da - db)).
  - replace (e + f) with ((e + da - 53 + (f + db - 53)) + (106 - da - db)) by lia.
    apply binary_round_aux_exact; lia.
  - replace (106 - da - db) with ((53 - da) + (53 - db)) by lia.
    rewrite Z.pow_add_r by lia. ring.
Qed.

End Edges.

Section Rounding.
Local Open Scope Z_scope.

Lemma round_shift_bounds (k i : Z) :
  0 <= i -> k / 2 ^ i <= round_shift k i <= k / 2 ^ i + 1.
Proof.
  intros Hi. unfold round_shift.
  destruct (2 * (k mod 2 ^ i) ?= 2 ^ i); [destruct (Z.even _)| |]; lia.
Qed.

Lemma round_shift_exact (q i : Z) : 0 <= i -> round_shift (q * 2 ^ i) i = q.
Proof.
  intros Hi. assert (0 < 2 ^ i) by (apply Z.pow_pos_nonneg; lia).
  unfold round_shift. rewrite Z.div_mul, Z.mod_mul by lia.
  replace (2 * 0 ?= 2 ^ i) with Lt by (symmetry; apply Z.compare_lt_iff; lia).
  reflexivity.
Qed.

(** Rounding to the nearest integer keeps the order. *)
Lemma round_shift_mono (k k' i : Z) :
  0 <= i -> k <= k' -> round_shift k i <= round_shift k' i.
Proof.
  intros Hi Hk. assert (Hp : 0 < 2 ^ i) by (apply Z.pow_pos_nonneg; lia).
  pose proof (Z.div_le_mono k k' (2 ^ i) Hp Hk) as Hq.
  pose proof (round_shift_bounds k i Hi) as B.
  pose proof (round_shift_bounds k' i Hi) as B'.
  destruct (Z.eq_dec (k / 2 ^ i) (k' / 2 ^ i)) as [E|E]; [|lia].
  assert (Hr : k mod 2 ^ i <= k' mod 2 ^ i).
  { pose proof (Z.div_mod k (2 ^ i) ltac:(lia)).
    pose proof (Z.div_mod k' (2 ^ i) ltac:(lia)). nia. }
  unfold round_shift. rewrite <- E.
  destruct (Z.compare_spec (2 * (k mod 2 ^ i)) (2 ^ i)) as [C|C|C];
    destruct (Z.compare_spec (2 * (k' mod 2 ^ i)) (2 ^ i)) as [C'|C'|C'];
    try destruct (Z.even (k / 2 ^ i)); lia.
Qed.

(** The rounded value is within half a unit of the exact one. *)
Lemma round_shift_near (k i : Z) :
  0 <= i ->
  2 * k - 2 ^ i <= 2 * 2 ^ i * round_shift k i <= 2 * k + 2 ^ i.
Proof.
  intros Hi. assert (Hp : 0 < 2 ^ i) by (apply Z.pow_pos_nonneg; lia).
  pose proof (Z.div_mod k (2 ^ i) ltac:(lia)) as Hk.
  pose proof (Z.mod_pos_bound k (2 ^ i) Hp) as Hr.
  unfold round_shift.
  remember (k / 2 ^ i) as q. remember (k mod 2 ^ i) as r. remember (2 ^ i) as P.
  destruct (Z.compare_spec (2 * r) P) as [C|C|C];
    try destruct (Z.even q); nia.
Qed.

(** Edges that are more than one row apart stay apart. *)
Lemma round_shift_apart (k k' i : Z) :
  0 <= i -> k + 2 ^ i < k' -> round_shift k i < round_shift k' i.
Proof.
  intros Hi Hk. assert (Hp : 0 < 2 ^ i) by (apply Z.pow_pos_nonneg; lia).
  pose proof (round_shift_near k i Hi) as N.
  pose proof (round_shift_near k' i Hi) as N'.
  remember (2 ^ i) as P. nia.
Qed.

End Rounding.

Section EdgeValues.
Local Open Scope Z_scope.

Lemma div_mod_shifted (k i t : Z) :
  0 <= i -> 0 <= t ->
  (k * 2 ^ t) / 2 ^ (i + t) = k / 2 ^ i /\
  (k * 2 ^ t) mod 2 ^ (i + t) = (k mod 2 ^ i) * 2 ^ t.
Proof.
  intros Hi Ht.
  assert (0 < 2 ^ t) by (apply Z.pow_pos_nonneg; lia).
  assert (0 < 2 ^ i) by (apply Z.pow_pos_nonneg; lia).
  rewrite Z.pow_add_r by lia. split.
  - apply Z.div_mul_cancel_r; lia.
  - apply Z.mul_mod_distr_r; lia.
Qed.

(** [np.round] of a positive dyadic number. *)
Lemma rint_dyadic (k i : Z) :
  0 < k < 2 ^ 52 -> 0 <= i <= 400 ->
  F64.rint (dyadic k (- i)) = F64.of_Z (round_shift k i).
Proof.
  intros Hk Hi. rewrite dyadic_finite by lia.
  replace (k <? 0) with false by (symmetry; apply Z.ltb_ge; lia).
  rewrite Z.abs_eq by lia.
  destruct (canonic_split false k (- i) ltac:(lia)) as (m & e' & Hc & He' & Hm).
  rewrite Hc. unfold F64.rint.
  destruct (Z.leb_spec 0 e') as [E|E].
  - assert (i = 0) by lia. subst i. assert (e' = 0) by lia. subst e'.
    assert (Hr0 : round_shift k 0 = k).
    { unfold round_shift. change (2 ^ 0) with 1.
      now rewrite Z.div_1_r, Z.mod_1_r. }
    rewrite Hr0, <- Hc, of_Z_dyadic, dyadic_finite by lia.
    replace (k <? 0) with false by (symmetry; apply Z.ltb_ge; lia).
    now rewrite Z.abs_eq by lia.
  - unfold F64.signed_mantissa. cbn [cond_Zopp]. rewrite Hm.
    replace (- e') with (i + (- i - e')) by lia.
    destruct (div_mod_shifted k i (- i - e') ltac:(lia) ltac:(lia)) as [-> ->].
    assert (Hpow : 0 < 2 ^ (- i - e')) by (apply Z.pow_pos_nonneg; lia).
    assert (Hcmp : (2 * (k mod 2 ^ i * 2 ^ (- i - e')) ?= 2 ^ (i + (- i - e')))
                   = (2 * (k mod 2 ^ i) ?= 2 ^ i)).
    { rewrite Z.pow_add_r by lia.
      destruct (Z.compare_spec (2 * (k mod 2 ^ i)) (2 ^ i)) as [C|C|C].
      - apply Z.compare_eq_iff. nia.
      - apply Z.compare_lt_iff. nia.
      - apply Z.compare_gt_iff. nia. }
    rewrite Hcmp. reflexivity.
Qed.

Lemma to_int_rint_dyadic (k i : Z) :
  0 <= k < 2 ^ 52 -> 0 <= i <= 400 ->
  F64.to_int (F64.rint (dyadic k (- i))) = round_shift k i.
Proof.
  intros Hk Hi. assert (Hp : 0 < 2 ^ i) by (apply Z.pow_pos_nonneg; lia).
  destruct (Z.eq_dec k 0) as [->|Hk0].
  - change (dyadic 0 (- i)) with (S754_zero false).
    unfold round_shift. rewrite Z.div_0_l, Z.mod_0_l by lia.
    replace (2 * 0 ?= 2 ^ i) with Lt by (symmetry; apply Z.compare_lt_iff; lia).
    reflexivity.
  - rewrite rint_dyadic by lia. apply to_int_of_Z.
    pose proof (round_shift_bounds k i ltac:(lia)) as B.
    assert (0 <= k / 2 ^ i <= k)
      by (split; [apply Z.div_pos; lia|apply Z.div_le_upper_bound; nia]).
    assert (H52 : 2 ^ 52 = 4503599627370496) by reflexivity.
    assert (H53 : 2 ^ 53 = 9007199254740992) by reflexivity.
    lia.
Qed.

(** The running sums of [c] steps of [2^(-i)] from [k * 2^(-i)]. *)
Lemma cumsum_steps (i : Z) (c : nat) :
  0 <= i <= 400 ->
  forall k : Z,
    0 <= k -> k + Z.of_nat c < 2 ^ 53 ->
    cumsum_from (dyadic k (- i)) (replicate c (dyadic 1 (- i)))
    = map (fun t => dyadic (k + Z.of_nat t) (- i)) (seq 1 c).
Proof.
  intros Hi. induction c as [|c IH]; intros k Hk Hlt; [reflexivity|].
  cbn [replicate cumsum_from seq map].
  rewrite add_dyadic by lia. f_equal.
  rewrite IH by lia. rewrite <- (seq_shift c 1), map_map.
  apply map_ext. intros t. f_equal. lia.
Qed.

End EdgeValues.

(** The edges of the [2^i] regions over [m] rows: region [j] starts at
    [j * m / 2^i], rounded to the nearest row, ties to even. *)
Lemma region_edges_pow2 (i m : nat) :
  (Z.of_nat i <= 50)%Z -> (2 ^ Z.of_nat i * Z.of_nat m < 2 ^ 52)%Z ->
  region_edges (2 ^ i) m
  = map (fun j => round_shift (Z.of_nat j * Z.of_nat m) (Z.of_nat i))
        (seq 0 (2 ^ i + 1)).
Proof.
  intros Hi Hm.
  assert (Hn : Z.of_nat (2 ^ i) = (2 ^ Z.of_nat i)%Z).
  { rewrite Nat2Z.inj_pow. reflexivity. }
  assert (Hp : (0 < 2 ^ Z.of_nat i <= 2 ^ 50)%Z).
  { split; [apply Z.pow_pos_nonneg; lia|apply Z.pow_le_mono_r; lia]. }
  assert (H50 : (2 ^ 50 = 1125899906842624)%Z) by reflexivity.
  assert (H52 : (2 ^ 52 = 4503599627370496)%Z) by reflexivity.
  assert (H53 : (2 ^ 53 = 9007199254740992)%Z) by reflexivity.
  unfold region_edges.
  assert (Hw : F64.div (F64.mul F64.one F64.one) (F64.of_Z (Z.of_nat (2 ^ i)))
               = dyadic 1 (- Z.of_nat i)).
  { change (F64.mul F64.one F64.one) with (dyadic 1 0).
    rewrite Hn, of_Z_dyadic.
    replace (2 ^ Z.of_nat i)%Z with (1 * 2 ^ Z.of_nat i)%Z by lia.
    replace 0%Z with (Z.of_nat i - Z.of_nat i)%Z at 2 by lia.
    rewrite dyadic_shift by lia. apply div_pow2. lia. }
  rewrite Hw. cbn [replicate insert list_insert cumsum].
  change F64.zero with (dyadic 0 (- Z.of_nat i)).
  rewrite cumsum_steps by lia.
  replace (2 ^ i + 1)%nat with (Datatypes.S (2 ^ i)) by lia.
  cbn [seq map]. f_equal.
  - rewrite of_Z_dyadic, mul_dyadic by lia. cbn [Z.mul Z.add].
    rewrite Z.add_0_r. apply to_int_rint_dyadic; lia.
  - rewrite map_map. apply map_ext_in. intros t Ht. apply in_seq in Ht.
    rewrite of_Z_dyadic, Z.add_0_l.
    rewrite mul_dyadic by nia.
    rewrite Z.add_0_r. apply to_int_rint_dyadic; nia.
Qed.

Lemma slice_within {A : Type} (rows : list A) (a b : Z) :
  (0 <= a <= b)%Z -> (b <= Z.of_nat (length rows))%Z ->
  slice rows a b = take (Z.to_nat b - Z.to_nat a) (drop (Z.to_nat a) rows).
Proof.
  intros Hab Hb. unfold slice, slice_bound.
  replace (a <? 0)%Z with false by (symmetry; apply Z.ltb_ge; lia).
  replace (b <? 0)%Z with false by (symmetry; apply Z.ltb_ge; lia).
  replace (Nat.min (length rows) (Z.to_nat a)) with (Z.to_nat a) by lia.
  replace (Nat.min (length rows) (Z.to_nat b)) with (Z.to_nat b) by lia.
  reflexivity.
Qed.

Lemma last_cons_default {A : Type} (es : list A) :
  forall a b, List.last (b :: es) a = List.last es b.
Proof.
  induction es as [|c es IH]; intros a b; [reflexivity|].
  change (List.last (b :: c :: es) a) with (List.last (c :: es) a).
  now rewrite !IH.
Qed.

Lemma last_in_cons {A : Type} (es : list A) :
  forall a, In (List.last es a) (a :: es).
Proof.
  induction es as [|b es IH]; intros a; [left; reflexivity|].
  rewrite last_cons_default. right. apply IH.
Qed.

Lemma chain_last (es : list Z) :
  forall a : Z,
    (forall j x y, (a :: es) !! j = Some x -> (a :: es) !! Datatypes.S j = Some y ->
                   (x <= y)%Z) ->
    (a <= List.last es a)%Z.
Proof.
  induction es as [|b es IH]; intros a Hmono; [cbn; lia|].
  assert (Hab : (a <= b)%Z) by (apply (Hmono 0%nat); reflexivity).
  rewrite last_cons_default.
  assert (b <= List.last es b)%Z; [|lia].
  apply IH. intros j x y Hx Hy. apply (Hmono (Datatypes.S j)); assumption.
Qed.

(** Regions cut at increasing edges are consecutive: together they are
    the rows from the first edge to the last. *)
Lemma concat_regions {A : Type} (rows : list A) (es : list Z) :
  forall a : Z,
    (0 <= a)%Z ->
    (forall j x y, (a :: es) !! j = Some x -> (a :: es) !! Datatypes.S j = Some y ->
                   (x <= y)%Z) ->
    (forall x, In x (a :: es) -> (x <= Z.of_nat (length rows))%Z) ->
    concat (regions rows (a :: es))
    = take (Z.to_nat (List.last es a) - Z.to_nat a) (drop (Z.to_nat a) rows).
Proof.
  induction es as [|b es IH]; intros a Ha Hmono Hle.
  - cbn. now rewrite Nat.sub_diag.
  - assert (Hab : (a <= b)%Z) by (apply (Hmono 0%nat); reflexivity).
    assert (Hb : (b <= Z.of_nat (length rows))%Z)
      by (apply Hle; right; left; reflexivity).
    assert (Hmono' : forall j x y, (b :: es) !! j = Some x ->
                       (b :: es) !! Datatypes.S j = Some y -> (x <= y)%Z)
      by (intros j x y Hx Hy; apply (Hmono (Datatypes.S j)); assumption).
    pose proof (chain_last es b Hmono') as Hlast.
    assert (Hll : (List.last es b <= Z.of_nat (length rows))%Z)
      by (apply Hle; right; apply last_in_cons).
    change (regions rows (a :: b :: es))
      with (slice rows a b :: regions rows (b :: es)).
    cbn [concat]. rewrite slice_within by lia.
    rewrite IH; [|lia|exact Hmono'|intros x Hx; apply Hle; now right].
    rewrite last_cons_default.
    set (L := List.last es b) in *.
    replace (Z.to_nat L - Z.to_nat a)
      with ((Z.to_nat b - Z.to_nat a) + (Z.to_nat L - Z.to_nat b))%nat by lia.
    rewrite <- take_take_drop. f_equal.
    rewrite drop_drop. do 2 f_equal. lia.
Qed.

Lemma lookup_last_cons {A : Type} (es : list A) :
  forall a, (a :: es) !! length es = Some (List.last es a).
Proof.
  induction es as [|b es IH]; intros a; [reflexivity|].
  rewrite last_cons_default. cbn [length]. apply (IH b).
Qed.

Lemma edges_lookup (i m j : nat) :
  (Z.of_nat i <= 50)%Z -> (2 ^ Z.of_nat i * Z.of_nat m < 2 ^ 52)%Z ->
  j <= 2 ^ i ->
  region_edges (2 ^ i) m !! j
  = Some (round_shift (Z.of_nat j * Z.of_nat m) (Z.of_nat i)).
Proof.
  intros Hi Hm Hj. rewrite region_edges_pow2 by assumption.
  change (map ?f ?l) with (f <$> l).
  rewrite list_lookup_fmap, lookup_seq_lt by lia. reflexivity.
Qed.

Lemma edges_increase (i m j : nat) :
  (round_shift (Z.of_nat j * Z.of_nat m) (Z.of_nat i)
   <= round_shift (Z.of_nat (Datatypes.S j) * Z.of_nat m) (Z.of_nat i))%Z.
Proof. apply round_shift_mono; nia. Qed.

Lemma edges_within (i m j : nat) :
  j <= 2 ^ i ->
  (0 <= round_shift (Z.of_nat j * Z.of_nat m) (Z.of_nat i) <= Z.of_nat m)%Z.
Proof.
  intros Hj.
  assert (Hn : Z.of_nat (2 ^ i) = (2 ^ Z.of_nat i)%Z) by apply Nat2Z.inj_pow.
  split.
  - rewrite <- (round_shift_exact 0 (Z.of_nat i)) at 1 by lia.
    apply round_shift_mono; nia.
  - rewrite <- (round_shift_exact (Z.of_nat m) (Z.of_nat i)) at 2 by lia.
    apply round_shift_mono; nia.
Qed.

(** X29. The regions of one level of a pyramid tile the input. For
    [m] rows and level [i] (with [i <= 50] and [2^i * m < 2^52], so
    that the edges are computed exactly), the [2^i] row slices
    [edges[j] : edges[j + 1]] that the pooling loop visits are
    consecutive and cover every row exactly once: put end to end they
    are the rows themselves. Edge [j] is [j * m / 2^i] rounded to the
    nearest integer, ties to even. *)
Theorem pyramid_level_tiles {A : Type} (rows : list A) (i : nat) :
  (Z.of_nat i <= 50)%Z ->
  (2 ^ Z.of_nat i * Z.of_nat (length rows) < 2 ^ 52)%Z ->
  let edges := region_edges (2 ^ i) (length rows) in
  length (regions rows edges) = 2 ^ i /\
  concat (regions rows edges) = rows /\
  forall j, j < 2 ^ i ->
    exists a b, edge edges j = Ok a /\ edge edges (Datatypes.S j) = Ok b /\
                regions rows edges !! j = Some (slice rows a b) /\
                a = round_shift (Z.of_nat j * Z.of_nat (length rows)) (Z.of_nat i).
Proof.
  intros Hi Hm edges. set (m := length rows) in *.
  pose proof (pow2_pos i) as Hn.
  assert (Hlen : length edges = Datatypes.S (2 ^ i)) by apply length_region_edges.
  split; [|split].
  - unfold regions. rewrite length_zip_with.
    destruct edges as [|e0 es]; [discriminate|]. cbn [tail length] in *. lia.
  - destruct edges as [|e0 es] eqn:E; [discriminate|].
    assert (He0 : e0 = 0%Z).
    { pose proof (edges_lookup i m 0 Hi Hm ltac:(lia)) as H0.
      fold edges in H0. rewrite E in H0. cbn in H0. injection H0 as ->.
      apply (round_shift_exact 0). lia. }
    assert (Hall : forall j x, (e0 :: es) !! j = Some x ->
                     x = round_shift (Z.of_nat j * Z.of_nat m) (Z.of_nat i)
                     /\ j <= 2 ^ i).
    { intros j x Hx. assert (Hj : j <= 2 ^ i).
      { apply lookup_lt_Some in Hx. rewrite Hlen in Hx. lia. }
      pose proof (edges_lookup i m j Hi Hm Hj) as Hj'.
      fold edges in Hj'. rewrite E in Hj'. split; [congruence|exact Hj]. }
    rewrite concat_regions.
    + assert (Hlast : List.last es e0 = Z.of_nat m).
      { assert (Hl : (e0 :: es) !! (2 ^ i) = Some (List.last es e0)).
        { replace (2 ^ i) with (length es) by (cbn [length] in Hlen; lia).
          apply lookup_last_cons. }
        destruct (Hall _ _ Hl) as [-> _].
        assert (Hn' : Z.of_nat (2 ^ i) = (2 ^ Z.of_nat i)%Z) by apply Nat2Z.inj_pow.
        rewrite Hn', Z.mul_comm. apply round_shift_exact. lia. }
      rewrite Hlast, He0, Nat2Z.id. cbn [Z.to_nat drop]. rewrite Nat.sub_0_r.
      apply firstn_all.
    + lia.
    + intros j x y Hx Hy.
      destruct (Hall _ _ Hx) as [-> _]. destruct (Hall _ _ Hy) as [-> _].
      apply edges_increase.
    + intros x Hx. apply list_elem_of_In, list_elem_of_lookup_1 in Hx.
      destruct Hx as [j Hx]. destruct (Hall _ _ Hx) as [-> Hj].
      apply edges_within. exact Hj.
  - intros j Hj.
    destruct (edge_lookup (2 ^ i) m j Hj) as (a & b & Ea & Eb & La & Lb).
    exists a, b. fold edges in Ea, Eb, La, Lb.
    split; [exact Ea|]. split; [exact Eb|]. split.
    + unfold regions. rewrite lookup_zip_with, La. cbn [option_bind mbind].
      rewrite lookup_tail, Lb. reflexivity.
    + pose proof (edges_lookup i m j Hi Hm ltac:(lia)) as H0.
      fold edges in H0. congruence.
Qed.

Lemma pyramid_level_tiles_witness :
  let edges := region_edges (2 ^ 1) (length [1; 2; 3]) in
  length (regions [1; 2; 3] edges) = 2 ^ 1 /\
  concat (regions [1; 2; 3] edges) = [1; 2; 3] /\
  forall j, j < 2 ^ 1 ->
    exists a b, edge edges j = Ok a /\ edge edges (Datatypes.S j) = Ok b /\
                regions [1; 2; 3] edges !! j = Some (slice [1; 2; 3] a b) /\
                a = round_shift (Z.of_nat j * Z.of_nat (length [1; 2; 3]))
                      (Z.of_nat 1).
Proof.
  apply (pyramid_level_tiles [1; 2; 3] 1); cbn; lia.
Defined.

(** With at least as many rows as regions, no region is empty. *)
Lemma edges_strict (i m j : nat) :
  2 ^ i <= m ->
  (round_shift (Z.of_nat j * Z.of_nat m) (Z.of_nat i)
   < round_shift (Z.of_nat (Datatypes.S j) * Z.of_nat m) (Z.of_nat i))%Z.
Proof.
  intros Hm.
  assert (Hn : Z.of_nat (2 ^ i) = (2 ^ Z.of_nat i)%Z) by apply Nat2Z.inj_pow.
  destruct (Nat.eq_dec m (2 ^ i)) as [->|Hne].
  - rewrite Hn, !round_shift_exact by lia. lia.
  - apply round_shift_apart; [lia|]. rewrite <- Hn. nia.
Qed.

Lemma max_vector_total (rows : list (list float)) (d : nat) (norm : bool)
    (i j : nat) :
  (Z.of_nat i <= 50)%Z -> (2 ^ Z.of_nat i * Z.of_nat (length rows) < 2 ^ 52)%Z ->
  2 ^ i <= length rows -> j < 2 ^ i ->
  exists v,
    pool_vector rows d str_max norm (region_edges (2 ^ i) (length rows)) j = Ok v.
Proof.
  intros Hi Hm Hrows Hj. unfold pool_vector, edge.
  rewrite (edges_lookup i _ j) by (assumption || lia).
  rewrite (edges_lookup i _ (Datatypes.S j)) by (assumption || lia).
  cbn [rbind].
  pose proof (edges_strict i (length rows) j Hrows) as Hlt.
  pose proof (edges_within i (length rows) j ltac:(lia)) as Ha.
  pose proof (edges_within i (length rows) (Datatypes.S j) ltac:(lia)) as Hb.
  rewrite slice_within by lia.
  set (a := round_shift (Z.of_nat j * _) _) in *.
  set (b := round_shift (Z.of_nat (Datatypes.S j) * _) _) in *.
  unfold pool_region. cbn [String.eqb Ascii.eqb Bool.eqb str_mean str_max].
  unfold max_axis0.
  destruct (take (Z.to_nat b - Z.to_nat a) (drop (Z.to_nat a) rows)) as [|r rs] eqn:E.
  - apply (f_equal length) in E. rewrite length_take, length_drop in E.
    cbn [length] in E. lia.
  - cbn [rbind]. eexists. reflexivity.
Qed.

(** X30. With max pooling (['max'] in any letter case), a pyramid over
    an [m x d] input returns as soon as there are at least as many rows
    as regions in its last level, [m >= 2^levels]: no region is empty
    (for [levels <= 50] and [2^levels * m < 2^52], where the edges are
    computed exactly). *)
Theorem max_pooling_returns (mem : raw) (x : ndarray) (m d levels : nat)
    (pool_type : string) (norm unit : bool) :
  shape x = [m; d] -> lower pool_type = str_max ->
  (Z.of_nat levels <= 50)%Z -> (2 ^ Z.of_nat levels * Z.of_nat m < 2 ^ 52)%Z ->
  2 ^ levels <= m ->
  exists out, feature_1dpyramid mem x levels pool_type norm unit = Ok out.
Proof.
  intros Hx Hpt HL Hm Hrows.
  rewrite (feature_1dpyramid_collect _ x m d) by exact Hx. rewrite Hpt.
  set (rows := blocks m d (buffer x)).
  assert (Hlen : length rows = m) by apply blocks_length.
  assert (Hlevel : forall i, i <= levels ->
            exists vs, level_vectors rows d str_max norm m i = Ok vs).
  { intros i Hi. unfold level_vectors, chunk_vectors.
    apply collect_total. intros j Hj. apply in_seq in Hj.
    assert (Hpi : (2 ^ Z.of_nat i <= 2 ^ Z.of_nat levels)%Z)
      by (apply Z.pow_le_mono_r; lia).
    assert (Hni : 2 ^ i <= 2 ^ levels) by (apply Nat.pow_le_mono_r; lia).
    rewrite <- Hlen.
    apply max_vector_total; rewrite ?Hlen; try lia. nia. }
  unfold pyramid_vectors.
  destruct (collect_total (level_vectors rows d str_max norm m)
              (seq 0 (levels + 1))) as [vss E].
  { intros i Hi. apply in_seq in Hi. apply Hlevel. lia. }
  rewrite E. cbn [rbind].
  replace (levels + 1) with (Datatypes.S levels) in E by lia.
  cbn [seq collect] in E.
  destruct (Hlevel 0 ltac:(lia)) as [v0 E0]. rewrite E0 in E. cbn [rbind] in E.
  destruct (collect _ (seq 1 levels)) as [vss'|]; [|discriminate].
  cbn [rbind] in E. injection E as <-.
  apply collect_length in E0. cbn in E0.
  destruct v0 as [|v v0]; [discriminate|]. cbn [concat app hstack rbind].
  eexists. reflexivity.
Qed.

Lemma max_pooling_returns_witness :
  exists out,
    feature_1dpyramid zeros_mem (of_matrix 1 [[F64.of_Z 3]; [F64.of_Z 4]]) 1
      "Max" true false = Ok out.
Proof.
  apply (max_pooling_returns zeros_mem (of_matrix 1 [[F64.of_Z 3]; [F64.of_Z 4]])
           2 1 1 "Max" true false);
    try reflexivity; cbn; lia.
Defined.
